(** * ODINv2 symbol geometry synthesis: line styles G*M*BCD--- and G*T*X-----

    The two generators of the style registry (FORD DIFFICULT and
    TASKS / CLEAR) are embedded as functions over the real numbers.
    JavaScript numbers are idealised as reals: the model covers finite
    inputs, and a division is meaningful only where the divisor is not
    zero.  Exceptions are modelled as error results.  What a call does
    to the objects of the program is modelled on a store of objects, on
    which the generators are sequences of statements. *)

From Stdlib Require Import Reals Lra Lia ZArith List String Ascii.
From stdpp Require Import gmap strings.

#[local] Open Scope R_scope.
#[local] Set Warnings "-register-all".

(** ** Conditions and results *)

(** The named failure conditions of the engine; [TypeError] is the
    run-time error of reading a member of [undefined], and [RangeError]
    that of a recursion that exhausts the stack. *)
Inductive Condition : Type :=
| DegenerateGeometry
| InvalidParameter
| ConflictingDefinition
| NotFound
| TypeError
| RangeError.

(** The outcome of a call: a value, or the condition it was abandoned
    with. *)
Inductive result (A : Type) : Type :=
| Ok (a : A)
| Err (c : Condition).

Arguments Ok {A} a.
Arguments Err {A} c.

Definition bind {A B : Type} (m : result A) (k : A -> result B) : result B :=
  match m with
  | Ok a => k a
  | Err c => Err c
  end.

Notation "'let*' x ':=' m 'in' k" := (bind m (fun x => k))
  (at level 10, x pattern, m at level 100, k at level 200).

(** ** Data model *)

Record Coordinate : Type := mkCoordinate { x : R; y : R }.

Definition translate (t c : Coordinate) : Coordinate :=
  mkCoordinate (x c + x t) (y c + y t).

Definition untranslate (t c : Coordinate) : Coordinate :=
  mkCoordinate (x c - x t) (y c - y t).

Definition Coordinate_eq_dec (a b : Coordinate) : {a = b} + {a <> b}.
Proof.
  destruct a as [ax ay], b as [bx by_].
  destruct (Req_dec_T ax bx) as [Hx | Hx].
  - destruct (Req_dec_T ay by_) as [Hy | Hy].
    + left. subst. reflexivity.
    + right. intros H. inversion H. contradiction.
  - right. intros H. inversion H. contradiction.
Defined.

Record Segment : Type := mkSegment { p0 : Coordinate; p1 : Coordinate }.

(** Geometries are kept as the terms the kernel builds them with. *)
Inductive Geometry : Type :=
| Point (c : Coordinate)
| LineString (cs : list Coordinate)
| LineBuffer (g : Geometry) (width : R)
| PointBuffer (c : Coordinate) (radius : R)
| Boundary (g : Geometry)
| Difference (gs : list Geometry)
| Collect (gs : list Geometry).

(** ** Ramda helpers used by the generators *)

Module Ramda.

(** [R.zip]: pairs up to the length of the shorter list. *)
Definition zip {A B : Type} (l : list A) (k : list B) : list (A * B) :=
  combine l k.

(** [R.flatten] on a list of two-element arrays of coordinates. *)
Definition flatten {A : Type} (l : list (A * A)) : list A :=
  flat_map (fun p => [fst p; snd p]) l.

End Ramda.

(** [Array.prototype.filter] with a predicate on element and index. *)
Fixpoint filter_from {A : Type} (f : A -> nat -> bool) (i : nat) (l : list A)
  : list A :=
  match l with
  | [] => []
  | a :: l' =>
      if f a i then a :: filter_from f (S i) l' else filter_from f (S i) l'
  end.

Definition filter_index {A : Type} (f : A -> nat -> bool) (l : list A) : list A :=
  filter_from f 0 l.

(** ** Geometry kernel *)

Module TS.

(** Modelled from the spec: [coordinates] of the kernel module [ts],
    which is not among the sources; the vertex list of a LineString. *)
Definition coordinates (lineString : list Coordinate) : list Coordinate :=
  lineString.

(** Modelled from the spec: [Math.atan2] with its standard semantics,
    in terms of the arctangent of the real numbers. *)
Definition atan2 (dy dx : R) : R :=
  match total_order_T 0 dx with
  | inleft (left _) => atan (dy / dx)
  | inleft (right _) =>
      match total_order_T 0 dy with
      | inleft (left _) => PI / 2
      | inleft (right _) => 0
      | inright _ => - (PI / 2)
      end
  | inright _ =>
      if Rle_dec 0 dy then atan (dy / dx) + PI else atan (dy / dx) - PI
  end.

(** Modelled from the spec: [segment(a, b)] of the kernel module [ts];
    fails with [DegenerateGeometry] if [a = b]. *)
Definition segment (a b : Coordinate) : result Segment :=
  if Coordinate_eq_dec a b then Err DegenerateGeometry
  else Ok (mkSegment a b).

(** Modelled from the spec: [segment(lineString)] of the kernel module
    [ts]; uses the first and the last coordinate, and a vertex list that
    is no LineString (fewer than two coordinates) is degenerate. *)
Definition segment_of (coords : list Coordinate) : result Segment :=
  match coords with
  | a :: b :: rest => segment a (List.last rest b)
  | _ => Err DegenerateGeometry
  end.

(** Modelled from the spec: [angle(segment)], the bearing from start to
    end. *)
Definition angle (s : Segment) : R :=
  atan2 (y (p1 s) - y (p0 s)) (x (p1 s) - x (p0 s)).

(** Modelled from the spec: [midPoint(segment)], the arithmetic mean of
    the endpoints. *)
Definition midPoint (s : Segment) : Coordinate :=
  mkCoordinate ((x (p0 s) + x (p1 s)) / 2) ((y (p0 s) + y (p1 s)) / 2).

(** Modelled from the spec: [dir], the unit vector at [angle]. *)
Definition dir (angle : R) : Coordinate := mkCoordinate (cos angle) (sin angle).

(** Modelled from the spec: [perp], which is [dir] rotated by +PI/2. *)
Definition perp (angle : R) : Coordinate :=
  mkCoordinate (- sin angle) (cos angle).

(** Modelled from the spec: one projected coordinate,
    [origin + along * distance * dir + across * distance * perp]. *)
Definition projectCoordinate (distance angle : R) (origin : Coordinate)
  (offset : R * R) : Coordinate :=
  let (along, across) := offset in
  mkCoordinate
    (x origin + along * distance * x (dir angle)
              + across * distance * x (perp angle))
    (y origin + along * distance * y (dir angle)
              + across * distance * y (perp angle)).

(** Modelled from the spec: [projectCoordinates(distance, angle,
    origin)(offsets)] of the kernel module [ts]. *)
Definition projectCoordinates (distance angle : R) (origin : Coordinate)
  (offsets : list (R * R)) : list Coordinate :=
  map (projectCoordinate distance angle origin) offsets.

(** Modelled from the spec: the point at the fraction [f] of the way from
    the start to the end of a segment, for its even subdivision. *)
Definition pointAlong (s : Segment) (f : R) : Coordinate :=
  mkCoordinate (x (p0 s) + f * (x (p1 s) - x (p0 s)))
               (y (p0 s) + f * (y (p1 s) - y (p0 s))).

(** Modelled from the spec: [segmentize(segment, n)] of the kernel
    module [ts]; [n + 1] evenly spaced coordinates, and
    [InvalidParameter] when [n < 1]. *)
Definition segmentize (s : Segment) (n : Z) : result (list Coordinate) :=
  if (n <? 1)%Z then Err InvalidParameter
  else Ok (map (fun i : nat => pointAlong s (INR i / IZR n))
             (seq 0 (Z.to_nat n + 1))).

(** Modelled from the spec: the constructor [lineString] of the kernel
    module [ts]. *)
Definition lineString (cs : list Coordinate) : Geometry := LineString cs.

(** Modelled from the spec: the constructor [point] of the kernel module
    [ts]. *)
Definition point (c : Coordinate) : Geometry := Point c.

(** Modelled from the spec: [lineBuffer(lineString)(width)] of the kernel
    module [ts], kept as a term. *)
Definition lineBuffer (g : Geometry) (width : R) : Geometry := LineBuffer g width.

(** Modelled from the spec: [pointBuffer(coordinate)(radius)] of the kernel
    module [ts], kept as a term. *)
Definition pointBuffer (c : Coordinate) (radius : R) : Geometry :=
  PointBuffer c radius.

(** Modelled from the spec: [boundary(region)] of the kernel module [ts],
    kept as a term. *)
Definition boundary (g : Geometry) : Geometry := Boundary g.

(** Modelled from the spec: [difference(regions)] of the kernel module
    [ts], the first region minus the others, kept as a term. *)
Definition difference (gs : list Geometry) : Geometry := Difference gs.

(** Modelled from the spec: [collect(geometries)] of the kernel module
    [ts], kept as a term. *)
Definition collect (gs : list Geometry) : Geometry := Collect gs.

(** Modelled from the spec: [startPoint] of a LineString, its first
    coordinate. *)
Definition startPoint (lineString : list Coordinate) : result Coordinate :=
  match lineString with
  | a :: _ => Ok a
  | [] => Err DegenerateGeometry
  end.

(** Modelled from the spec: [endPoint] of a LineString, its last
    coordinate. *)
Definition endPoint (lineString : list Coordinate) : result Coordinate :=
  match lineString with
  | a :: rest => Ok (List.last rest a)
  | [] => Err DegenerateGeometry
  end.

End TS.

(** ** Style context and drawable primitives *)

Record TextOptions : Type :=
  mkTextOptions { text : string; flip : bool; rotation : R }.

(** The [styles] member of a generator's argument: the constructors that
    wrap a geometry into a drawable primitive of type [P]. *)
Module styles.

Record context (P : Type) : Type := mkContext {
  dashedStroke : Geometry -> P;
  solidStroke : Geometry -> P;
  defaultStroke : Geometry -> P;
  text : Geometry -> TextOptions -> P
}.

Arguments dashedStroke {P} _ _.
Arguments solidStroke {P} _ _.
Arguments defaultStroke {P} _ _.
Arguments text {P} _ _ _.

End styles.

(** Modelled from the spec: the drawable primitives; the anchor of a label
    is the point geometry handed to [text]. *)
Inductive Primitive : Type :=
| Stroke (geometry : Geometry) (dashed : bool)
| Fill (geometry : Geometry)
| Label (anchor : Geometry) (options : TextOptions).

(** Modelled from the spec: the conventional constructors of the style
    context, which is not among the sources. *)
Definition drawable : styles.context Primitive :=
  {| styles.dashedStroke := fun g => Stroke g true;
     styles.solidStroke := fun g => Stroke g false;
     styles.defaultStroke := fun g => Stroke g false;
     styles.text := fun g o => Label g o |}.

(** ** The generators *)

(** The filter predicates [(_, i) => i % 2 === 0] and
    [(_, i) => i % 2 !== 0]. *)
Definition even_index (_ : Coordinate) (i : nat) : bool := (i mod 2 =? 0)%nat.

Definition odd_index (_ : Coordinate) (i : nat) : bool := negb (i mod 2 =? 0)%nat.

(** TACGRP.MOBSU.OBSTBP.CSGSTE.FRDDFT - FORD DIFFICULT,
    [styles['G*M*BCD---']]. *)
Definition G_M_BCD {P : Type} (ctx : styles.context P)
  (lineString : list Coordinate) (width resolution : R) : result (list P) :=
  let coords := TS.coordinates lineString in
  let* segment := TS.segment_of coords in
  let angle := TS.angle segment in
  let midPoint := TS.midPoint segment in
  match TS.projectCoordinates (width / 1.5) angle midPoint [(0, 1); (0, -1)] with
  | p0 :: p1 :: _ =>
      match TS.projectCoordinates (resolution * 4) angle p0 [(-1, 0); (1, 0)]
            ++ TS.projectCoordinates (resolution * 4) angle p1 [(-1, 0); (1, 0)]
      with
      | p00 :: p01 :: p10 :: p11 :: _ =>
          let n := Zfloor (width / resolution / 5) in
          let* s0 := TS.segment p00 p10 in
          let* l0 := TS.segmentize s0 n in
          let* s1 := TS.segment p01 p11 in
          let* l1 := TS.segmentize s1 n in
          let x := Ramda.flatten (Ramda.zip (filter_index even_index l0)
                                            (filter_index odd_index l1)) in
          let* first := TS.startPoint lineString in
          let* final := TS.endPoint lineString in
          Ok [ styles.dashedStroke ctx (TS.difference
                 [ TS.boundary (TS.lineBuffer (LineString lineString) (width / 2));
                   TS.pointBuffer first (width / 2);
                   TS.pointBuffer final (width / 2) ]);
               styles.solidStroke ctx (TS.lineString x) ]
      | _ => Err TypeError
      end
  | _ => Err TypeError
  end.

Section TaskBoundary.

(** [openArrow] of the module [commons], which is not among the sources. *)
Variable openArrow : R -> R -> Coordinate -> Geometry.

(** TASKS / CLEAR, [styles['G*T*X-----']]. *)
Definition G_T_X {P : Type} (ctx : styles.context P)
  (lineString : list Coordinate) (width resolution : R) : result (list P) :=
  let coords := TS.coordinates lineString in
  let* segment := TS.segment_of coords in
  let angle := TS.angle segment in
  match coords with
  | c0 :: c1 :: _ =>
      match TS.projectCoordinates (width / 2) angle c0 [(0, 0.75); (0, -0.75)]
            ++ TS.projectCoordinates (width / 2) angle c1
                 [(0, 0.75); (0, -0.75); (0, 1); (0, -1)]
      with
      | p00 :: p01 :: p10 :: p11 :: p20 :: p21 :: _ =>
          let arrows :=
            map (fun coord => openArrow resolution angle coord) [p10; c1; p11] in
          let geometry := TS.collect
            ([ LineString lineString;
               TS.lineString [p00; p10];
               TS.lineString [p01; p11];
               TS.lineString [p20; p21] ] ++ arrows) in
          Ok [ styles.defaultStroke ctx geometry;
               styles.text ctx (TS.point (TS.midPoint segment))
                 {| text := "C"; flip := true; rotation := PI - angle |} ]
      | _ => Err TypeError
      end
  | _ => Err TypeError
  end.

(** The stroke group and the label of the generator, for marks projected
    about the coordinates [c0] and [c1] at the angle of the segment [s]. *)
Definition task_primitives {P : Type} (ctx : styles.context P)
  (lineString : list Coordinate) (s : Segment) (c0 c1 : Coordinate)
  (width resolution : R) : list P :=
  let mark := TS.projectCoordinate (width / 2) (TS.angle s) in
  [ styles.defaultStroke ctx (Collect
      [ LineString lineString;
        LineString [mark c0 (0, 0.75); mark c1 (0, 0.75)];
        LineString [mark c0 (0, -0.75); mark c1 (0, -0.75)];
        LineString [mark c1 (0, 1); mark c1 (0, -1)];
        openArrow resolution (TS.angle s) (mark c1 (0, 0.75));
        openArrow resolution (TS.angle s) c1;
        openArrow resolution (TS.angle s) (mark c1 (0, -0.75)) ]);
    styles.text ctx (Point (TS.midPoint s))
      {| text := "C"; flip := true; rotation := PI - TS.angle s |} ].

(** The claim's reading of the generator: the marks are projected about
    the start and the end of the base line. *)
Definition task_boundary_at_endpoints {P : Type} (ctx : styles.context P)
  (lineString : list Coordinate) (width resolution : R) : result (list P) :=
  let* s := TS.segment_of lineString in
  let* first := TS.startPoint lineString in
  let* final := TS.endPoint lineString in
  Ok (task_primitives ctx lineString s first final width resolution).

End TaskBoundary.

(** ** Style registry *)

(** A generator: the function a style module stores in the registry. *)
Definition Generator (P : Type) : Type :=
  styles.context P -> list Coordinate -> R -> R -> result (list P).

(** [styles[id] = generator]: the assignment each style module performs on
    the registry object when it is loaded. *)
Definition register {P : Type} (id : string) (g : Generator P)
  (registry : gmap string (Generator P)) : gmap string (Generator P) :=
  <[id := g]> registry.

(** The registry once both style modules have been loaded. *)
Definition loaded {P : Type} (openArrow : R -> R -> Coordinate -> Geometry)
  : gmap string (Generator P) :=
  register "G*T*X-----" (G_T_X openArrow) (register "G*M*BCD---" G_M_BCD ∅).

(** Modelled from the spec: the entry point [synthesize], which is not
    among the sources; a lookup miss is [NotFound], and [width] and
    [resolution] must be positive. *)
Definition synthesize {P : Type} (registry : gmap string (Generator P))
  (ctx : styles.context P) (id : string) (baseGeometry : list Coordinate)
  (width resolution : R) : result (list P) :=
  match registry !! id with
  | None => Err NotFound
  | Some generator =>
      if Rle_dec width 0 then Err InvalidParameter
      else if Rle_dec resolution 0 then Err InvalidParameter
      else generator ctx baseGeometry width resolution
  end.

(** Loading the style modules performs their assignments one after the
    other; an assignment completes normally. *)
Definition load {P : Type} (modules : list (string * Generator P))
  : result (gmap string (Generator P)) :=
  Ok (fold_left (fun registry m => register (fst m) (snd m) registry) modules ∅).

(** A marker standing in for [openArrow] where a concrete one is needed. *)
Definition marker (resolution angle : R) (c : Coordinate) : Geometry := Point c.

(** ** Invocation: the generators on the objects of the program *)

(** The generators above compute values.  What a call does to the
    objects it can reach is modelled here: arrays, geometries and
    primitives are objects in a store, and a variable, an argument or an
    element of an array holds a number, a coordinate or a reference to an
    object.  A statement reads objects and allocates new ones, and an
    assignment overwrites an object that exists, for every holder of a
    reference to it. *)

Module Heap.

(** A reference is the position of its object in the store. *)
Abbreviation loc := nat (only parsing).

(** Modelled from the spec: a coordinate is an immutable value, which a
    variable holds as it holds a number; arrays, geometries and
    primitives are objects, which a variable holds by reference. *)
Inductive Value : Type :=
| Undefined
| Number (r : R)
| Coord (c : Coordinate)
| Ref (l : loc).

Section Objects.

(** The primitives of the style context, its constructors, and
    [openArrow] of the module [commons], which is not among the
    sources. *)
Variable P : Type.
Variable ctx : styles.context P.
Variable openArrow : R -> R -> Coordinate -> Geometry.

Inductive Object : Type :=
| Array (items : list Value)
| Geom (g : Geometry)
| Prim (p : P).

(** The store of the objects. *)
Abbreviation Store := (list Object) (only parsing).

(** A statement: from a store to a value or a thrown condition, and the
    store it leaves. *)
Definition M (A : Type) : Type := Store -> result A * Store.

(** A value, a thrown condition, and one statement after the other: a
    thrown condition ends the sequence and keeps the store as it is
    then. *)
Definition ret {A : Type} (a : A) : M A := fun h => (Ok a, h).

Definition throw {A : Type} (c : Condition) : M A := fun h => (Err c, h).

Definition andThen {A B : Type} (m : M A) (k : A -> M B) : M B :=
  fun h => match m h with
           | (Ok a, h') => k a h'
           | (Err c, h') => (Err c, h')
           end.

Notation "'let!' x ':=' m 'in' k" := (andThen m (fun x => k))
  (at level 10, x pattern, m at level 100, k at level 200).

(** The outcome of a call of the kernel, thrown when it is a failure. *)
Definition lift {A : Type} (r : result A) : M A :=
  match r with
  | Ok a => ret a
  | Err c => throw c
  end.

(** A new object, at a reference that was not in use. *)
Definition alloc (o : Object) : M Value :=
  fun h => (Ok (Ref (List.length h)), h ++ [o]).

(** An assignment to the object of a reference; a reference that is not
    in use designates nothing. *)
Definition assign (l : loc) (o : Object) : M unit :=
  fun h => (Ok tt, <[l := o]> h).

(** Reading the store; what is not there, or is of another kind than the
    one read, is a [TypeError]. *)
Definition inspect {A : Type} (f : Store -> option A) : M A :=
  fun h => match f h with
           | Some a => (Ok a, h)
           | None => (Err TypeError, h)
           end.

(** The array, the geometry, the primitive and the coordinate that a
    value stands for, if it does. *)
Definition array (h : Store) (v : Value) : option (list Value) :=
  match v with
  | Ref l => match h !! l with
             | Some (Array items) => Some items
             | _ => None
             end
  | _ => None
  end.

Definition geometry (h : Store) (v : Value) : option Geometry :=
  match v with
  | Ref l => match h !! l with
             | Some (Geom g) => Some g
             | _ => None
             end
  | _ => None
  end.

Definition primitive (h : Store) (v : Value) : option P :=
  match v with
  | Ref l => match h !! l with
             | Some (Prim p) => Some p
             | _ => None
             end
  | _ => None
  end.

Definition coordinate (v : Value) : option Coordinate :=
  match v with
  | Coord c => Some c
  | _ => None
  end.

(** [f] on every element of a list, if it is defined on each. *)
Fixpoint all {A B : Type} (f : A -> option B) (l : list A) : option (list B) :=
  match l with
  | [] => Some []
  | a :: l' =>
      match f a, all f l' with
      | Some b, Some bs => Some (b :: bs)
      | _, _ => None
      end
  end.

(** An array of coordinates, of geometries, of primitives, and an array
    of offsets [[along, across]]. *)
Definition coordinates_at (h : Store) (v : Value) : option (list Coordinate) :=
  match array h v with
  | Some items => all coordinate items
  | None => None
  end.

Definition geometries_at (h : Store) (v : Value) : option (list Geometry) :=
  match array h v with
  | Some items => all (geometry h) items
  | None => None
  end.

Definition primitives_at (h : Store) (v : Value) : option (list P) :=
  match array h v with
  | Some items => all (primitive h) items
  | None => None
  end.

Definition offset_at (h : Store) (v : Value) : option (R * R) :=
  match array h v with
  | Some (Number along :: Number across :: _) => Some (along, across)
  | _ => None
  end.

Definition offsets_at (h : Store) (v : Value) : option (list (R * R)) :=
  match array h v with
  | Some items => all (offset_at h) items
  | None => None
  end.

(** *** Arrays *)

(** An array literal [[a, b, ...]] of values: a new array. *)
Definition literal (items : list Value) : M Value := alloc (Array items).

(** The calls of [f] on the elements of a list, in their order. *)
Fixpoint each {A : Type} (f : A -> M Value) (l : list A) : M (list Value) :=
  match l with
  | [] => ret []
  | a :: l' =>
      let! v := f a in
      let! vs := each f l' in
      ret (v :: vs)
  end.

(** An array literal of offsets [[[along, across], ...]]: the inner
    arrays are new, and so is the outer one. *)
Definition pairs (l : list (R * R)) : M Value :=
  let! inner := each (fun p => literal [Number (fst p); Number (snd p)]) l in
  literal inner.

(** The elements of an array, as a spread [...a] or a loop reads them. *)
Definition elements (a : Value) : M (list Value) :=
  inspect (fun h => array h a).

(** [a[i]], and the [i]-th variable of a destructuring [[p0, p1] = a]:
    [undefined] beyond the end. *)
Definition index (a : Value) (i : nat) : M Value :=
  let! items := elements a in
  ret (nth i items Undefined).

(** [Array.prototype.filter]: a new array. *)
Definition filter (f : Value -> nat -> bool) (a : Value) : M Value :=
  let! items := elements a in
  literal (filter_index f items).

(** [Array.prototype.map]: a new array. *)
Definition map_ (f : Value -> M Value) (a : Value) : M Value :=
  let! items := elements a in
  let! results := each f items in
  literal results.

(** [R.zip]: a new array of new two-element arrays. *)
Definition R_zip (a b : Value) : M Value :=
  let! xs := elements a in
  let! ys := elements b in
  let! inner := each (fun p => literal [fst p; snd p]) (combine xs ys) in
  literal inner.

(** The elements of [R.flatten]: an element that is an array is replaced
    by its flattened elements, to any depth; [fuel] bounds the depth. *)
Fixpoint flat (fuel : nat) (h : Store) (items : list Value)
  : option (list Value) :=
  match fuel with
  | O => None
  | S fuel' =>
      fold_right
        (fun v rest =>
           match array h v with
           | Some inner =>
               match flat fuel' h inner, rest with
               | Some vs, Some r => Some (vs ++ r)
               | _, _ => None
               end
           | None =>
               match rest with
               | Some r => Some (v :: r)
               | None => None
               end
           end)
        (Some []) items
  end.

(** Arrays nested in each other without end, on which [R.flatten] does
    not return, are abandoned with [RangeError]; no other nesting is
    deeper than the store is long. *)
Definition flattened (items : list Value) : M (list Value) :=
  fun h => match flat (S (S (List.length h))) h items with
           | Some vs => (Ok vs, h)
           | None => (Err RangeError, h)
           end.

(** [R.flatten]: a new array. *)
Definition R_flatten (a : Value) : M Value :=
  let! items := elements a in
  let! vs := flattened items in
  literal vs.

(** *** The kernel *)

(** Modelled from the spec: the operations of the kernel module [ts],
    which is not among the sources, on the objects.  They are pure: they
    read their arguments and write nothing, and what they derive is newly
    allocated.  Each is the operation of [TS] above on what its arguments
    hold. *)

(** Modelled from the spec: [coordinates], the vertex list of a
    LineString or of a point geometry. *)
Definition TS_coordinates (g : Value) : M Value :=
  let! shape := inspect (fun h => geometry h g) in
  match shape with
  | LineString cs => literal (map Coord (TS.coordinates cs))
  | Point c => literal [Coord c]
  | _ => throw InvalidParameter
  end.

(** Modelled from the spec: [segment(lineString)], on the vertex list. *)
Definition TS_segment_of (coords : Value) : M Segment :=
  let! cs := inspect (fun h => coordinates_at h coords) in
  lift (TS.segment_of cs).

(** Modelled from the spec: [segment(a, b)]. *)
Definition TS_segment (a b : Value) : M Segment :=
  let! ca := inspect (fun _ => coordinate a) in
  let! cb := inspect (fun _ => coordinate b) in
  lift (TS.segment ca cb).

(** Modelled from the spec: [projectCoordinates(distance, angle,
    origin)(offsets)]. *)
Definition TS_projectCoordinates (distance angle : R) (origin offsets : Value)
  : M Value :=
  let! o := inspect (fun _ => coordinate origin) in
  let! l := inspect (fun h => offsets_at h offsets) in
  literal (map Coord (TS.projectCoordinates distance angle o l)).

(** Modelled from the spec: [segmentize(segment, n)]. *)
Definition TS_segmentize (s : Segment) (n : Z) : M Value :=
  let! cs := lift (TS.segmentize s n) in
  literal (map Coord cs).

(** Modelled from the spec: [lineString(coordinates)]. *)
Definition TS_lineString (coords : Value) : M Value :=
  let! cs := inspect (fun h => coordinates_at h coords) in
  alloc (Geom (TS.lineString cs)).

(** Modelled from the spec: [point(coordinate)]. *)
Definition TS_point (c : Value) : M Value :=
  let! p := inspect (fun _ => coordinate c) in
  alloc (Geom (TS.point p)).

(** Modelled from the spec: [lineBuffer(lineString)(width)]. *)
Definition TS_lineBuffer (g : Value) (width : R) : M Value :=
  let! shape := inspect (fun h => geometry h g) in
  alloc (Geom (TS.lineBuffer shape width)).

(** Modelled from the spec: [pointBuffer(coordinate)(radius)]. *)
Definition TS_pointBuffer (c : Value) (radius : R) : M Value :=
  let! p := inspect (fun _ => coordinate c) in
  alloc (Geom (TS.pointBuffer p radius)).

(** Modelled from the spec: [boundary(region)]. *)
Definition TS_boundary (g : Value) : M Value :=
  let! shape := inspect (fun h => geometry h g) in
  alloc (Geom (TS.boundary shape)).

(** Modelled from the spec: [difference(regions)], on an array of
    geometries. *)
Definition TS_difference (regions : Value) : M Value :=
  let! gs := inspect (fun h => geometries_at h regions) in
  alloc (Geom (TS.difference gs)).

(** Modelled from the spec: [collect(geometries)], on an array of
    geometries. *)
Definition TS_collect (geometries : Value) : M Value :=
  let! gs := inspect (fun h => geometries_at h geometries) in
  alloc (Geom (TS.collect gs)).

(** Modelled from the spec: [startPoint] of a LineString. *)
Definition TS_startPoint (g : Value) : M Value :=
  let! shape := inspect (fun h => geometry h g) in
  match shape with
  | LineString cs => let! c := lift (TS.startPoint cs) in ret (Coord c)
  | _ => throw InvalidParameter
  end.

(** Modelled from the spec: [endPoint] of a LineString. *)
Definition TS_endPoint (g : Value) : M Value :=
  let! shape := inspect (fun h => geometry h g) in
  match shape with
  | LineString cs => let! c := lift (TS.endPoint cs) in ret (Coord c)
  | _ => throw InvalidParameter
  end.

(** [openArrow(resolution, angle, coord)] of the module [commons], which
    is not among the sources: taken to write nothing and to return a new
    geometry, the one the generators above take it to compute. *)
Definition commons_openArrow (resolution angle : R) (coord : Value) : M Value :=
  let! c := inspect (fun _ => coordinate coord) in
  alloc (Geom (openArrow resolution angle c)).

(** Modelled from the spec: the constructor [dashedStroke] of the style
    context wraps a geometry into a new primitive. *)
Definition styles_dashedStroke (g : Value) : M Value :=
  let! shape := inspect (fun h => geometry h g) in
  alloc (Prim (styles.dashedStroke ctx shape)).

(** Modelled from the spec: the constructor [solidStroke]. *)
Definition styles_solidStroke (g : Value) : M Value :=
  let! shape := inspect (fun h => geometry h g) in
  alloc (Prim (styles.solidStroke ctx shape)).

(** Modelled from the spec: the constructor [defaultStroke]. *)
Definition styles_defaultStroke (g : Value) : M Value :=
  let! shape := inspect (fun h => geometry h g) in
  alloc (Prim (styles.defaultStroke ctx shape)).

(** Modelled from the spec: the constructor [text]. *)
Definition styles_text (g : Value) (options : TextOptions) : M Value :=
  let! shape := inspect (fun h => geometry h g) in
  alloc (Prim (styles.text ctx shape options)).

(** *** The generators *)

(** [styles['G*M*BCD---']], statement by statement.  The argument object
    is destructured in the parameter list: its members [lineString],
    [width] and [resolution] are the arguments, and its member [styles]
    is the style context. *)
Definition G_M_BCD (lineString : Value) (width resolution : R) : M Value :=
  let! coords := TS_coordinates lineString in
  let! segment := TS_segment_of coords in
  let angle := TS.angle segment in
  let midPoint := TS.midPoint segment in
  let! offsets := pairs [(0, 1); (0, -1)] in
  let! ps := TS_projectCoordinates (width / 1.5) angle (Coord midPoint) offsets in
  let! p0 := index ps 0 in
  let! p1 := index ps 1 in
  let! offsets0 := pairs [(-1, 0); (1, 0)] in
  let! ps0 := TS_projectCoordinates (resolution * 4) angle p0 offsets0 in
  let! items0 := elements ps0 in
  let! offsets1 := pairs [(-1, 0); (1, 0)] in
  let! ps1 := TS_projectCoordinates (resolution * 4) angle p1 offsets1 in
  let! items1 := elements ps1 in
  let! corners := literal (items0 ++ items1) in
  let! p00 := index corners 0 in
  let! p01 := index corners 1 in
  let! p10 := index corners 2 in
  let! p11 := index corners 3 in
  let n := Zfloor (width / resolution / 5) in
  let! s0 := TS_segment p00 p10 in
  let! l0 := TS_segmentize s0 n in
  let! evens := filter (fun _ i => (i mod 2 =? 0)%nat) l0 in
  let! s1 := TS_segment p01 p11 in
  let! l1 := TS_segmentize s1 n in
  let! odds := filter (fun _ i => negb (i mod 2 =? 0)%nat) l1 in
  let! zipped := R_zip evens odds in
  let! x := R_flatten zipped in
  let! buffer := TS_lineBuffer lineString (width / 2) in
  let! outline := TS_boundary buffer in
  let! first := TS_startPoint lineString in
  let! cap0 := TS_pointBuffer first (width / 2) in
  let! final := TS_endPoint lineString in
  let! cap1 := TS_pointBuffer final (width / 2) in
  let! regions := literal [outline; cap0; cap1] in
  let! gaps := TS_difference regions in
  let! dashed := styles_dashedStroke gaps in
  let! connector := TS_lineString x in
  let! solid := styles_solidStroke connector in
  literal [dashed; solid].

(** [styles['G*T*X-----']], statement by statement. *)
Definition G_T_X (lineString : Value) (width resolution : R) : M Value :=
  let! coords := TS_coordinates lineString in
  let! segment := TS_segment_of coords in
  let angle := TS.angle segment in
  let! c0 := index coords 0 in
  let! offsets0 := pairs [(0, 0.75); (0, -0.75)] in
  let! ps0 := TS_projectCoordinates (width / 2) angle c0 offsets0 in
  let! items0 := elements ps0 in
  let! c1 := index coords 1 in
  let! offsets1 := pairs [(0, 0.75); (0, -0.75); (0, 1); (0, -1)] in
  let! ps1 := TS_projectCoordinates (width / 2) angle c1 offsets1 in
  let! items1 := elements ps1 in
  let! marks := literal (items0 ++ items1) in
  let! p00 := index marks 0 in
  let! p01 := index marks 1 in
  let! p10 := index marks 2 in
  let! p11 := index marks 3 in
  let! p20 := index marks 4 in
  let! p21 := index marks 5 in
  let! pivot := index coords 1 in
  let! pivots := literal [p10; pivot; p11] in
  let! arrows :=
    map_ (fun coord => commons_openArrow resolution angle coord) pivots in
  let! ends0 := literal [p00; p10] in
  let! side0 := TS_lineString ends0 in
  let! ends1 := literal [p01; p11] in
  let! side1 := TS_lineString ends1 in
  let! ends2 := literal [p20; p21] in
  let! bar := TS_lineString ends2 in
  let! arrowItems := elements arrows in
  let! members := literal ([lineString; side0; side1; bar] ++ arrowItems) in
  let! geometry := TS_collect members in
  let! stroke := styles_defaultStroke geometry in
  let! anchor := TS_point (Coord (TS.midPoint segment)) in
  let! label :=
    styles_text anchor {| text := "C"; flip := true; rotation := PI - angle |} in
  literal [stroke; label].

(** *** The registry and the entry point *)

Definition Generator : Type := Value -> R -> R -> M Value.

(** The registry once both style modules have been loaded. *)
Definition loaded : gmap string Generator :=
  <["G*T*X-----"%string := G_T_X]> (<["G*M*BCD---"%string := G_M_BCD]> ∅).

(** Modelled from the spec: the entry point [synthesize], which is not
    among the sources, on the objects. *)
Definition synthesize (registry : gmap string Generator) (id : string)
  (baseGeometry : Value) (width resolution : R) : M Value :=
  match registry !! id with
  | None => throw NotFound
  | Some generator =>
      if Rle_dec width 0 then throw InvalidParameter
      else if Rle_dec resolution 0 then throw InvalidParameter
      else generator baseGeometry width resolution
  end.

(** *** What a statement does to the store *)

(** [wp m h Q]: from the store [h], the statement [m] ends with an
    outcome and a store that satisfy [Q]. *)
Definition wp {A : Type} (m : M A) (h : Store)
  (Q : result A -> Store -> Prop) : Prop :=
  Q (fst (m h)) (snd (m h)).

(** A statement that only allocates: whatever the store, the one it
    leaves is the one it found, followed by new objects. *)
Definition allocates_only {A : Type} (m : M A) : Prop :=
  forall h : Store, exists new : list Object, snd (m h) = h ++ new.

(** What a caller finds when it reads the outcome of a call through the
    store: the primitives of the returned array, or the condition. *)
Definition outcome (h : Store) (r : result Value) : option (result (list P)) :=
  match r with
  | Ok v => match primitives_at h v with
            | Some ps => Some (Ok ps)
            | None => None
            end
  | Err c => Some (Err c)
  end.

(** A call that has written nothing, returned a reference that was not in
    use before, and left a store through which its outcome reads as
    [expected]. *)
Definition returns (h : Store) (expected : result (list P))
  (out : result Value) (h' : Store) : Prop :=
  (exists new : list Object, h' = h ++ new)
  /\ outcome h' out = Some expected
  /\ (forall v : Value, out = Ok v -> exists l : loc, v = Ref l /\ h !! l = None).

End Objects.

Abbreviation Store P := (list (Object P)) (only parsing).

Arguments Array {P} items.
Arguments Geom {P} g.
Arguments Prim {P} p.
Arguments ret {P A}.
Arguments throw {P A}.
Arguments andThen {P A B}.
Arguments lift {P A}.
Arguments alloc {P}.
Arguments assign {P}.
Arguments inspect {P A}.
Arguments array {P}.
Arguments geometry {P}.
Arguments primitive {P}.
Arguments coordinates_at {P}.
Arguments geometries_at {P}.
Arguments primitives_at {P}.
Arguments offset_at {P}.
Arguments offsets_at {P}.
Arguments literal {P}.
Arguments each {P A}.
Arguments pairs {P}.
Arguments elements {P}.
Arguments index {P}.
Arguments filter {P}.
Arguments map_ {P}.
Arguments R_zip {P}.
Arguments flat {P}.
Arguments flattened {P}.
Arguments R_flatten {P}.
Arguments TS_coordinates {P}.
Arguments TS_segment_of {P}.
Arguments TS_segment {P}.
Arguments TS_projectCoordinates {P}.
Arguments TS_segmentize {P}.
Arguments TS_lineString {P}.
Arguments TS_point {P}.
Arguments TS_lineBuffer {P}.
Arguments TS_pointBuffer {P}.
Arguments TS_boundary {P}.
Arguments TS_difference {P}.
Arguments TS_collect {P}.
Arguments TS_startPoint {P}.
Arguments TS_endPoint {P}.
Arguments commons_openArrow {P}.
Arguments styles_dashedStroke {P}.
Arguments styles_solidStroke {P}.
Arguments styles_defaultStroke {P}.
Arguments styles_text {P}.
Arguments G_M_BCD {P}.
Arguments G_T_X {P}.
Arguments loaded {P}.
Arguments synthesize {P}.
Arguments wp {P A}.
Arguments allocates_only {P A}.
Arguments outcome {P}.
Arguments returns {P}.

End Heap.

(** ** The corners and the connector of FORD DIFFICULT *)

(** The four corners [p00], [p01], [p10], [p11] of the generator: the
    pivot at [across] times [width / 1.5] beside the midpoint, moved by
    [along] times [resolution * 4] in the direction of the line. *)
Definition ford_corner (s : Segment) (width resolution across along : R)
  : Coordinate :=
  TS.projectCoordinate (resolution * 4) (TS.angle s)
    (TS.projectCoordinate (width / 1.5) (TS.angle s) (TS.midPoint s) (0, across))
    (along, 0).

(** The subdivision count [n] of the generator. *)
Definition ford_n (width resolution : R) : Z := Zfloor (width / resolution / 5).

(** The connector in closed form: the pairs of the point [2k] of the
    subdivided segment [p00 -> p10] and the point [2k + 1] of the
    subdivided segment [p01 -> p11]. *)
Definition ford_connector (s : Segment) (width resolution : R)
  : list Coordinate :=
  let n := ford_n width resolution in
  flat_map
    (fun k : nat =>
       [ TS.pointAlong (mkSegment (ford_corner s width resolution 1 (-1))
                                  (ford_corner s width resolution (-1) (-1)))
           (INR (2 * k) / IZR n);
         TS.pointAlong (mkSegment (ford_corner s width resolution 1 1)
                                  (ford_corner s width resolution (-1) 1))
           (INR (S (2 * k)) / IZR n) ])
    (seq 0 ((Z.to_nat n + 1) / 2)).

(** ** The plane figures the geometry terms stand for *)

(** The squared distance of two coordinates. *)
Definition dist2 (p q : Coordinate) : R :=
  (x p - x q) * (x p - x q) + (y p - y q) * (y p - y q).

(** [p] lies on one of the segments of the path [cs]. *)
Definition on_path (p : Coordinate) (cs : list Coordinate) : Prop :=
  exists (i : nat) (a b : Coordinate) (t : R),
    nth_error cs i = Some a /\ nth_error cs (S i) = Some b
    /\ 0 <= t <= 1 /\ p = TS.pointAlong (mkSegment a b) t.

(** Modelled from the spec: the point sets of the region operations of the
    kernel module [ts]; a line buffer of width [w] is the region within
    [w / 2] of the line, a point buffer is a disk, the boundary is the
    outline of a region, a difference is the first figure minus the
    others. *)
Fixpoint covers (g : Geometry) (p : Coordinate) {struct g} : Prop :=
  match g with
  | Point c => p = c
  | LineString cs => on_path p cs
  | LineBuffer g' w =>
      0 <= w /\ exists q, covers g' q /\ dist2 p q <= (w / 2) * (w / 2)
  | PointBuffer c r => 0 <= r /\ dist2 p c <= r * r
  | Boundary g' =>
      forall eps : R, 0 < eps ->
        (exists q, covers g' q /\ dist2 p q < eps * eps)
        /\ (exists q, ~ covers g' q /\ dist2 p q < eps * eps)
  | Difference gs =>
      match gs with
      | [] => False
      | g0 :: holes =>
          covers g0 p
          /\ (fix outside (l : list Geometry) : Prop :=
                match l with
                | [] => True
                | h :: l' => ~ covers h p /\ outside l'
                end) holes
      end
  | Collect gs =>
      (fix inside (l : list Geometry) : Prop :=
         match l with
         | [] => False
         | h :: l' => covers h p \/ inside l'
         end) gs
  end.

(** The number of segments of a path. *)
Definition segments (cs : list Coordinate) : Z := Z.of_nat (length cs) - 1.

(** ** Scenario A: the line (0,0) -> (100,0), width 10, resolution 1 *)

Definition lineA : list Coordinate := [mkCoordinate 0 0; mkCoordinate 100 0].

Definition dashedA : Geometry :=
  Difference
    [ Boundary (LineBuffer (LineString lineA) (10 / 2));
      PointBuffer (mkCoordinate 0 0) (10 / 2);
      PointBuffer (mkCoordinate 100 0) (10 / 2) ].

Definition connectorA : list Coordinate :=
  [mkCoordinate 46 (20 / 3); mkCoordinate 54 0].

Definition bufferA : Geometry := LineBuffer (LineString lineA) (10 / 2).

(** ** Scenario B: the line (0,0) -> (10,0), width 4 *)

Definition lineB : list Coordinate := [mkCoordinate 0 0; mkCoordinate 10 0].

Definition marksB : list Coordinate :=
  [ mkCoordinate 0 (3 / 2); mkCoordinate 0 (- (3 / 2));
    mkCoordinate 10 (3 / 2); mkCoordinate 10 (- (3 / 2));
    mkCoordinate 10 2; mkCoordinate 10 (- 2) ].

Definition strokesB (openArrow : R -> R -> Coordinate -> Geometry)
  (resolution : R) : Geometry :=
  Collect
    [ LineString lineB;
      LineString [mkCoordinate 0 (3 / 2); mkCoordinate 10 (3 / 2)];
      LineString [mkCoordinate 0 (- (3 / 2)); mkCoordinate 10 (- (3 / 2))];
      LineString [mkCoordinate 10 2; mkCoordinate 10 (- 2)];
      openArrow resolution 0 (mkCoordinate 10 (3 / 2));
      openArrow resolution 0 (mkCoordinate 10 0);
      openArrow resolution 0 (mkCoordinate 10 (- (3 / 2))) ].

Definition labelB : TextOptions := {| text := "C"; flip := true; rotation := PI |}.

(** ** A base line of three coordinates *)

Definition line3 : list Coordinate :=
  [mkCoordinate 0 0; mkCoordinate 5 0; mkCoordinate 10 0].

(** ** Search queries: [store/MiniSearch.js] *)

(** A string of the program is the sequence of its UTF-16 code units:
    [length] counts code units, and [split], [startsWith] and
    [substring] work on them. *)
Definition code_unit : Type := N.

Definition jsstring : Type := list code_unit.

(** The code unit of an ASCII character. *)
Definition code (c : ascii) : code_unit := N_of_ascii c.

(** The string of a literal of ASCII characters, each of which is one
    code unit. *)
Definition js (literal : string) : jsstring :=
  map code (list_ascii_of_string literal).

Module MiniSearch.

(** [String.prototype.split] with a separator of one code unit. *)
Fixpoint split (sep : code_unit) (s : jsstring) : list jsstring :=
  match s with
  | [] => [[]]
  | c :: s' =>
      if N.eqb c sep then [] :: split sep s'
      else match split sep s' with
           | t :: ts => (c :: t) :: ts
           | [] => [[c]]
           end
  end.

(** [Array.prototype.join] with a separator of one code unit. *)
Fixpoint join (sep : code_unit) (l : list jsstring) : jsstring :=
  match l with
  | [] => []
  | [t] => t
  | t :: l' => t ++ sep :: join sep l'
  end.

(** [s.startsWith(searchString)]. *)
Fixpoint startsWith (s searchString : jsstring) {struct searchString}
  : bool :=
  match searchString with
  | [] => true
  | a :: rest =>
      match s with
      | b :: s' => N.eqb b a && startsWith s' rest
      | [] => false
      end
  end.

(** [token.substring(1)]. *)
Definition substring1 (token : jsstring) : jsstring :=
  match token with
  | _ :: t => t
  | [] => []
  end.

(** The truth value of a string: it is not empty. *)
Definition truthy (token : jsstring) : bool :=
  match token with
  | [] => false
  | _ :: _ => true
  end.

Record Parts : Type := mkParts {
  scope : list jsstring;
  text : list jsstring;
  tags : list jsstring;
  ids : list jsstring
}.

(** The reducer of [parseQuery]. *)
Definition classify (acc : Parts) (token : jsstring) : Parts :=
  if startsWith token [code "@"] then
    if (2 <? List.length token)%nat
    then mkParts (scope acc ++ [substring1 token]) (text acc) (tags acc) (ids acc)
    else acc
  else if startsWith token [code "#"] then
    if (2 <? List.length token)%nat
    then mkParts (scope acc) (text acc) (tags acc ++ [substring1 token]) (ids acc)
    else acc
  else if startsWith token [code "!"] then
    if (2 <? List.length token)%nat
    then mkParts (scope acc) (text acc) (tags acc) (ids acc ++ [substring1 token])
    else acc
  else if truthy token then
    mkParts (scope acc) (text acc ++ [token]) (tags acc) (ids acc)
  else acc.

(** [(s || '').split(' ')]. *)
Definition tokens (s : option jsstring) : list jsstring :=
  split (code " ") (match s with
                    | Some t => t
                    | None => []
                    end).

Definition parts (s : option jsstring) : Parts :=
  fold_left classify (tokens s) (mkParts [] [] [] []).

Record SubQuery : Type := mkSubQuery {
  fields : list string;
  combineWith : string;
  queries : list jsstring;
  prefix : option bool
}.

(** The top-level query object [{ combineWith, queries }]. *)
Record Query : Type := mkQuery {
  query_combineWith : string;
  query_queries : list SubQuery
}.

(** [parts[field]]. *)
Definition part (p : Parts) (field : string)
  : option (list jsstring) :=
  if String.eqb field "scope" then Some (scope p)
  else if String.eqb field "text" then Some (text p)
  else if String.eqb field "tags" then Some (tags p)
  else if String.eqb field "ids" then Some (ids p)
  else None.

(** The local function [add] of [parseQuery], on the list
    [query.queries]. *)
Definition add (p : Parts) (field combine : string) (pre : option bool)
  (qs : list SubQuery) : list SubQuery :=
  match part p field with
  | None => qs
  | Some [] => qs
  | Some terms => qs ++ [mkSubQuery [field] combine terms pre]
  end.

(** [result => parts.ids.some(id => result.id.startsWith(id))], on the
    [id] of the result. *)
Definition filter_ids (p : Parts) (result_id : jsstring) : bool :=
  existsb (fun id => startsWith result_id id) (ids p).

(** [parseQuery]; the array [[query]] is [(query, None)] and the array
    [[query, { filter }]] is [(query, Some filter)]. *)
Definition parseQuery (s : option jsstring)
  : Query * option (jsstring -> bool) :=
  let p := parts s in
  let qs := add p "tags" "AND" (Some true)
              (add p "text" "AND" (Some true)
                 (add p "scope" "OR" None [])) in
  let query := mkQuery "AND" qs in
  match ids p with
  | [] => (query, None)
  | _ :: _ => (query, Some (filter_ids p))
  end.

(** The values a document field can hold: [undefined], [null], a string,
    or an array of such values. *)
Inductive Value : Type :=
| VUndefined
| VNull
| VString (s : jsstring)
| VArray (items : list Value).

(** The truth value of a field value: [undefined], [null] and the empty
    string are falsy, an array is truthy. *)
Definition truthy_value (v : Value) : bool :=
  match v with
  | VUndefined => false
  | VNull => false
  | VString s => truthy s
  | VArray _ => true
  end.

(** [Array.prototype.flat], one level deep. *)
Definition flat (items : list Value) : list Value :=
  flat_map (fun v => match v with
                     | VArray inner => inner
                     | _ => [v]
                     end) items.

(** The string an element contributes to [Array.prototype.join]:
    [undefined] and [null] give the empty string, an array its elements
    joined by commas. *)
Fixpoint item_string (v : Value) : jsstring :=
  match v with
  | VUndefined => []
  | VNull => []
  | VString s => s
  | VArray items =>
      (fix commas (l : list Value) : jsstring :=
         match l with
         | [] => []
         | [a] => item_string a
         | a :: l' => item_string a ++ code "," :: commas l'
         end) items
  end.

(** The option [extractField] of the index; a document is the map of its
    fields, and calling [flat] on a string is a [TypeError]. *)
Definition extractField (document : gmap string Value) (fieldName : string)
  : result Value :=
  let value := match document !! fieldName with
               | Some v => v
               | None => VUndefined
               end in
  if truthy_value value && String.eqb fieldName "tags" then
    match value with
    | VArray items =>
        Ok (VString (join (code " ") (map item_string
                                 (List.filter truthy_value (flat items)))))
    | _ => Err TypeError
    end
  else Ok value.

End MiniSearch.

(** A token that begins with the marker [c] and is kept. *)
Definition marked (c : ascii) (token : jsstring) : bool :=
  MiniSearch.startsWith token [code c] && (2 <? List.length token)%nat.

(** A token that is a word of the text. *)
Definition plain (token : jsstring) : bool :=
  negb (MiniSearch.startsWith token [code "@"])
  && negb (MiniSearch.startsWith token [code "#"])
  && negb (MiniSearch.startsWith token [code "!"])
  && MiniSearch.truthy token.

Definition has_char (c : ascii) (s : jsstring) : Prop := In (code c) s.

(** The sub-query of a group of terms: none when the group is empty. *)
Definition group (field combine : string) (pre : option bool)
  (terms : list jsstring) : list MiniSearch.SubQuery :=
  match terms with
  | [] => []
  | _ :: _ => [MiniSearch.mkSubQuery [field] combine terms pre]
  end.

Definition scope_terms (s : option jsstring) : list jsstring :=
  map MiniSearch.substring1 (List.filter (marked "@") (MiniSearch.tokens s)).

Definition text_terms (s : option jsstring) : list jsstring :=
  List.filter plain (MiniSearch.tokens s).

Definition tag_terms (s : option jsstring) : list jsstring :=
  map MiniSearch.substring1 (List.filter (marked "#") (MiniSearch.tokens s)).

Definition id_terms (s : option jsstring) : list jsstring :=
  map MiniSearch.substring1 (List.filter (marked "!") (MiniSearch.tokens s)).

Definition append_parts (p q : MiniSearch.Parts) : MiniSearch.Parts :=
  MiniSearch.mkParts
    (MiniSearch.scope p ++ MiniSearch.scope q)
    (MiniSearch.text p ++ MiniSearch.text q)
    (MiniSearch.tags p ++ MiniSearch.tags q)
    (MiniSearch.ids p ++ MiniSearch.ids q).

(** The non-empty strings of a value that is no array. *)
Definition tag_of (v : MiniSearch.Value) : list jsstring :=
  match v with
  | MiniSearch.VString s => if MiniSearch.truthy s then [s] else []
  | _ => []
  end.

(** The non-empty strings of a list of tags and lists of tags, in their
    order. *)
Definition tag_strings (items : list MiniSearch.Value)
  : list jsstring :=
  flat_map (fun v => match v with
                     | MiniSearch.VArray inner => flat_map tag_of inner
                     | _ => tag_of v
                     end) items.

Definition is_array (v : MiniSearch.Value) : bool :=
  match v with
  | MiniSearch.VArray _ => true
  | _ => false
  end.

(** Tags nested at most one level deep. *)
Definition shallow (items : list MiniSearch.Value) : Prop :=
  Forall (fun v => match v with
                   | MiniSearch.VArray inner =>
                       Forall (fun u => is_array u = false) inner
                   | _ => True
                   end) items.

(** ** Project list: the component [ProjectList] and [components/projectlist/ProjectListItem.js] *)

(** [array.includes(s)] on an array of strings. *)
Definition includes (l : list string) (s : string) : bool :=
  existsb (String.eqb s) l.

Module ProjectList.

Record Project : Type := mkProject {
  id : string;
  name : string;
  description : option string;
  lastAccess : string;
  tags : option (list string)
}.

(** What [fetch] hands to [dispatch]. *)
Inductive Action : Type :=
| Entries (entries : list Project) (candidateId : option string)
| Select (selected : string).

(** [{ ...project, ...{ tags: ['INVITED'] } }]. *)
Definition invite (project : Project) : Project :=
  mkProject (id project) (name project) (description project)
    (lastAccess project) (Some ["INVITED"%string]).

(** The list [invitedProjects] of [fetch]. *)
Definition invitedProjects (projects sharedProjects ephemeralProjects : list Project)
  : list Project :=
  let localProjectIds := map id projects in
  map invite
    (List.filter (fun project => negb (includes localProjectIds (id project)))
       (sharedProjects ++ ephemeralProjects)).

(** The list [allProjects] of [fetch]. *)
Definition allProjects (projects sharedProjects ephemeralProjects : list Project)
  : list Project :=
  projects ++ invitedProjects projects sharedProjects ephemeralProjects.

(** The body of [fetch], given what the store returned for the current
    filter and, when there is a replication, what it returned for the
    invitations; a [projectId] that is missing, [null] or empty is
    [None]. *)
Definition fetch (projects : list Project) (replication : option (list Project))
  (projectId : option string) (ephemeralProjects : list Project) : list Action :=
  let sharedProjects := match replication with
                        | Some invited => invited
                        | None => []
                        end in
  Entries (allProjects projects sharedProjects ephemeralProjects) projectId
  :: match projectId with
     | Some (String c rest) => [Select (String c rest)]
     | _ => []
     end.

End ProjectList.

Module ProjectListItem.

(** The handlers a button of the item can be bound to. *)
Inductive Handler : Type :=
| send (message : string)
| handleJoin
| handleShare
| setManagedProject
| handleResetCollab
| handleDelete.

(** A [CustomButton] of the button bar. *)
Record Button : Type := mkButton {
  text : string;
  onClick : Handler;
  disabled : bool;
  danger : bool
}.

(** [project.tags ? project.tags.includes(tag) : false]. *)
Definition tagged (project : ProjectList.Project) (tag : string) : bool :=
  match ProjectList.tags project with
  | Some tags => includes tags tag
  | None => false
  end.

(** The children of the [ButtonBar] of an item, in their order;
    [replication] tells whether there is a replication. *)
Definition buttons (project : ProjectList.Project)
  (replication offline linkLost : bool) : list Button :=
  let isOpen := tagged project "OPEN" in
  let isInvited := tagged project "INVITED" in
  let isShared := tagged project "SHARED" in
  [ mkButton "Open" (send "OPEN_PROJECT")
      (isInvited && negb isShared || linkLost) false;
    mkButton "Export" (send "EXPORT_PROJECT") true false ]
  ++ (if replication && isInvited
      then [mkButton "Join" handleJoin offline false] else [])
  ++ (if replication && negb isInvited && negb isShared && negb isOpen
      then [mkButton "Share" handleShare offline false] else [])
  ++ (if replication && isShared
      then [mkButton "Members" setManagedProject false false] else [])
  ++ (if linkLost
      then [mkButton "Reset collaboration settings" handleResetCollab false false]
      else [])
  ++ [mkButton "Delete" handleDelete isOpen true].

End ProjectListItem.

(** ** Toolbar: [components/Toolbar.js] *)

Module Toolbar.

(** The state [properties] after a click on the button bound to
    [toggleProperties(type)]. *)
Definition toggleProperties (type properties : string) : string :=
  if String.eqb properties type then EmptyString else type.

(** The attribute [checked] of the button of [type]. *)
Definition checked (type properties : string) : bool :=
  String.eqb properties type.

End Toolbar.

(** Whether a button with the given text is among the buttons. *)
Definition shown (label : string) (bar : list ProjectListItem.Button) : bool :=
  existsb (fun b => String.eqb (ProjectListItem.text b) label) bar.

(** The three panels of the toolbar. *)
Definition panels : list string :=
  ["properties"%string; "styles"%string; "sharing"%string].

(** ** Measuring: [ol/interaction/measure/style.js] and [index.js] *)

Module Measure.

(** A coordinate of the map library: the array of its components. *)
Definition Coord : Type := list R.

(** The geometries of the map library that a feature can carry. *)
Inductive Geom : Type :=
| Polygon (rings : list (list Coord))
| LineString (coordinates : list Coord)
| Point (coordinate : Coord)
| Circle (center : Coord) (radius : R).

(** [geometry.getType()]. *)
Definition getType (g : Geom) : string :=
  match g with
  | Polygon _ => "Polygon"
  | LineString _ => "LineString"
  | Point _ => "Point"
  | Circle _ _ => "Circle"
  end.

(** The constants [GeometryType.POLYGON] and [GeometryType.LINE_STRING] of
    the module [GeometryType], which is not among the sources: the type
    names of the map library. *)
Definition POLYGON : string := "Polygon".
Definition LINE_STRING : string := "LineString".

Record Fill : Type := mkFill { fill_color : string }.

Record Stroke : Type := mkStroke {
  color : string;
  lineDash : option (list Z);
  width : Z
}.

Record CircleStyle : Type := mkCircleStyle { radius : Z; circle_fill : Fill }.

Record TextStyle : Type := mkTextStyle {
  text : string;
  font : string;
  text_fill : Fill;
  text_stroke : Stroke;
  offsetX : option R;
  offsetY : option R;
  placement : string;
  textAlign : option string;
  overflow : bool;
  textBaseline : string
}.

Record Style : Type := mkStyle {
  geometry : option Geom;
  style_text : option TextStyle;
  stroke : option Stroke;
  image : option CircleStyle
}.

(** [baseStyle]. *)
Definition baseStyle (isSelected : bool) : list Style :=
  [ mkStyle None None
      (Some (mkStroke (if isSelected then "blue" else "red") None 4)) None;
    mkStyle None None (Some (mkStroke "white" (Some [15%Z; 15%Z]) 4)) None;
    mkStyle None None None (Some (mkCircleStyle 4 (mkFill "blue"))) ].

(** The line feed of the label templates. *)
Definition nl : string := String (ascii_of_nat 10) EmptyString.

Section Styles.

(** The functions of the module [tools], which is not among the sources,
    and [getInteriorPoint] of the map library. *)
Variable length angle area : Geom -> string.
Variable radiansAngle : Geom -> R.
Variable getLastSegmentCoordinates : Geom -> list Coord.
Variable getInteriorPoint : list (list Coord) -> Geom.

(** Numbers are doubles, each taken as the real number it stands for (no
    NaN and no infinity).  What is rounded is a parameter: the product
    of two doubles, [Math.cos], [Math.sin] and the constant [Math.PI].
    The absolute value, the division by two and the comparison of doubles
    are exact. *)
Variable times : R -> R -> R.
Variable Math_cos Math_sin : R -> R.
Variable Math_PI : R.

(** The label of a segment of a polygon. *)
Definition polygonSegmentStyle (a b : Coord) : Style :=
  let segment := LineString [a; b] in
  mkStyle (Some segment)
    (Some (mkTextStyle (String.append (length segment) (String.append nl nl))
             "16px sans-serif" (mkFill "black") (mkStroke "white" None 5)
             None None "line" None true "middle"))
    None None.

(** The loop of [polygonStyle] over [i < numberOfSegments], from [i]. *)
Fixpoint polygonSegments (coordinates : list Coord) : list Style :=
  match coordinates with
  | a :: ((b :: _) as rest) => polygonSegmentStyle a b :: polygonSegments rest
  | _ => []
  end.

(** [polygonStyle], on the geometry of the feature; a polygon without a
    ring has no [coordinates], and the other geometries lack the accessors
    used. *)
Definition polygonStyle (g : Geom) : result (list Style) :=
  match g with
  | Polygon (coordinates :: holes) =>
      Ok (polygonSegments coordinates
          ++ [ mkStyle (Some (getInteriorPoint (coordinates :: holes)))
                 (Some (mkTextStyle
                          (String.append (area g) (String.append nl (length g)))
                          "16px sans-serif" (mkFill "black")
                          (mkStroke "white" None 5)
                          None None "point" None true "ideographic"))
                 None None ])
  | _ => Err TypeError
  end.

(** The label of a segment of a line string. *)
Definition linestringSegmentStyle (a b : Coord) : Style :=
  let segment := LineString [a; b] in
  mkStyle (Some segment)
    (Some (mkTextStyle
             (String.append (length segment)
                (String.append nl (String.append nl (angle segment))))
             "16px sans-serif" (mkFill "black") (mkStroke "white" None 5)
             None None "line" None true "middle"))
    None None.

(** [geometry.forEachSegment] with the callback of [linestringStyle]. *)
Fixpoint linestringSegments (coordinates : list Coord) : list Style :=
  match coordinates with
  | a :: ((b :: _) as rest) => linestringSegmentStyle a b :: linestringSegments rest
  | _ => []
  end.

(** [geometry.getFirstCoordinate()] and [geometry.getLastCoordinate()]; a
    line string without coordinates gives the empty array. *)
Definition getFirstCoordinate (coordinates : list Coord) : Coord :=
  match coordinates with
  | c :: _ => c
  | [] => []
  end.

Definition getLastCoordinate (coordinates : list Coord) : Coord :=
  List.last coordinates [].

(** The style of the last point of a line string. *)
Definition lastPointStyle (g : Geom) (coordinates : list Coord) : Style :=
  let lastSegment := LineString (getLastSegmentCoordinates g) in
  let alpha := radiansAngle lastSegment in
  mkStyle (Some (Point (getLastCoordinate coordinates)))
    (Some (mkTextStyle (length g)
             "16px sans-serif" (mkFill "black") (mkStroke "white" None 5)
             (Some (times 25 (Math_cos alpha)))
             (Some (times (-25) (Math_sin alpha)))
             "point"
             (Some (if Rlt_dec (Rabs alpha) (Math_PI / 2) then "left"%string
                    else "right"%string))
             true "ideographic"))
    None (Some (mkCircleStyle 6 (mkFill "red"))).

(** [linestringStyle], on the geometry of the feature. *)
Definition linestringStyle (g : Geom) : result (list Style) :=
  match g with
  | LineString coordinates =>
      Ok (linestringSegments coordinates
          ++ [ mkStyle (Some (Point (getFirstCoordinate coordinates))) None None
                 (Some (mkCircleStyle 6 (mkFill "green")));
               lastPointStyle g coordinates ])
  | _ => Err TypeError
  end.

(** [stylefunctionForGeometryType(geometryType, isSelected)(feature)], on
    the geometry of the feature; [None] is [undefined]. *)
Definition stylefunctionForGeometryType (geometryType : string)
  (isSelected : bool) (g : Geom) : result (option (list Style)) :=
  let styles := baseStyle isSelected in
  if String.eqb geometryType POLYGON then
    let* labels := polygonStyle g in Ok (Some (styles ++ labels))
  else if String.eqb geometryType LINE_STRING then
    let* labels := linestringStyle g in Ok (Some (styles ++ labels))
  else Ok None.

(** [stylist(isSelected)(feature)]. *)
Definition stylist (isSelected : bool) (g : Geom)
  : result (option (list Style)) :=
  stylefunctionForGeometryType (getType g) isSelected g.

End Styles.

(** The interactions of a map: those of this module and any others. *)
Inductive Interaction : Type :=
| Modify
| Select
| Draw (n : nat)
| Other (name : string).

Definition Interaction_eqb (i j : Interaction) : bool :=
  match i, j with
  | Modify, Modify => true
  | Select, Select => true
  | Draw n, Draw m => Nat.eqb n m
  | Other a, Other b => String.eqb a b
  | _, _ => false
  end.

(** [map.removeInteraction]: the collection drops the first occurrence. *)
Fixpoint removeInteraction (i : Interaction) (l : list Interaction)
  : list Interaction :=
  match l with
  | [] => []
  | j :: l' => if Interaction_eqb i j then l' else j :: removeInteraction i l'
  end.

(** The interactions on the map, the variable [currentDrawInteraction]
    and the number of draw interactions created so far. *)
Record State : Type := mkState {
  interactions : list Interaction;
  currentDrawInteraction : option nat;
  created : nat
}.

(** The state once the module is set up on a map that carries the
    interactions [existing]. *)
Definition initial (existing : list Interaction) : State :=
  mkState (existing ++ [Modify; Select]) None 0.

(** [addDrawInteraction], the handler of [MAP_MEASURE_LENGTH]. *)
Definition addDrawInteraction (s : State) : State :=
  let s1 :=
    match currentDrawInteraction s with
    | Some d =>
        if existsb (Interaction_eqb (Draw d)) (interactions s)
        then mkState (removeInteraction (Draw d) (interactions s)) None (created s)
        else s
    | None => s
    end in
  mkState (interactions s1 ++ [Draw (created s1)]) (Some (created s1))
    (S (created s1)).

(** The handler of [drawend] of the draw interaction [d], as far as the
    interactions go. *)
Definition drawend (d : nat) (s : State) : State :=
  mkState (removeInteraction (Draw d) (interactions s)) None (created s).

(** The states the handlers lead to; a draw interaction signals the end
    of a drawing only while it is on the map. *)
Inductive reachable (existing : list Interaction) : State -> Prop :=
| reach_initial : reachable existing (initial existing)
| reach_measure (s : State) :
    reachable existing s -> reachable existing (addDrawInteraction s)
| reach_drawend (s : State) (d : nat) :
    reachable existing s -> In (Draw d) (interactions s) ->
    reachable existing (drawend d s).

End Measure.

(** The draw interactions among the interactions of a map. *)
Definition draws (l : list Measure.Interaction) : list nat :=
  flat_map (fun i => match i with
                     | Measure.Draw n => [n]
                     | _ => []
                     end) l.

(** The interactions of a map that are no draw interactions. *)
Definition others (l : list Measure.Interaction) : list Measure.Interaction :=
  List.filter (fun i => match i with
                        | Measure.Draw _ => false
                        | _ => true
                        end) l.

(** The invariant of the handlers. *)
Definition one_draw (existing : list Measure.Interaction) (s : Measure.State)
  : Prop :=
  draws (Measure.interactions s)
  = match Measure.currentDrawInteraction s with
    | Some d => [d]
    | None => []
    end
  /\ others (Measure.interactions s)
     = others existing ++ [Measure.Modify; Measure.Select].

(** ** The zig-zag of the connector *)


(** * Kernel properties *)

Section Atan2.

Lemma atan2_bounds (dy dx : R) : - PI < TS.atan2 dy dx <= PI.
Proof.
  pose proof PI_RGT_0 as Hpi.
  unfold TS.atan2.
  destruct (total_order_T 0 dx) as [[Hx | Hx] | Hx].
  - pose proof (atan_bound (dy / dx)). lra.
  - destruct (total_order_T 0 dy) as [[Hy | Hy] | Hy]; lra.
  - pose proof (atan_bound (dy / dx)) as Hb.
    destruct (Rle_dec 0 dy) as [Hy | Hy].
    + assert (dy / dx <= 0) as Hq.
      { unfold Rdiv. assert (/ dx < 0) by (apply Rinv_lt_0_compat; lra). nra. }
      assert (atan (dy / dx) <= 0) as Ha.
      { destruct Hq as [Hq | Hq].
        - left. rewrite <- atan_0. apply atan_increasing. exact Hq.
        - rewrite Hq, atan_0. lra. }
      lra.
    + assert (0 < dy / dx) as Hq.
      { unfold Rdiv. assert (/ dx < 0) by (apply Rinv_lt_0_compat; lra). nra. }
      assert (0 < atan (dy / dx)) as Ha.
      { rewrite <- atan_0. apply atan_increasing. exact Hq. }
      lra.
Qed.

Lemma atan2_reverse (dy dx : R) :
  dx <> 0 \/ dy <> 0 ->
  TS.atan2 (- dy) (- dx) - TS.atan2 dy dx = PI
  \/ TS.atan2 (- dy) (- dx) - TS.atan2 dy dx = - PI.
Proof.
  intros Hnz. unfold TS.atan2.
  destruct (total_order_T 0 dx) as [[Hx | Hx] | Hx];
    destruct (total_order_T 0 (- dx)) as [[Hx' | Hx'] | Hx']; try lra.
  - replace (- dy / - dx) with (dy / dx) by (field; lra).
    destruct (Rle_dec 0 (- dy)); [left | right]; lra.
  - destruct (total_order_T 0 dy) as [[Hy | Hy] | Hy];
      destruct (total_order_T 0 (- dy)) as [[Hy' | Hy'] | Hy']; try lra.
  - replace (- dy / - dx) with (dy / dx) by (field; lra).
    destruct (Rle_dec 0 dy); [right | left]; lra.
Qed.

Lemma atan2_scale (k dy dx : R) :
  0 < k -> TS.atan2 (k * dy) (k * dx) = TS.atan2 dy dx.
Proof.
  intros Hk. unfold TS.atan2.
  destruct (total_order_T 0 dx) as [[Hx | Hx] | Hx];
    destruct (total_order_T 0 (k * dx)) as [[Hx' | Hx'] | Hx']; try nra.
  - replace (k * dy / (k * dx)) with (dy / dx) by (field; lra). reflexivity.
  - destruct (total_order_T 0 dy) as [[Hy | Hy] | Hy];
      destruct (total_order_T 0 (k * dy)) as [[Hy' | Hy'] | Hy']; try nra;
      reflexivity.
  - replace (k * dy / (k * dx)) with (dy / dx) by (field; lra).
    destruct (Rle_dec 0 dy); destruct (Rle_dec 0 (k * dy)); try nra; reflexivity.
Qed.

End Atan2.

Lemma segment_ok (a b : Coordinate) :
  a <> b -> TS.segment a b = Ok (mkSegment a b).
Proof.
  intros Hab. unfold TS.segment.
  destruct (Coordinate_eq_dec a b); [contradiction | reflexivity].
Qed.

Lemma segment_degenerate (a : Coordinate) :
  TS.segment a a = Err DegenerateGeometry.
Proof.
  unfold TS.segment. destruct (Coordinate_eq_dec a a); [reflexivity | contradiction].
Qed.

Lemma coordinate_neq (a b : Coordinate) :
  a <> b -> x b - x a <> 0 \/ y b - y a <> 0.
Proof.
  intros Hab. destruct a as [ax ay], b as [bx by_]. simpl.
  destruct (Req_dec_T bx ax) as [Hx | Hx]; [| left; lra].
  destruct (Req_dec_T by_ ay) as [Hy | Hy]; [| right; lra].
  subst. contradiction Hab. reflexivity.
Qed.

(** C9: for coordinates [a <> b] the angle of [segment(a, b)] lies in
    (-PI, PI]; the angle of the reversed segment differs from it by PI up
    to a multiple of 2 PI; translating both endpoints by the same vector
    leaves it unchanged; and so does changing the length of the segment
    (moving the end along the ray from the start). *)
Theorem angle_properties (a b : Coordinate) :
  a <> b ->
  let s := mkSegment a b in
  TS.segment a b = Ok s
  /\ TS.segment b a = Ok (mkSegment b a)
  /\ - PI < TS.angle s <= PI
  /\ (exists k : Z, TS.angle (mkSegment b a) - TS.angle s = PI + 2 * IZR k * PI)
  /\ (forall t : Coordinate,
        TS.segment (translate t a) (translate t b)
          = Ok (mkSegment (translate t a) (translate t b))
        /\ TS.angle (mkSegment (translate t a) (translate t b)) = TS.angle s)
  /\ (forall k : R, 0 < k ->
        TS.segment a (TS.pointAlong s k) = Ok (mkSegment a (TS.pointAlong s k))
        /\ TS.angle (mkSegment a (TS.pointAlong s k)) = TS.angle s).
Proof.
  intros Hab s.
  pose proof (coordinate_neq a b Hab) as Hd.
  split; [apply segment_ok; exact Hab |].
  split; [apply segment_ok; congruence |].
  split; [apply atan2_bounds |].
  split.
  - unfold TS.angle, s. simpl.
    replace (y a - y b) with (- (y b - y a)) by ring.
    replace (x a - x b) with (- (x b - x a)) by ring.
    destruct (atan2_reverse (y b - y a) (x b - x a) Hd) as [H | H].
    + exists 0%Z. rewrite H. ring.
    + exists (-1)%Z. rewrite H. ring.
  - split.
    + intros t. split.
      * apply segment_ok. intros H. apply Hab.
        destruct a as [ax ay], b as [bx by_], t as [tx ty].
        unfold translate in H. simpl in H.
        injection H as H1 H2. f_equal; lra.
      * unfold TS.angle, s, translate. simpl. f_equal; ring.
    + intros k Hk. split.
      * apply segment_ok. intros H.
        destruct a as [ax ay], b as [bx by_].
        unfold TS.pointAlong, s in H. simpl in H, Hd.
        injection H as H1 H2. destruct Hd as [Hd | Hd]; nra.
      * unfold TS.angle, TS.pointAlong, s. simpl.
        replace (y a + k * (y b - y a) - y a) with (k * (y b - y a)) by ring.
        replace (x a + k * (x b - x a) - x a) with (k * (x b - x a)) by ring.
        apply atan2_scale. exact Hk.
Qed.

Lemma angle_properties_witness :
  mkCoordinate 0 0 <> mkCoordinate 10 0
  /\ - PI < TS.angle (mkSegment (mkCoordinate 0 0) (mkCoordinate 10 0)) <= PI.
Proof.
  assert (mkCoordinate 0 0 <> mkCoordinate 10 0) as H.
  { intros H. apply (f_equal x) in H. simpl in H. lra. }
  split; [exact H |].
  apply (angle_properties (mkCoordinate 0 0) (mkCoordinate 10 0) H).
Defined.

(** * Projection *)

Lemma perp_is_dir_rotated (angle : R) : TS.perp angle = TS.dir (angle + PI / 2).
Proof.
  unfold TS.perp, TS.dir.
  rewrite cos_plus, sin_plus, cos_PI2, sin_PI2. f_equal; ring.
Qed.

Lemma untranslate_project (t origin : Coordinate) (distance angle : R)
  (offset : R * R) :
  untranslate t (TS.projectCoordinate distance angle (translate t origin) offset)
  = TS.projectCoordinate distance angle origin offset.
Proof.
  destruct offset as [along across].
  unfold untranslate, translate, TS.projectCoordinate. simpl. f_equal; ring.
Qed.

(** C8: [projectCoordinates(distance, angle, origin)(offsets)] returns, for
    each pair of factors, [origin + along * distance * dir(angle)
    + across * distance * perp(angle)] with [dir] the unit vector at
    [angle] and [perp] that vector rotated by +PI/2; translating the
    origin and translating the results back gives the same coordinates. *)
Theorem projectCoordinates_spec (distance angle : R) (origin : Coordinate)
  (offsets : list (R * R)) :
  length (TS.projectCoordinates distance angle origin offsets) = length offsets
  /\ (forall (i : nat) (along across : R),
        nth_error offsets i = Some (along, across) ->
        nth_error (TS.projectCoordinates distance angle origin offsets) i
        = Some (mkCoordinate
                  (x origin + along * distance * cos angle
                            + across * distance * cos (angle + PI / 2))
                  (y origin + along * distance * sin angle
                            + across * distance * sin (angle + PI / 2))))
  /\ (cos angle * cos angle + sin angle * sin angle = 1)
  /\ (forall t : Coordinate,
        map (untranslate t)
          (TS.projectCoordinates distance angle (translate t origin) offsets)
        = TS.projectCoordinates distance angle origin offsets).
Proof.
  unfold TS.projectCoordinates.
  split; [apply length_map |].
  split.
  - intros i along across Hi.
    rewrite nth_error_map, Hi. simpl.
    pose proof (perp_is_dir_rotated angle) as Hp.
    unfold TS.perp, TS.dir in Hp. injection Hp as Hc Hs.
    rewrite <- Hc, <- Hs. reflexivity.
  - split.
    + pose proof (sin2_cos2 angle) as H. unfold Rsqr in H. lra.
    + intros t. rewrite map_map. apply map_ext.
      intros offset. apply untranslate_project.
Qed.

(** * Subdivision *)

Lemma segmentize_ok (s : Segment) (n : Z) :
  (1 <= n)%Z ->
  TS.segmentize s n
  = Ok (map (fun i : nat => TS.pointAlong s (INR i / IZR n))
          (seq 0 (Z.to_nat n + 1))).
Proof.
  intros Hn. unfold TS.segmentize.
  destruct (Z.ltb_spec n 1); [lia | reflexivity].
Qed.

Lemma pointAlong_0 (s : Segment) : TS.pointAlong s 0 = p0 s.
Proof.
  destruct s as [[ax ay] [bx by_]]. unfold TS.pointAlong. simpl. f_equal; ring.
Qed.

Lemma pointAlong_1 (s : Segment) : TS.pointAlong s 1 = p1 s.
Proof.
  destruct s as [[ax ay] [bx by_]]. unfold TS.pointAlong. simpl. f_equal; ring.
Qed.

Lemma INR_to_nat (n : Z) : (0 <= n)%Z -> INR (Z.to_nat n) = IZR n.
Proof. intros Hn. rewrite INR_IZR_INZ, Z2Nat.id by exact Hn. reflexivity. Qed.

(** C7: for [a <> b] and [n >= 1], [segmentize(segment(a, b), n)] returns
    [n + 1] coordinates, the [i]-th at the fraction [i / n] of the way from
    [a] to [b], the first equal to [a] and the last equal to [b]; for
    [n < 1] it fails with [InvalidParameter]. *)
Theorem segmentize_spec (a b : Coordinate) (n : Z) :
  a <> b ->
  exists s : Segment,
    TS.segment a b = Ok s
    /\ ((1 <= n)%Z ->
        exists pts : list Coordinate,
          TS.segmentize s n = Ok pts
          /\ length pts = (Z.to_nat n + 1)%nat
          /\ (forall (i : nat) (d : Coordinate), (i <= Z.to_nat n)%nat ->
                nth i pts d
                = mkCoordinate (x a + INR i / IZR n * (x b - x a))
                               (y a + INR i / IZR n * (y b - y a)))
          /\ hd_error pts = Some a
          /\ List.last pts a = b)
    /\ ((n < 1)%Z -> TS.segmentize s n = Err InvalidParameter).
Proof.
  intros Hab. exists (mkSegment a b).
  split; [apply segment_ok; exact Hab |].
  split.
  - intros Hn.
    eexists. split; [apply segmentize_ok; exact Hn |].
    set (f := fun i : nat => TS.pointAlong (mkSegment a b) (INR i / IZR n)).
    assert (IZR n <> 0) as Hnz.
    { apply not_0_IZR. lia. }
    split; [rewrite length_map, length_seq; reflexivity |].
    split.
    + intros i d Hi.
      rewrite (nth_indep _ d (f 0%nat)) by (rewrite length_map, length_seq; lia).
      rewrite (map_nth f), seq_nth by lia. reflexivity.
    + split.
      * replace (Z.to_nat n + 1)%nat with (S (Z.to_nat n)) by lia.
        simpl. f_equal. unfold f. simpl.
        replace (0 / IZR n) with 0 by (field; exact Hnz).
        apply pointAlong_0.
      * rewrite seq_app, map_app. simpl.
        rewrite last_last. unfold f.
        rewrite INR_to_nat by lia.
        replace (IZR n / IZR n) with 1 by (field; exact Hnz).
        apply pointAlong_1.
  - intros Hn. unfold TS.segmentize.
    destruct (Z.ltb_spec n 1); [reflexivity | lia].
Qed.

Lemma segmentize_spec_witness :
  mkCoordinate 0 0 <> mkCoordinate 10 0
  /\ (1 <= 2)%Z
  /\ exists (s : Segment) (pts : list Coordinate),
       TS.segment (mkCoordinate 0 0) (mkCoordinate 10 0) = Ok s
       /\ TS.segmentize s 2 = Ok pts
       /\ length pts = 3%nat
       /\ List.last pts (mkCoordinate 0 0) = mkCoordinate 10 0.
Proof.
  assert (mkCoordinate 0 0 <> mkCoordinate 10 0) as H.
  { intros H. apply (f_equal x) in H. simpl in H. lra. }
  split; [exact H |].
  split; [lia |].
  destruct (segmentize_spec (mkCoordinate 0 0) (mkCoordinate 10 0) 2 H)
    as (s & Hs & Hok & _).
  destruct Hok as (pts & Hpts & Hlen & _ & _ & Hlast); [lia |].
  exists s, pts. repeat split; assumption.
Defined.

(** * Index filters, zip and flatten *)

Section IndexFilters.

Variable g : nat -> Coordinate.

Lemma even_index_double (c : Coordinate) (i : nat) :
  even_index c (2 * i) = true.
Proof.
  unfold even_index. rewrite Nat.mul_comm, Nat.Div0.mod_mul. reflexivity.
Qed.

Lemma even_index_succ_double (c : Coordinate) (i : nat) :
  even_index c (S (2 * i)) = false.
Proof.
  unfold even_index.
  replace (S (2 * i)) with (1 + i * 2)%nat by lia.
  rewrite Nat.Div0.mod_add. reflexivity.
Qed.

Lemma odd_index_even_index (c : Coordinate) (i : nat) :
  odd_index c i = negb (even_index c i).
Proof. reflexivity. Qed.

Lemma filter_from_even_seq (m : nat) :
  (forall i : nat,
      filter_from even_index (2 * i) (map g (seq (2 * i) m))
      = map (fun k => g (2 * k)%nat) (seq i ((m + 1) / 2)))
  /\ (forall i : nat,
        filter_from even_index (S (2 * i)) (map g (seq (S (2 * i)) m))
        = map (fun k => g (2 * k)%nat) (seq (S i) (m / 2))).
Proof.
  induction m as [| m [IHe IHo]].
  - split; intros i; reflexivity.
  - split; intros i.
    + replace ((S m + 1) / 2)%nat with (S (m / 2)).
      * cbn [seq map filter_from].
        rewrite (even_index_double (g (2 * i)) i).
        rewrite IHo. reflexivity.
      * replace (S m + 1)%nat with (m + 1 * 2)%nat by lia.
        rewrite Nat.div_add by lia. lia.
    + replace (S m / 2)%nat with ((m + 1) / 2)%nat by (f_equal; lia).
      cbn [seq map filter_from].
      rewrite (even_index_succ_double (g (S (2 * i))) i).
      replace (S (S (2 * i))) with (2 * S i)%nat by lia.
      rewrite IHe. reflexivity.
Qed.

Lemma filter_from_odd_seq (m : nat) :
  (forall i : nat,
      filter_from odd_index (2 * i) (map g (seq (2 * i) m))
      = map (fun k => g (S (2 * k))) (seq i (m / 2)))
  /\ (forall i : nat,
        filter_from odd_index (S (2 * i)) (map g (seq (S (2 * i)) m))
        = map (fun k => g (S (2 * k))) (seq i ((m + 1) / 2))).
Proof.
  induction m as [| m [IHe IHo]].
  - split; intros i; reflexivity.
  - split; intros i.
    + replace (S m / 2)%nat with ((m + 1) / 2)%nat by (f_equal; lia).
      cbn [seq map filter_from].
      rewrite odd_index_even_index, (even_index_double (g (2 * i)) i).
      cbn [negb].
      rewrite IHo. reflexivity.
    + replace ((S m + 1) / 2)%nat with (S (m / 2)).
      * cbn [seq map filter_from].
        rewrite odd_index_even_index, (even_index_succ_double (g (S (2 * i))) i).
        cbn [negb].
        replace (S (S (2 * i))) with (2 * S i)%nat by lia.
        rewrite IHe. reflexivity.
      * replace (S m + 1)%nat with (m + 1 * 2)%nat by lia.
        rewrite Nat.div_add by lia. lia.
Qed.

Lemma filter_index_even_seq (m : nat) :
  filter_index even_index (map g (seq 0 m))
  = map (fun k => g (2 * k)%nat) (seq 0 ((m + 1) / 2)).
Proof. exact (proj1 (filter_from_even_seq m) 0%nat). Qed.

Lemma filter_index_odd_seq (m : nat) :
  filter_index odd_index (map g (seq 0 m))
  = map (fun k => g (S (2 * k))) (seq 0 (m / 2)).
Proof. exact (proj1 (filter_from_odd_seq m) 0%nat). Qed.

End IndexFilters.

Lemma zip_map_seq (A B : Type) (f : nat -> A) (h : nat -> B) (i m k : nat) :
  (k <= m)%nat ->
  Ramda.zip (map f (seq i m)) (map h (seq i k))
  = map (fun j => (f j, h j)) (seq i k).
Proof.
  unfold Ramda.zip. revert i m.
  induction k as [| k IH]; intros i m Hk.
  - simpl. destruct (map f (seq i m)); reflexivity.
  - destruct m as [| m]; [lia |].
    simpl. f_equal. apply IH. lia.
Qed.

Lemma flatten_map_seq (A : Type) (f h : nat -> A) (i k : nat) :
  Ramda.flatten (map (fun j => (f j, h j)) (seq i k))
  = flat_map (fun j => [f j; h j]) (seq i k).
Proof.
  unfold Ramda.flatten. revert i.
  induction k as [| k IH]; intros i; [reflexivity |].
  simpl. rewrite IH. reflexivity.
Qed.



(** * FORD DIFFICULT *)

Lemma last_cons_default (A : Type) (a b : A) (rest : list A) :
  List.last (b :: rest) a = List.last rest b.
Proof.
  revert a b. induction rest as [| c rest IH]; intros a b; [reflexivity |].
  change (List.last (b :: c :: rest) a) with (List.last (c :: rest) a).
  rewrite (IH a c), (IH b c). reflexivity.
Qed.

Lemma ford_n_width (width resolution : R) :
  (1 <= ford_n width resolution)%Z -> width <> 0.
Proof.
  unfold ford_n. intros Hn Hw.
  pose proof (Zfloor_bound (width / resolution / 5)) as [Hlo _].
  apply IZR_le in Hn.
  assert (width / resolution / 5 = 0) as H0.
  { subst width. unfold Rdiv. ring. }
  lra.
Qed.

Lemma ford_n_resolution (width resolution : R) :
  (1 <= ford_n width resolution)%Z -> resolution <> 0.
Proof.
  unfold ford_n. intros Hn Hr.
  pose proof (Zfloor_bound (width / resolution / 5)) as [Hlo _].
  apply IZR_le in Hn.
  assert (width / resolution / 5 = 0) as H0.
  { subst resolution. unfold Rdiv. rewrite Rinv_0. ring. }
  lra.
Qed.

Lemma ford_corner_sides (s : Segment) (width resolution along : R) :
  width <> 0 ->
  ford_corner s width resolution 1 along
  <> ford_corner s width resolution (-1) along.
Proof.
  intros Hw H.
  pose proof (sin2_cos2 (TS.angle s)) as Hu. unfold Rsqr in Hu.
  assert (width / 1.5 <> 0) as Hd by (intros Hd; apply Hw; lra).
  unfold ford_corner, TS.projectCoordinate, TS.dir, TS.perp in H.
  simpl in H. injection H as Hx Hy.
  assert (width / 1.5 * sin (TS.angle s) = 0) as Hs by lra.
  assert (width / 1.5 * cos (TS.angle s) = 0) as Hc by lra.
  apply Rmult_integral in Hs. apply Rmult_integral in Hc.
  destruct Hs as [Hs | Hs]; [contradiction |].
  destruct Hc as [Hc | Hc]; [contradiction |].
  rewrite Hs, Hc in Hu. lra.
Qed.

(** What the generator returns on a base line whose first and last
    coordinate differ, when the subdivision count is at least one. *)
Lemma G_M_BCD_ok (P : Type) (ctx : styles.context P) (a b : Coordinate)
  (rest : list Coordinate) (width resolution : R) :
  a <> List.last rest b ->
  (1 <= ford_n width resolution)%Z ->
  G_M_BCD ctx (a :: b :: rest) width resolution
  = Ok [ styles.dashedStroke ctx (Difference
           [ Boundary (LineBuffer (LineString (a :: b :: rest)) (width / 2));
             PointBuffer a (width / 2);
             PointBuffer (List.last rest b) (width / 2) ]);
         styles.solidStroke ctx (LineString
           (ford_connector (mkSegment a (List.last rest b)) width resolution)) ].
Proof.
  intros Hab Hn.
  pose proof (ford_n_width width resolution Hn) as Hw.
  unfold G_M_BCD, TS.coordinates, TS.segment_of.
  rewrite (segment_ok a (List.last rest b) Hab). cbn [bind].
  set (s := mkSegment a (List.last rest b)).
  cbn [TS.projectCoordinates map app].
  fold (ford_corner s width resolution 1 (-1)).
  fold (ford_corner s width resolution 1 1).
  fold (ford_corner s width resolution (-1) (-1)).
  fold (ford_corner s width resolution (-1) 1).
  fold (ford_n width resolution).
  rewrite (segment_ok _ _ (ford_corner_sides s width resolution (-1) Hw)).
  cbn [bind]. rewrite (segmentize_ok _ _ Hn). cbn [bind].
  rewrite (segment_ok _ _ (ford_corner_sides s width resolution 1 Hw)).
  cbn [bind]. rewrite (segmentize_ok _ _ Hn). cbn [bind].
  cbn [TS.startPoint TS.endPoint bind].
  rewrite last_cons_default.
  unfold TS.difference, TS.boundary, TS.lineBuffer, TS.pointBuffer, TS.lineString.
  rewrite filter_index_even_seq, filter_index_odd_seq.
  rewrite zip_map_seq, flatten_map_seq.
  - reflexivity.
  - apply Nat.Div0.div_le_mono. lia.
Qed.

(** ** Scenario A: the line (0,0) -> (100,0), width 10, resolution 1 *)

Lemma atan2_east (dx : R) : 0 < dx -> TS.atan2 0 dx = 0.
Proof.
  intros Hdx. unfold TS.atan2.
  destruct (total_order_T 0 dx) as [[H | H] | H]; try lra.
  replace (0 / dx) with 0 by (field; lra). apply atan_0.
Qed.

Lemma angle_east (x0 x1 y0 : R) :
  x0 < x1 ->
  TS.angle (mkSegment (mkCoordinate x0 y0) (mkCoordinate x1 y0)) = 0.
Proof.
  intros H. unfold TS.angle. simpl.
  replace (y0 - y0) with 0 by ring. apply atan2_east. lra.
Qed.

Lemma ford_n_A : ford_n 10 1 = 2%Z.
Proof. unfold ford_n. apply Zfloor_eq. lra. Qed.

Lemma ford_connector_A :
  ford_connector (mkSegment (mkCoordinate 0 0) (mkCoordinate 100 0)) 10 1
  = connectorA.
Proof.
  unfold ford_connector. rewrite ford_n_A.
  change ((Z.to_nat 2 + 1) / 2)%nat with 1%nat.
  cbn [seq flat_map app].
  unfold TS.pointAlong, ford_corner, TS.projectCoordinate, TS.dir, TS.perp,
    TS.midPoint.
  rewrite angle_east by lra. rewrite cos_0, sin_0.
  unfold connectorA. simpl. repeat f_equal; lra.
Qed.

Lemma G_M_BCD_A (P : Type) (ctx : styles.context P) :
  G_M_BCD ctx lineA 10 1
  = Ok [ styles.dashedStroke ctx dashedA;
         styles.solidStroke ctx (LineString connectorA) ].
Proof.
  unfold lineA.
  rewrite G_M_BCD_ok.
  - simpl List.last. rewrite ford_connector_A. reflexivity.
  - simpl. intros H. apply (f_equal x) in H. simpl in H. lra.
  - rewrite ford_n_A. lia.
Qed.

Lemma on_path_lineA (q : Coordinate) :
  on_path q lineA <-> exists t : R, 0 <= t <= 1 /\ q = mkCoordinate (100 * t) 0.
Proof.
  split.
  - intros (i & a & b & t & Ha & Hb & Ht & Hq).
    destruct i as [| [| i]]; simpl in Ha, Hb; try discriminate.
    injection Ha as <-. injection Hb as <-.
    exists t. split; [exact Ht |].
    rewrite Hq. unfold TS.pointAlong. simpl. f_equal; ring.
  - intros (t & Ht & Hq).
    exists 0%nat, (mkCoordinate 0 0), (mkCoordinate 100 0), t.
    repeat split; try reflexivity; try apply Ht.
    rewrite Hq. unfold TS.pointAlong. simpl. f_equal; ring.
Qed.

Lemma covers_bufferA (p : Coordinate) :
  covers bufferA p
  <-> exists t : R,
        0 <= t <= 1
        /\ (x p - 100 * t) * (x p - 100 * t) + y p * y p <= 25 / 4.
Proof.
  unfold bufferA. simpl. split.
  - intros (_ & q & Hq & Hd).
    apply on_path_lineA in Hq. destruct Hq as (t & Ht & ->).
    exists t. split; [exact Ht |]. unfold dist2 in Hd. simpl in Hd. lra.
  - intros (t & Ht & Hd). split; [lra |].
    exists (mkCoordinate (100 * t) 0). split.
    + apply on_path_lineA. exists t. split; [exact Ht | reflexivity].
    + unfold dist2. simpl. lra.
Qed.

(** A point of the buffer from which the buffer is left by moving along
    the vector [(ux, uy)] lies on the outline. *)
Lemma boundary_bufferA (p : Coordinate) (ux uy : R) :
  covers bufferA p ->
  ux * ux + uy * uy = 1 ->
  (forall k : R, 0 < k ->
     ~ covers bufferA (mkCoordinate (x p + k * ux) (y p + k * uy))) ->
  covers (Boundary bufferA) p.
Proof.
  intros Hin Hu Hout. change (covers (Boundary bufferA) p) with
    (forall eps : R, 0 < eps ->
       (exists q, covers bufferA q /\ dist2 p q < eps * eps)
       /\ (exists q, ~ covers bufferA q /\ dist2 p q < eps * eps)).
  intros eps Heps. split.
  - exists p. split; [exact Hin |]. unfold dist2. nra.
  - exists (mkCoordinate (x p + eps / 2 * ux) (y p + eps / 2 * uy)).
    split; [apply Hout; lra |].
    unfold dist2. simpl.
    replace ((x p - (x p + eps / 2 * ux)) * (x p - (x p + eps / 2 * ux))
             + (y p - (y p + eps / 2 * uy)) * (y p - (y p + eps / 2 * uy)))
      with (eps * eps / 4 * (ux * ux + uy * uy)) by field.
    rewrite Hu. nra.
Qed.

Lemma outlineA_cap_start : covers (Boundary bufferA) (mkCoordinate (- (5 / 2)) 0).
Proof.
  apply (boundary_bufferA _ (-1) 0).
  - apply covers_bufferA. exists 0. simpl. split; lra.
  - ring.
  - intros k Hk H. apply covers_bufferA in H.
    destruct H as (t & Ht & Hd). simpl in Hd. nra.
Qed.

Lemma outlineA_cap_end : covers (Boundary bufferA) (mkCoordinate (100 + 5 / 2) 0).
Proof.
  apply (boundary_bufferA _ 1 0).
  - apply covers_bufferA. exists 1. simpl. split; lra.
  - ring.
  - intros k Hk H. apply covers_bufferA in H.
    destruct H as (t & Ht & Hd). simpl in Hd. nra.
Qed.

Lemma outlineA_side (side : R) :
  side = 1 \/ side = -1 ->
  covers (Boundary bufferA) (mkCoordinate 50 (side * (5 / 2))).
Proof.
  intros Hside. apply (boundary_bufferA _ 0 side).
  - apply covers_bufferA. exists (1 / 2). simpl. split; [lra |].
    destruct Hside as [-> | ->]; lra.
  - destruct Hside as [-> | ->]; ring.
  - intros k Hk H. apply covers_bufferA in H.
    destruct H as (t & Ht & Hd). simpl in Hd.
    pose proof (Rle_0_sqr (50 + k * 0 - 100 * t)) as Hsq. unfold Rsqr in Hsq.
    assert (0 < k * k) by nra.
    destruct Hside as [-> | ->]; lra.
Qed.

Lemma covers_dashedA (p : Coordinate) :
  covers dashedA p
  <-> covers (Boundary bufferA) p
      /\ 25 < dist2 p (mkCoordinate 0 0)
      /\ 25 < dist2 p (mkCoordinate 100 0).
Proof.
  unfold dashedA. fold bufferA.
  change (covers (Difference
            [Boundary bufferA; PointBuffer (mkCoordinate 0 0) (10 / 2);
             PointBuffer (mkCoordinate 100 0) (10 / 2)]) p)
    with (covers (Boundary bufferA) p
          /\ ~ (0 <= 10 / 2 /\ dist2 p (mkCoordinate 0 0) <= 10 / 2 * (10 / 2))
          /\ ~ (0 <= 10 / 2 /\ dist2 p (mkCoordinate 100 0) <= 10 / 2 * (10 / 2))
          /\ True).
  split.
  - intros (Hb & H0 & H1 & _). split; [exact Hb |].
    split; apply Rnot_le_lt; intros H; [apply H0 | apply H1]; split; lra.
  - intros (Hb & H0 & H1). split; [exact Hb |].
    split; [| split; [| exact I]]; intros [_ H]; lra.
Qed.

Lemma connectorA_misses_midpoint : ~ on_path (mkCoordinate 50 0) connectorA.
Proof.
  intros (i & a & b & t & Ha & Hb & Ht & Hq).
  destruct i as [| [| i]]; simpl in Ha, Hb; try discriminate.
  injection Ha as <-. injection Hb as <-.
  unfold TS.pointAlong in Hq. simpl in Hq. injection Hq as Hx Hy. lra.
Qed.

Lemma connectorA_crossing : on_path (mkCoordinate 50 (10 / 3)) connectorA.
Proof.
  exists 0%nat, (mkCoordinate 46 (20 / 3)), (mkCoordinate 54 0), (1 / 2).
  repeat split; try reflexivity; try lra.
  unfold TS.pointAlong. simpl. f_equal; lra.
Qed.

(** C1, as stated, fails on scenario A: the connector the generator
    returns has one segment, not [floor(10/1/5) = 2], and does not pass
    through the midpoint (50,0). *)
Lemma scenarioA_counterexample :
  G_M_BCD drawable lineA 10 1
  = Ok [Stroke dashedA true; Stroke (LineString connectorA) false]
  /\ segments connectorA <> Zfloor (10 / 1 / 5)
  /\ ~ on_path (mkCoordinate 50 0) connectorA.
Proof.
  split; [apply (G_M_BCD_A Primitive drawable) |].
  split; [| exact connectorA_misses_midpoint].
  fold (ford_n 10 1). rewrite ford_n_A. unfold segments, connectorA. simpl. lia.
Qed.

(** C1 (amended): on the line (0,0) -> (100,0) with width 10 and
    resolution 1 the generator returns the dashed stroke of the outline of
    the line buffer of width [10 / 2] minus the two disks of radius
    [10 / 2] about the endpoints, followed by the solid stroke of the
    connector [(46, 20/3); (54, 0)] built with [floor(10/1/5) = 2]
    subdivisions: one segment, which meets the perpendicular through the
    midpoint at (50, 10/3).  The outline has a gap at each endpoint: its
    points beyond either end are removed, no point of the dashed figure is
    within 5 of an endpoint, and both long sides remain. *)
Theorem scenarioA (P : Type) (ctx : styles.context P) :
  G_M_BCD ctx lineA 10 1
  = Ok [ styles.dashedStroke ctx (Difference
           [ Boundary (LineBuffer (LineString lineA) (10 / 2));
             PointBuffer (mkCoordinate 0 0) (10 / 2);
             PointBuffer (mkCoordinate 100 0) (10 / 2) ]);
         styles.solidStroke ctx
           (LineString [mkCoordinate 46 (20 / 3); mkCoordinate 54 0]) ]
  /\ ford_n 10 1 = 2%Z
  /\ segments connectorA = 1%Z
  /\ on_path (mkCoordinate 50 (10 / 3)) connectorA
  /\ (covers (Boundary bufferA) (mkCoordinate (- (5 / 2)) 0)
      /\ ~ covers dashedA (mkCoordinate (- (5 / 2)) 0))
  /\ (covers (Boundary bufferA) (mkCoordinate (100 + 5 / 2) 0)
      /\ ~ covers dashedA (mkCoordinate (100 + 5 / 2) 0))
  /\ (forall p : Coordinate, covers dashedA p ->
        25 < dist2 p (mkCoordinate 0 0) /\ 25 < dist2 p (mkCoordinate 100 0))
  /\ covers dashedA (mkCoordinate 50 (5 / 2))
  /\ covers dashedA (mkCoordinate 50 (- (5 / 2))).
Proof.
  split; [apply G_M_BCD_A |].
  split; [exact ford_n_A |].
  split; [reflexivity |].
  split; [exact connectorA_crossing |].
  split.
  { split; [exact outlineA_cap_start |].
    intros H. apply covers_dashedA in H. destruct H as (_ & H & _).
    unfold dist2 in H. simpl in H. lra. }
  split.
  { split; [exact outlineA_cap_end |].
    intros H. apply covers_dashedA in H. destruct H as (_ & _ & H).
    unfold dist2 in H. simpl in H. lra. }
  split.
  { intros p H. apply covers_dashedA in H. tauto. }
  split.
  - apply covers_dashedA. split.
    + replace (5 / 2) with (1 * (5 / 2)) by ring. apply outlineA_side. left. reflexivity.
    + unfold dist2. simpl. lra.
  - apply covers_dashedA. split.
    + replace (- (5 / 2)) with (-1 * (5 / 2)) by ring.
      apply outlineA_side. right. reflexivity.
    + unfold dist2. simpl. lra.
Qed.

(** * TASKS / CLEAR *)

Section TaskBoundaryFacts.

Variable openArrow : R -> R -> Coordinate -> Geometry.

Lemma G_T_X_ok (P : Type) (ctx : styles.context P) (a b : Coordinate)
  (rest : list Coordinate) (width resolution : R) :
  a <> List.last rest b ->
  G_T_X openArrow ctx (a :: b :: rest) width resolution
  = Ok (task_primitives openArrow ctx (a :: b :: rest)
          (mkSegment a (List.last rest b))
          a b width resolution).
Proof.
  intros Hab. unfold G_T_X, TS.coordinates, TS.segment_of.
  rewrite (segment_ok a (List.last rest b) Hab). cbn [bind].
  reflexivity.
Qed.

Lemma G_T_X_degenerate (P : Type) (ctx : styles.context P) (a b : Coordinate)
  (rest : list Coordinate) (width resolution : R) :
  a = List.last rest b ->
  G_T_X openArrow ctx (a :: b :: rest) width resolution = Err DegenerateGeometry.
Proof.
  intros Hab. unfold G_T_X, TS.coordinates, TS.segment_of.
  rewrite <- Hab, segment_degenerate. reflexivity.
Qed.

End TaskBoundaryFacts.

(** ** Scenario B: the line (0,0) -> (10,0), width 4 *)

Lemma mark_east (d : R) (c : Coordinate) (across : R) :
  TS.projectCoordinate d 0 c (0, across) = mkCoordinate (x c) (y c + across * d).
Proof.
  unfold TS.projectCoordinate, TS.dir, TS.perp. simpl.
  rewrite cos_0, sin_0. f_equal; ring.
Qed.

Lemma G_T_X_B (openArrow : R -> R -> Coordinate -> Geometry) (P : Type)
  (ctx : styles.context P) (resolution : R) :
  G_T_X openArrow ctx lineB 4 resolution
  = Ok [ styles.defaultStroke ctx (strokesB openArrow resolution);
         styles.text ctx (Point (mkCoordinate 5 0)) labelB ].
Proof.
  unfold lineB. rewrite G_T_X_ok.
  - unfold task_primitives. simpl List.last.
    rewrite angle_east by lra. rewrite !mark_east.
    unfold strokesB, labelB, lineB, TS.midPoint. simpl.
    repeat f_equal; lra.
  - simpl. intros H. apply (f_equal x) in H. simpl in H. lra.
Qed.

Lemma marks_B :
  TS.projectCoordinates (4 / 2) 0 (mkCoordinate 0 0) [(0, 0.75); (0, -0.75)]
  ++ TS.projectCoordinates (4 / 2) 0 (mkCoordinate 10 0)
       [(0, 0.75); (0, -0.75); (0, 1); (0, -1)]
  = marksB.
Proof.
  unfold TS.projectCoordinates. cbn [map app]. rewrite !mark_east.
  unfold marksB. simpl. repeat f_equal; lra.
Qed.

(** C2, as stated, fails on scenario B: the marks the generator projects
    lie at the offsets 3/2 and 2 from the line, none at the offset 3. *)
Lemma scenarioB_counterexample :
  (forall (openArrow : R -> R -> Coordinate -> Geometry) (resolution : R),
      G_T_X openArrow drawable lineB 4 resolution
      = Ok [ Stroke (strokesB openArrow resolution) false;
             Label (Point (mkCoordinate 5 0)) labelB ])
  /\ TS.angle (mkSegment (mkCoordinate 0 0) (mkCoordinate 10 0)) = 0
  /\ TS.projectCoordinates (4 / 2) 0 (mkCoordinate 0 0) [(0, 0.75); (0, -0.75)]
     ++ TS.projectCoordinates (4 / 2) 0 (mkCoordinate 10 0)
          [(0, 0.75); (0, -0.75); (0, 1); (0, -1)]
     = marksB
  /\ Forall (fun c : Coordinate => y c <> 3 /\ y c <> -3) marksB.
Proof.
  split; [intros openArrow resolution; apply (G_T_X_B openArrow Primitive drawable) |].
  split; [apply angle_east; lra |].
  split; [exact marks_B |].
  unfold marksB. repeat constructor; simpl; lra.
Qed.

(** C2 (amended): on the line (0,0) -> (10,0) with width 4 the generator
    projects its marks at x = 0 with the offsets 3/2 and -3/2
    (0.75 * 4 / 2) and at x = 10 with the offsets 3/2, -3/2, 2 and -2
    perpendicular to the line, and the label is anchored at (5,0) with
    rotation PI, the angle of the segment being 0. *)
Theorem scenarioB (openArrow : R -> R -> Coordinate -> Geometry) (P : Type)
  (ctx : styles.context P) (resolution : R) :
  G_T_X openArrow ctx lineB 4 resolution
  = Ok [ styles.defaultStroke ctx (Collect
           [ LineString lineB;
             LineString [mkCoordinate 0 (3 / 2); mkCoordinate 10 (3 / 2)];
             LineString [mkCoordinate 0 (- (3 / 2)); mkCoordinate 10 (- (3 / 2))];
             LineString [mkCoordinate 10 2; mkCoordinate 10 (- 2)];
             openArrow resolution 0 (mkCoordinate 10 (3 / 2));
             openArrow resolution 0 (mkCoordinate 10 0);
             openArrow resolution 0 (mkCoordinate 10 (- (3 / 2))) ]);
         styles.text ctx (Point (mkCoordinate 5 0))
           {| text := "C"; flip := true; rotation := PI |} ]
  /\ TS.angle (mkSegment (mkCoordinate 0 0) (mkCoordinate 10 0)) = 0
  /\ TS.projectCoordinates (4 / 2) 0 (mkCoordinate 0 0) [(0, 0.75); (0, -0.75)]
     = [mkCoordinate 0 (3 / 2); mkCoordinate 0 (- (3 / 2))]
  /\ TS.projectCoordinates (4 / 2) 0 (mkCoordinate 10 0)
       [(0, 0.75); (0, -0.75); (0, 1); (0, -1)]
     = [ mkCoordinate 10 (3 / 2); mkCoordinate 10 (- (3 / 2));
         mkCoordinate 10 2; mkCoordinate 10 (- 2) ].
Proof.
  split; [apply G_T_X_B |].
  split; [apply angle_east; lra |].
  split.
  - unfold TS.projectCoordinates. cbn [map]. rewrite !mark_east.
    simpl. repeat f_equal; lra.
  - unfold TS.projectCoordinates. cbn [map]. rewrite !mark_east.
    simpl. repeat f_equal; lra.
Qed.

(** ** A base line of three coordinates *)

(** C3, as stated, fails on a base line of three coordinates: the
    generator projects its second group of marks and its arrows about the
    second coordinate (5,0), not about the end (10,0) of the line. *)
Lemma task_boundary_counterexample :
  length line3 = 3%nat
  /\ TS.endPoint line3 = Ok (mkCoordinate 10 0)
  /\ forall (openArrow : R -> R -> Coordinate -> Geometry) (resolution : R),
       G_T_X openArrow drawable line3 4 resolution
       <> task_boundary_at_endpoints openArrow drawable line3 4 resolution.
Proof.
  split; [reflexivity |].
  split; [reflexivity |].
  intros openArrow resolution. unfold line3.
  assert (mkCoordinate 0 0 <> mkCoordinate 10 0) as Hab.
  { intros H. apply (f_equal x) in H. simpl in H. lra. }
  rewrite G_T_X_ok by exact Hab.
  unfold task_boundary_at_endpoints, TS.segment_of.
  cbn [List.last TS.startPoint TS.endPoint].
  rewrite (segment_ok _ _ Hab). cbn [bind].
  unfold task_primitives. cbn [styles.defaultStroke styles.text drawable].
  unfold TS.projectCoordinate, TS.dir, TS.perp. cbn [x y].
  intros H. injection H. intros. lra.
Qed.

(** C3 (amended): for a base line of at least two coordinates whose first
    and last coordinate differ, the generator returns one stroke group -
    the base line, the two lines joining the marks at the factors 0.75 and
    -0.75 projected by [width / 2] perpendicular to the line about its
    first and about its second coordinate, the bar between the marks at the
    factors 1 and -1 about the second coordinate, and open arrows at the
    second coordinate and at the two marks at 0.75 and -0.75 beside it -
    followed by the flipped label "C" anchored at the midpoint of the
    segment from the first to the last coordinate, with rotation
    [PI - angle].  The second coordinate is the end of the line when the
    line has exactly two coordinates; the marks are then at both
    endpoints. *)
Theorem task_boundary_spec (openArrow : R -> R -> Coordinate -> Geometry)
  (P : Type) (ctx : styles.context P) (a b : Coordinate)
  (rest : list Coordinate) (width resolution : R) :
  a <> List.last rest b ->
  let s := mkSegment a (List.last rest b) in
  let angle := TS.angle s in
  let mark := TS.projectCoordinate (width / 2) angle in
  TS.segment_of (a :: b :: rest) = Ok s
  /\ G_T_X openArrow ctx (a :: b :: rest) width resolution
     = Ok [ styles.defaultStroke ctx (Collect
              [ LineString (a :: b :: rest);
                LineString [mark a (0, 0.75); mark b (0, 0.75)];
                LineString [mark a (0, -0.75); mark b (0, -0.75)];
                LineString [mark b (0, 1); mark b (0, -1)];
                openArrow resolution angle (mark b (0, 0.75));
                openArrow resolution angle b;
                openArrow resolution angle (mark b (0, -0.75)) ]);
            styles.text ctx (Point (TS.midPoint s))
              {| text := "C"; flip := true; rotation := PI - angle |} ]
  /\ (forall (c : Coordinate) (f : R),
        mark c (0, f)
        = mkCoordinate (x c - f * (width / 2) * sin angle)
                       (y c + f * (width / 2) * cos angle))
  /\ (rest = [] ->
      G_T_X openArrow ctx (a :: b :: rest) width resolution
      = task_boundary_at_endpoints openArrow ctx (a :: b :: rest) width resolution).
Proof.
  intros Hab s angle mark.
  split; [unfold TS.segment_of; apply segment_ok; exact Hab |].
  split; [apply (G_T_X_ok openArrow P ctx a b rest width resolution Hab) |].
  split.
  - intros c f. unfold mark, TS.projectCoordinate, TS.dir, TS.perp. simpl.
    f_equal; ring.
  - intros ->. simpl in Hab.
    rewrite (G_T_X_ok openArrow P ctx a b [] width resolution Hab).
    unfold task_boundary_at_endpoints, TS.segment_of.
    cbn [List.last TS.startPoint TS.endPoint].
    rewrite (segment_ok _ _ Hab). reflexivity.
Qed.

Lemma task_boundary_spec_witness :
  mkCoordinate 0 0 <> mkCoordinate 10 0
  /\ G_T_X (fun _ _ c => Point c) drawable lineB 4 1
     = task_boundary_at_endpoints (fun _ _ c => Point c) drawable lineB 4 1.
Proof.
  assert (mkCoordinate 0 0 <> mkCoordinate 10 0) as H.
  { intros H. apply (f_equal x) in H. simpl in H. lra. }
  split; [exact H |].
  apply (task_boundary_spec (fun _ _ c => Point c) Primitive drawable
           (mkCoordinate 0 0) (mkCoordinate 10 0) [] 4 1 H).
  reflexivity.
Defined.

(** * The connector of FORD DIFFICULT *)







(** * Registration *)

Lemma generators_differ :
  @G_M_BCD Primitive <> @G_T_X marker Primitive.
Proof.
  intros H.
  assert (G_M_BCD drawable lineA 10 1 = G_T_X marker drawable lineA 10 1) as He
    by (rewrite H; reflexivity).
  rewrite (G_M_BCD_A Primitive drawable) in He.
  unfold lineA in He. rewrite G_T_X_ok in He.
  - unfold task_primitives in He.
    cbn [styles.dashedStroke styles.defaultStroke drawable] in He.
    discriminate He.
  - simpl. intros Hc. apply (f_equal x) in Hc. simpl in Hc. lra.
Qed.

(** C4, as stated, fails: when two generators are registered under the
    same identifier, loading does not fail with [ConflictingDefinition];
    the registry keeps the generator registered last, so the outcome
    depends on the order. *)
Lemma registration_counterexample :
  load [ ("G*M*BCD---"%string, @G_M_BCD Primitive);
         ("G*M*BCD---"%string, @G_T_X marker Primitive) ]
  = Ok {[ "G*M*BCD---"%string := @G_T_X marker Primitive ]}
  /\ load [ ("G*M*BCD---"%string, @G_T_X marker Primitive);
            ("G*M*BCD---"%string, @G_M_BCD Primitive) ]
     = Ok {[ "G*M*BCD---"%string := @G_M_BCD Primitive ]}
  /\ load [ ("G*M*BCD---"%string, @G_M_BCD Primitive);
            ("G*M*BCD---"%string, @G_T_X marker Primitive) ]
     <> load [ ("G*M*BCD---"%string, @G_T_X marker Primitive);
               ("G*M*BCD---"%string, @G_M_BCD Primitive) ].
Proof.
  assert (forall g1 g2 : Generator Primitive,
             load [("G*M*BCD---"%string, g1); ("G*M*BCD---"%string, g2)]
             = Ok {[ "G*M*BCD---"%string := g2 ]}) as Hload.
  { intros g1 g2. unfold load, register. cbn [fold_left fst snd].
    rewrite insert_insert_eq. reflexivity. }
  split; [apply Hload |]. split; [apply Hload |].
  rewrite !Hload. intros H.
  apply (f_equal (fun r : result (gmap string (Generator Primitive)) =>
                    match r with
                    | Ok m => m !! "G*M*BCD---"%string
                    | Err _ => None
                    end)) in H.
  rewrite !lookup_singleton_eq in H.
  apply generators_differ. congruence.
Qed.

(** C4 (amended): registration is an assignment into the registry.  It is
    additive, and registrations under distinct identifiers are independent
    of their order; a registration under an identifier already taken
    replaces the earlier generator; loading never fails. *)
Theorem registration_spec (P : Type) (registry : gmap string (Generator P))
  (id1 id2 : string) (g1 g2 : Generator P) :
  id1 <> id2 ->
  register id1 g1 (register id2 g2 registry)
  = register id2 g2 (register id1 g1 registry)
  /\ register id1 g1 registry !! id1 = Some g1
  /\ register id1 g1 registry !! id2 = registry !! id2
  /\ register id1 g2 (register id1 g1 registry) = register id1 g2 registry
  /\ (forall modules : list (string * Generator P),
        exists r : gmap string (Generator P),
          load modules = Ok r
          /\ load (modules ++ [(id1, g1); (id2, g2)])
             = load (modules ++ [(id2, g2); (id1, g1)])).
Proof.
  intros Hne. unfold register.
  split; [apply insert_insert_ne; exact Hne |].
  split; [apply lookup_insert_eq |].
  split; [apply lookup_insert_ne; exact Hne |].
  split; [apply insert_insert_eq |].
  intros modules. eexists. split; [reflexivity |].
  unfold load, register. rewrite !fold_left_app. cbn [fold_left fst snd].
  f_equal. apply insert_insert_ne. congruence.
Qed.

Lemma registration_spec_witness :
  "G*M*BCD---"%string <> "G*T*X-----"%string
  /\ loaded marker !! "G*M*BCD---"%string = Some (@G_M_BCD Primitive)
  /\ register "G*M*BCD---" (@G_M_BCD Primitive)
       (register "G*T*X-----" (@G_T_X marker Primitive) ∅)
     = loaded marker.
Proof.
  assert ("G*M*BCD---"%string <> "G*T*X-----"%string) as H by discriminate.
  split; [exact H |].
  destruct (registration_spec Primitive ∅ "G*M*BCD---" "G*T*X-----"
              (@G_M_BCD Primitive) (@G_T_X marker Primitive) H)
    as (Hcomm & Hnew & Hold & _).
  split.
  - unfold loaded. rewrite <- Hcomm. exact Hnew.
  - exact Hcomm.
Defined.

(** * Invocation *)

Section Calls.

Variable P : Type.
Variable ctx : styles.context P.
Variable openArrow : R -> R -> Coordinate -> Geometry.

(** ** Statements that only allocate *)

Lemma ret_allocates_only (A : Type) (a : A) :
  Heap.allocates_only (P := P) (Heap.ret a).
Proof. intros h. exists []. symmetry. apply app_nil_r. Qed.

Lemma throw_allocates_only (A : Type) (c : Condition) :
  Heap.allocates_only (P := P) (A := A) (Heap.throw c).
Proof. intros h. exists []. symmetry. apply app_nil_r. Qed.

Lemma lift_allocates_only (A : Type) (r : result A) :
  Heap.allocates_only (P := P) (Heap.lift r).
Proof.
  destruct r; [apply ret_allocates_only | apply throw_allocates_only].
Qed.

Lemma alloc_allocates_only (o : Heap.Object P) :
  Heap.allocates_only (Heap.alloc o).
Proof. intros h. exists [o]. reflexivity. Qed.

Lemma inspect_allocates_only (A : Type) (f : Heap.Store P -> option A) :
  Heap.allocates_only (Heap.inspect f).
Proof.
  intros h. exists []. unfold Heap.inspect.
  destruct (f h); symmetry; apply app_nil_r.
Qed.

Lemma flattened_allocates_only (items : list Heap.Value) :
  Heap.allocates_only (P := P) (Heap.flattened items).
Proof.
  intros h. exists []. unfold Heap.flattened.
  destruct (Heap.flat _ h items); symmetry; apply app_nil_r.
Qed.

Lemma andThen_allocates_only (A B : Type) (m : Heap.M P A)
  (k : A -> Heap.M P B) :
  Heap.allocates_only m -> (forall a : A, Heap.allocates_only (k a)) ->
  Heap.allocates_only (Heap.andThen m k).
Proof.
  intros Hm Hk h. unfold Heap.andThen.
  destruct (Hm h) as [new Hnew].
  destruct (m h) as [[a | c] h']; cbn [snd] in Hnew; subst h'.
  - destruct (Hk a (h ++ new)) as [new' Hnew'].
    exists (new ++ new'). rewrite Hnew'. symmetry. apply app_assoc.
  - exists new. reflexivity.
Qed.

Lemma each_allocates_only (A : Type) (f : A -> Heap.M P Heap.Value)
  (l : list A) :
  (forall a : A, Heap.allocates_only (f a)) ->
  Heap.allocates_only (Heap.each f l).
Proof.
  intros Hf. induction l as [| a l IH]; cbn [Heap.each].
  - apply ret_allocates_only.
  - apply andThen_allocates_only; [apply Hf |]. intros v.
    apply andThen_allocates_only; [exact IH |]. intros vs.
    apply ret_allocates_only.
Qed.

(** An assignment is no such statement. *)
Lemma assign_overwrites (l : Heap.loc) (o o' : Heap.Object P)
  (h : Heap.Store P) :
  h !! l = Some o -> o <> o' -> ~ Heap.allocates_only (Heap.assign l o').
Proof.
  intros Hl Hne Hgrow. destruct (Hgrow h) as [new Hnew].
  cbn [Heap.assign snd] in Hnew.
  assert ((<[l := o']> h) !! l = Some o') as Hnow.
  { apply list_lookup_insert_eq. apply lookup_lt_Some in Hl. exact Hl. }
  rewrite Hnew in Hnow. rewrite (lookup_app_l_Some _ _ _ _ Hl) in Hnow.
  congruence.
Qed.

Ltac only_allocates :=
  repeat first
    [ apply ret_allocates_only
    | apply throw_allocates_only
    | apply lift_allocates_only
    | apply alloc_allocates_only
    | apply inspect_allocates_only
    | apply flattened_allocates_only
    | apply each_allocates_only; intros ?
    | apply andThen_allocates_only; [| intros ?]
    | match goal with
      | |- Heap.allocates_only (match ?x with _ => _ end) => destruct x
      end ].

Lemma G_M_BCD_allocates_only (lineString : Heap.Value) (width resolution : R) :
  Heap.allocates_only (Heap.G_M_BCD ctx lineString width resolution).
Proof.
  unfold Heap.G_M_BCD, Heap.TS_coordinates, Heap.TS_segment_of,
    Heap.TS_segment, Heap.TS_projectCoordinates, Heap.TS_segmentize,
    Heap.TS_lineString, Heap.TS_lineBuffer, Heap.TS_pointBuffer,
    Heap.TS_boundary, Heap.TS_difference, Heap.TS_startPoint,
    Heap.TS_endPoint, Heap.styles_dashedStroke, Heap.styles_solidStroke,
    Heap.pairs, Heap.index, Heap.elements, Heap.filter, Heap.R_zip,
    Heap.R_flatten, Heap.literal.
  only_allocates.
Qed.

Lemma G_T_X_allocates_only (lineString : Heap.Value) (width resolution : R) :
  Heap.allocates_only (Heap.G_T_X ctx openArrow lineString width resolution).
Proof.
  unfold Heap.G_T_X, Heap.TS_coordinates, Heap.TS_segment_of,
    Heap.TS_projectCoordinates, Heap.TS_lineString, Heap.TS_point,
    Heap.TS_collect, Heap.commons_openArrow, Heap.styles_defaultStroke,
    Heap.styles_text, Heap.pairs, Heap.index, Heap.elements, Heap.map_,
    Heap.literal.
  only_allocates.
Qed.

Lemma synthesize_allocates_only (id : string) (baseGeometry : Heap.Value)
  (width resolution : R) :
  Heap.allocates_only
    (Heap.synthesize (Heap.loaded ctx openArrow) id baseGeometry width resolution).
Proof.
  unfold Heap.synthesize, Heap.loaded.
  destruct (decide (id = "G*T*X-----"%string)) as [-> | Hx].
  - rewrite lookup_insert_eq.
    destruct (Rle_dec width 0); [apply throw_allocates_only |].
    destruct (Rle_dec resolution 0); [apply throw_allocates_only |].
    apply G_T_X_allocates_only.
  - rewrite lookup_insert_ne by congruence.
    destruct (decide (id = "G*M*BCD---"%string)) as [-> | Hm].
    + rewrite lookup_insert_eq.
      destruct (Rle_dec width 0); [apply throw_allocates_only |].
      destruct (Rle_dec resolution 0); [apply throw_allocates_only |].
      apply G_M_BCD_allocates_only.
    + rewrite lookup_insert_ne by congruence. rewrite lookup_empty.
      apply throw_allocates_only.
Qed.


(** ** Reading a store that has grown *)

Lemma array_grown (h h' : Heap.Store P) (v : Heap.Value)
  (items : list Heap.Value) :
  h `prefix_of` h' -> Heap.array h v = Some items ->
  Heap.array h' v = Some items.
Proof.
  intros Hx. unfold Heap.array. destruct v as [| | | l]; try discriminate.
  destruct (h !! l) as [o |] eqn:Hl; [| discriminate].
  rewrite (prefix_lookup_Some _ _ _ _ Hl Hx). trivial.
Qed.

Lemma geometry_grown (h h' : Heap.Store P) (v : Heap.Value) (g : Geometry) :
  h `prefix_of` h' -> Heap.geometry h v = Some g -> Heap.geometry h' v = Some g.
Proof.
  intros Hx. unfold Heap.geometry. destruct v as [| | | l]; try discriminate.
  destruct (h !! l) as [o |] eqn:Hl; [| discriminate].
  rewrite (prefix_lookup_Some _ _ _ _ Hl Hx). trivial.
Qed.

Lemma primitive_grown (h h' : Heap.Store P) (v : Heap.Value) (p : P) :
  h `prefix_of` h' -> Heap.primitive h v = Some p ->
  Heap.primitive h' v = Some p.
Proof.
  intros Hx. unfold Heap.primitive. destruct v as [| | | l]; try discriminate.
  destruct (h !! l) as [o |] eqn:Hl; [| discriminate].
  rewrite (prefix_lookup_Some _ _ _ _ Hl Hx). trivial.
Qed.

Lemma all_implied (A B : Type) (f g : A -> option B) (l : list A)
  (k : list B) :
  (forall a b, f a = Some b -> g a = Some b) ->
  Heap.all f l = Some k -> Heap.all g l = Some k.
Proof.
  intros Hfg. revert k. induction l as [| a l IH]; intros k; cbn [Heap.all].
  - trivial.
  - destruct (f a) as [b |] eqn:Ha; [| discriminate].
    destruct (Heap.all f l) as [bs |]; [| discriminate].
    rewrite (Hfg a b Ha), (IH bs eq_refl). trivial.
Qed.

Lemma all_map (A B : Type) (f : A -> option B) (g : B -> A) (k : list B) :
  (forall b, f (g b) = Some b) -> Heap.all f (map g k) = Some k.
Proof.
  intros Hfg. induction k as [| b k IH]; cbn [map Heap.all]; [reflexivity |].
  rewrite Hfg, IH. reflexivity.
Qed.

Lemma all_Forall2 (A B : Type) (f : A -> option B) (l : list A) (k : list B) :
  Forall2 (fun a b => f a = Some b) l k -> Heap.all f l = Some k.
Proof.
  induction 1 as [| a b l k Hab _ IH]; cbn [Heap.all]; [reflexivity |].
  rewrite Hab, IH. reflexivity.
Qed.

Lemma offset_at_grown (h h' : Heap.Store P) (v : Heap.Value) (p : R * R) :
  h `prefix_of` h' -> Heap.offset_at h v = Some p ->
  Heap.offset_at h' v = Some p.
Proof.
  intros Hx. unfold Heap.offset_at.
  destruct (Heap.array h v) as [items |] eqn:Hv; [| discriminate].
  rewrite (array_grown h h' v items Hx Hv). trivial.
Qed.

Lemma primitives_at_grown (h h' : Heap.Store P) (v : Heap.Value)
  (ps : list P) :
  h `prefix_of` h' -> Heap.primitives_at h v = Some ps ->
  Heap.primitives_at h' v = Some ps.
Proof.
  intros Hx. unfold Heap.primitives_at.
  destruct (Heap.array h v) as [items |] eqn:Hv; [| discriminate].
  rewrite (array_grown h h' v items Hx Hv).
  apply all_implied. intros a b. apply primitive_grown. exact Hx.
Qed.

Lemma outcome_grown (h h' : Heap.Store P) (r : result Heap.Value)
  (o : result (list P)) :
  h `prefix_of` h' -> Heap.outcome h r = Some o -> Heap.outcome h' r = Some o.
Proof.
  intros Hx. destruct r as [v | c]; cbn [Heap.outcome]; [| trivial].
  destruct (Heap.primitives_at h v) as [ps |] eqn:Hv; [| discriminate].
  rewrite (primitives_at_grown h h' v ps Hx Hv). trivial.
Qed.

(** ** The statements, one by one *)

Lemma wp_ret (A : Type) (a : A) (h : Heap.Store P)
  (Q : result A -> Heap.Store P -> Prop) :
  Q (Ok a) h -> Heap.wp (Heap.ret a) h Q.
Proof. trivial. Qed.

Lemma wp_throw (A : Type) (c : Condition) (h : Heap.Store P)
  (Q : result A -> Heap.Store P -> Prop) :
  Q (Err c) h -> Heap.wp (Heap.throw c) h Q.
Proof. trivial. Qed.

Lemma wp_lift (A : Type) (r : result A) (h : Heap.Store P)
  (Q : result A -> Heap.Store P -> Prop) :
  Q r h -> Heap.wp (Heap.lift r) h Q.
Proof. destruct r; trivial. Qed.

Lemma wp_andThen (A B : Type) (m : Heap.M P A) (k : A -> Heap.M P B)
  (h : Heap.Store P) (Q : result B -> Heap.Store P -> Prop) :
  Heap.wp m h (fun r h' => match r with
                           | Ok a => Heap.wp (k a) h' Q
                           | Err c => Q (Err c) h'
                           end) ->
  Heap.wp (Heap.andThen m k) h Q.
Proof.
  unfold Heap.wp, Heap.andThen. destruct (m h) as [[a | c] h']; trivial.
Qed.

Lemma wp_inspect (A : Type) (f : Heap.Store P -> option A) (a : A)
  (h : Heap.Store P) (Q : result A -> Heap.Store P -> Prop) :
  f h = Some a -> Q (Ok a) h -> Heap.wp (Heap.inspect f) h Q.
Proof. intros Hf HQ. unfold Heap.wp, Heap.inspect. rewrite Hf. exact HQ. Qed.

Lemma wp_alloc (o : Heap.Object P) (h : Heap.Store P)
  (Q : result Heap.Value -> Heap.Store P -> Prop) :
  (forall (l : Heap.loc) (h' : Heap.Store P),
      h `prefix_of` h' -> h !! l = None -> h' !! l = Some o ->
      Q (Ok (Heap.Ref l)) h') ->
  Heap.wp (Heap.alloc o) h Q.
Proof.
  intros HQ. unfold Heap.wp, Heap.alloc. cbn [fst snd]. apply HQ.
  - apply prefix_app_r. reflexivity.
  - apply lookup_ge_None. reflexivity.
  - apply list_lookup_middle. reflexivity.
Qed.

Lemma alloc_spec (o : Heap.Object P) (h : Heap.Store P)
  (Q : result Heap.Value -> Heap.Store P -> Prop) :
  (forall (l : Heap.loc) (h' : Heap.Store P),
      h `prefix_of` h' -> h' !! l = Some o -> Q (Ok (Heap.Ref l)) h') ->
  Heap.wp (Heap.alloc o) h Q.
Proof. intros HQ. apply wp_alloc. intros l h' Hx _. apply HQ. exact Hx. Qed.

Lemma literal_spec (items : list Heap.Value) (h : Heap.Store P)
  (Q : result Heap.Value -> Heap.Store P -> Prop) :
  (forall (l : Heap.loc) (h' : Heap.Store P),
      h `prefix_of` h' -> h' !! l = Some (Heap.Array items) ->
      Q (Ok (Heap.Ref l)) h') ->
  Heap.wp (Heap.literal items) h Q.
Proof. apply alloc_spec. Qed.

Lemma elements_spec (l : Heap.loc) (items : list Heap.Value)
  (h : Heap.Store P) (Q : result (list Heap.Value) -> Heap.Store P -> Prop) :
  h !! l = Some (Heap.Array items) -> Q (Ok items) h ->
  Heap.wp (Heap.elements (Heap.Ref l)) h Q.
Proof.
  intros Hl HQ. apply wp_inspect with items; [| exact HQ].
  unfold Heap.array. rewrite Hl. reflexivity.
Qed.

Lemma index_spec (l : Heap.loc) (i : nat) (items : list Heap.Value)
  (h : Heap.Store P) (Q : result Heap.Value -> Heap.Store P -> Prop) :
  h !! l = Some (Heap.Array items) ->
  Q (Ok (nth i items Heap.Undefined)) h ->
  Heap.wp (Heap.index (Heap.Ref l) i) h Q.
Proof.
  intros Hl HQ. apply wp_andThen. apply elements_spec with items; [exact Hl |].
  exact HQ.
Qed.

Lemma filter_spec (f : Heap.Value -> nat -> bool) (l : Heap.loc)
  (items : list Heap.Value) (h : Heap.Store P)
  (Q : result Heap.Value -> Heap.Store P -> Prop) :
  h !! l = Some (Heap.Array items) ->
  (forall (l' : Heap.loc) (h' : Heap.Store P),
      h `prefix_of` h' -> h' !! l' = Some (Heap.Array (filter_index f items)) ->
      Q (Ok (Heap.Ref l')) h') ->
  Heap.wp (Heap.filter f (Heap.Ref l)) h Q.
Proof.
  intros Hl HQ. apply wp_andThen. apply elements_spec with items; [exact Hl |].
  apply literal_spec. exact HQ.
Qed.

Lemma each_literal_spec (A : Type) (f : A -> list Heap.Value) (l : list A)
  (h : Heap.Store P) (Q : result (list Heap.Value) -> Heap.Store P -> Prop) :
  (forall (ls : list Heap.loc) (h' : Heap.Store P),
      h `prefix_of` h' ->
      Forall2 (fun r a => h' !! r = Some (Heap.Array (f a))) ls l ->
      Q (Ok (map Heap.Ref ls)) h') ->
  Heap.wp (Heap.each (fun a => Heap.literal (f a)) l) h Q.
Proof.
  revert h Q. induction l as [| a l IH]; intros h Q HQ; cbn [Heap.each].
  - apply wp_ret. apply (HQ []); [reflexivity | constructor].
  - apply wp_andThen. apply literal_spec. intros r h1 Hx1 Hr.
    apply wp_andThen. apply IH. intros ls h2 Hx2 Hls.
    apply wp_ret. apply (HQ (r :: ls)).
    + etransitivity; eassumption.
    + constructor; [| exact Hls]. exact (prefix_lookup_Some _ _ _ _ Hr Hx2).
Qed.

Lemma pairs_spec (l : list (R * R)) (h : Heap.Store P)
  (Q : result Heap.Value -> Heap.Store P -> Prop) :
  (forall (v : Heap.Value) (h' : Heap.Store P),
      h `prefix_of` h' -> Heap.offsets_at h' v = Some l -> Q (Ok v) h') ->
  Heap.wp (Heap.pairs l) h Q.
Proof.
  intros HQ. unfold Heap.pairs. apply wp_andThen.
  apply (each_literal_spec _ (fun p => [Heap.Number (fst p); Heap.Number (snd p)])).
  intros ls h1 Hx1 Hls. apply literal_spec. intros r h2 Hx2 Hr.
  apply HQ; [etransitivity; eassumption |].
  unfold Heap.offsets_at, Heap.array. rewrite Hr.
  apply all_Forall2. clear Hr HQ.
  induction Hls as [| r' p ls l Hp _ IH]; cbn [map]; [constructor |].
  constructor; [| exact IH].
  unfold Heap.offset_at, Heap.array.
  rewrite (prefix_lookup_Some _ _ _ _ Hp Hx2). destruct p; reflexivity.
Qed.

Lemma R_zip_spec (a b : Heap.loc) (xs ys : list Heap.Value)
  (h : Heap.Store P) (Q : result Heap.Value -> Heap.Store P -> Prop) :
  h !! a = Some (Heap.Array xs) -> h !! b = Some (Heap.Array ys) ->
  (forall (l : Heap.loc) (ls : list Heap.loc) (h' : Heap.Store P),
      h `prefix_of` h' ->
      h' !! l = Some (Heap.Array (map Heap.Ref ls)) ->
      Forall2 (fun r p => h' !! r = Some (Heap.Array [fst p; snd p]))
        ls (combine xs ys) ->
      Q (Ok (Heap.Ref l)) h') ->
  Heap.wp (Heap.R_zip (Heap.Ref a) (Heap.Ref b)) h Q.
Proof.
  intros Ha Hb HQ. unfold Heap.R_zip.
  apply wp_andThen. apply elements_spec with xs; [exact Ha |].
  apply wp_andThen. apply elements_spec with ys; [exact Hb |].
  apply wp_andThen.
  apply (each_literal_spec _ (fun p => [fst p; snd p])).
  intros ls h1 Hx1 Hls. apply literal_spec. intros l h2 Hx2 Hl.
  apply (HQ l ls); [etransitivity; eassumption | exact Hl |].
  eapply Forall2_impl; [exact Hls |]. intros r p Hr.
  exact (prefix_lookup_Some _ _ _ _ Hr Hx2).
Qed.

Lemma flat_cons (fuel : nat) (h : Heap.Store P) (v : Heap.Value)
  (items : list Heap.Value) :
  Heap.flat (S fuel) h (v :: items)
  = match Heap.array h v with
    | Some inner =>
        match Heap.flat fuel h inner, Heap.flat (S fuel) h items with
        | Some vs, Some r => Some (vs ++ r)
        | _, _ => None
        end
    | None =>
        match Heap.flat (S fuel) h items with
        | Some r => Some (v :: r)
        | None => None
        end
    end.
Proof. reflexivity. Qed.

Lemma flat_leaves (fuel : nat) (h : Heap.Store P) (cs : list Coordinate) :
  Heap.flat (S fuel) h (map Heap.Coord cs) = Some (map Heap.Coord cs).
Proof.
  induction cs as [| c cs IH]; [reflexivity |].
  cbn [map]. rewrite flat_cons, IH. reflexivity.
Qed.

(** The elements of an array of arrays of coordinates, flattened. *)
Lemma flat_coordinates (fuel : nat) (h : Heap.Store P) (ls : list Heap.loc)
  (inner : list (list Coordinate)) :
  Forall2 (fun r cs => h !! r = Some (Heap.Array (map Heap.Coord cs))) ls inner ->
  Heap.flat (S (S fuel)) h (map Heap.Ref ls)
  = Some (map Heap.Coord (concat inner)).
Proof.
  induction 1 as [| r cs ls inner Hr _ IH]; [reflexivity |].
  cbn [map concat]. rewrite flat_cons, IH.
  unfold Heap.array. rewrite Hr, flat_leaves, List.map_app. reflexivity.
Qed.

Lemma R_flatten_spec (l : Heap.loc) (ls : list Heap.loc)
  (inner : list (list Coordinate)) (h : Heap.Store P)
  (Q : result Heap.Value -> Heap.Store P -> Prop) :
  h !! l = Some (Heap.Array (map Heap.Ref ls)) ->
  Forall2 (fun r cs => h !! r = Some (Heap.Array (map Heap.Coord cs))) ls inner ->
  (forall (l' : Heap.loc) (h' : Heap.Store P),
      h `prefix_of` h' ->
      h' !! l' = Some (Heap.Array (map Heap.Coord (concat inner))) ->
      Q (Ok (Heap.Ref l')) h') ->
  Heap.wp (Heap.R_flatten (Heap.Ref l)) h Q.
Proof.
  intros Hl Hls HQ. unfold Heap.R_flatten.
  apply wp_andThen. apply elements_spec with (map Heap.Ref ls); [exact Hl |].
  apply wp_andThen. unfold Heap.wp at 1, Heap.flattened.
  rewrite (flat_coordinates _ h ls inner Hls). cbn [fst snd].
  apply literal_spec. exact HQ.
Qed.

(** ** The kernel and the style context *)

Lemma coordinates_at_map (h : Heap.Store P) (l : Heap.loc)
  (cs : list Coordinate) :
  h !! l = Some (Heap.Array (map Heap.Coord cs)) ->
  Heap.coordinates_at h (Heap.Ref l) = Some cs.
Proof.
  intros Hl. unfold Heap.coordinates_at, Heap.array. rewrite Hl.
  apply all_map. reflexivity.
Qed.

Lemma geometries_at_refs (h : Heap.Store P) (l : Heap.loc)
  (ls : list Heap.loc) (gs : list Geometry) :
  h !! l = Some (Heap.Array (map Heap.Ref ls)) ->
  Forall2 (fun r g => h !! r = Some (Heap.Geom g)) ls gs ->
  Heap.geometries_at h (Heap.Ref l) = Some gs.
Proof.
  intros Hl Hls. unfold Heap.geometries_at, Heap.array at 1. rewrite Hl.
  apply all_Forall2. clear Hl.
  induction Hls as [| r g ls gs Hr _ IH]; cbn [map]; [constructor |].
  constructor; [| exact IH]. unfold Heap.geometry. rewrite Hr. reflexivity.
Qed.

Lemma geometry_at (h : Heap.Store P) (l : Heap.loc) (g : Geometry) :
  h !! l = Some (Heap.Geom g) -> Heap.geometry h (Heap.Ref l) = Some g.
Proof. intros Hl. unfold Heap.geometry. rewrite Hl. reflexivity. Qed.

Lemma TS_coordinates_spec (l : Heap.loc) (cs : list Coordinate)
  (h : Heap.Store P) (Q : result Heap.Value -> Heap.Store P -> Prop) :
  h !! l = Some (Heap.Geom (LineString cs)) ->
  (forall (l' : Heap.loc) (h' : Heap.Store P),
      h `prefix_of` h' -> h' !! l' = Some (Heap.Array (map Heap.Coord cs)) ->
      Q (Ok (Heap.Ref l')) h') ->
  Heap.wp (Heap.TS_coordinates (Heap.Ref l)) h Q.
Proof.
  intros Hl HQ. unfold Heap.TS_coordinates. apply wp_andThen.
  apply wp_inspect with (LineString cs); [apply geometry_at; exact Hl |].
  apply literal_spec. exact HQ.
Qed.

Lemma TS_segment_of_spec (l : Heap.loc) (cs : list Coordinate)
  (h : Heap.Store P) (Q : result Segment -> Heap.Store P -> Prop) :
  h !! l = Some (Heap.Array (map Heap.Coord cs)) ->
  Q (TS.segment_of cs) h ->
  Heap.wp (Heap.TS_segment_of (Heap.Ref l)) h Q.
Proof.
  intros Hl HQ. unfold Heap.TS_segment_of. apply wp_andThen.
  apply wp_inspect with cs; [apply coordinates_at_map; exact Hl |].
  apply wp_lift. exact HQ.
Qed.

Lemma TS_segment_spec (a b : Coordinate) (h : Heap.Store P)
  (Q : result Segment -> Heap.Store P -> Prop) :
  Q (TS.segment a b) h ->
  Heap.wp (Heap.TS_segment (Heap.Coord a) (Heap.Coord b)) h Q.
Proof.
  intros HQ. unfold Heap.TS_segment.
  apply wp_andThen. apply wp_inspect with a; [reflexivity |].
  apply wp_andThen. apply wp_inspect with b; [reflexivity |].
  apply wp_lift. exact HQ.
Qed.

Lemma TS_projectCoordinates_spec (distance angle : R) (origin : Coordinate)
  (offsets : Heap.Value) (l : list (R * R)) (h : Heap.Store P)
  (Q : result Heap.Value -> Heap.Store P -> Prop) :
  Heap.offsets_at h offsets = Some l ->
  (forall (l' : Heap.loc) (h' : Heap.Store P),
      h `prefix_of` h' ->
      h' !! l'
      = Some (Heap.Array
                (map Heap.Coord (TS.projectCoordinates distance angle origin l))) ->
      Q (Ok (Heap.Ref l')) h') ->
  Heap.wp (Heap.TS_projectCoordinates distance angle (Heap.Coord origin) offsets)
    h Q.
Proof.
  intros Hl HQ. unfold Heap.TS_projectCoordinates.
  apply wp_andThen. apply wp_inspect with origin; [reflexivity |].
  apply wp_andThen. apply wp_inspect with l; [exact Hl |].
  apply literal_spec. exact HQ.
Qed.

Lemma TS_segmentize_spec (s : Segment) (n : Z) (h : Heap.Store P)
  (Q : result Heap.Value -> Heap.Store P -> Prop) :
  match TS.segmentize s n with
  | Ok cs =>
      forall (l : Heap.loc) (h' : Heap.Store P),
        h `prefix_of` h' -> h' !! l = Some (Heap.Array (map Heap.Coord cs)) ->
        Q (Ok (Heap.Ref l)) h'
  | Err c => Q (Err c) h
  end ->
  Heap.wp (Heap.TS_segmentize s n) h Q.
Proof.
  intros HQ. unfold Heap.TS_segmentize. apply wp_andThen. apply wp_lift.
  destruct (TS.segmentize s n) as [cs | c]; [| exact HQ].
  apply literal_spec. exact HQ.
Qed.

Lemma TS_lineString_spec (l : Heap.loc) (cs : list Coordinate)
  (h : Heap.Store P) (Q : result Heap.Value -> Heap.Store P -> Prop) :
  h !! l = Some (Heap.Array (map Heap.Coord cs)) ->
  (forall (l' : Heap.loc) (h' : Heap.Store P),
      h `prefix_of` h' -> h' !! l' = Some (Heap.Geom (TS.lineString cs)) ->
      Q (Ok (Heap.Ref l')) h') ->
  Heap.wp (Heap.TS_lineString (Heap.Ref l)) h Q.
Proof.
  intros Hl HQ. unfold Heap.TS_lineString. apply wp_andThen.
  apply wp_inspect with cs; [apply coordinates_at_map; exact Hl |].
  apply alloc_spec. exact HQ.
Qed.

Lemma TS_point_spec (c : Coordinate) (h : Heap.Store P)
  (Q : result Heap.Value -> Heap.Store P -> Prop) :
  (forall (l' : Heap.loc) (h' : Heap.Store P),
      h `prefix_of` h' -> h' !! l' = Some (Heap.Geom (TS.point c)) ->
      Q (Ok (Heap.Ref l')) h') ->
  Heap.wp (Heap.TS_point (Heap.Coord c)) h Q.
Proof.
  intros HQ. unfold Heap.TS_point. apply wp_andThen.
  apply wp_inspect with c; [reflexivity |]. apply alloc_spec. exact HQ.
Qed.

Lemma TS_lineBuffer_spec (l : Heap.loc) (g : Geometry) (width : R)
  (h : Heap.Store P) (Q : result Heap.Value -> Heap.Store P -> Prop) :
  h !! l = Some (Heap.Geom g) ->
  (forall (l' : Heap.loc) (h' : Heap.Store P),
      h `prefix_of` h' -> h' !! l' = Some (Heap.Geom (TS.lineBuffer g width)) ->
      Q (Ok (Heap.Ref l')) h') ->
  Heap.wp (Heap.TS_lineBuffer (Heap.Ref l) width) h Q.
Proof.
  intros Hl HQ. unfold Heap.TS_lineBuffer. apply wp_andThen.
  apply wp_inspect with g; [apply geometry_at; exact Hl |].
  apply alloc_spec. exact HQ.
Qed.

Lemma TS_boundary_spec (l : Heap.loc) (g : Geometry) (h : Heap.Store P)
  (Q : result Heap.Value -> Heap.Store P -> Prop) :
  h !! l = Some (Heap.Geom g) ->
  (forall (l' : Heap.loc) (h' : Heap.Store P),
      h `prefix_of` h' -> h' !! l' = Some (Heap.Geom (TS.boundary g)) ->
      Q (Ok (Heap.Ref l')) h') ->
  Heap.wp (Heap.TS_boundary (Heap.Ref l)) h Q.
Proof.
  intros Hl HQ. unfold Heap.TS_boundary. apply wp_andThen.
  apply wp_inspect with g; [apply geometry_at; exact Hl |].
  apply alloc_spec. exact HQ.
Qed.

Lemma TS_pointBuffer_spec (c : Coordinate) (radius : R) (h : Heap.Store P)
  (Q : result Heap.Value -> Heap.Store P -> Prop) :
  (forall (l' : Heap.loc) (h' : Heap.Store P),
      h `prefix_of` h' -> h' !! l' = Some (Heap.Geom (TS.pointBuffer c radius)) ->
      Q (Ok (Heap.Ref l')) h') ->
  Heap.wp (Heap.TS_pointBuffer (Heap.Coord c) radius) h Q.
Proof.
  intros HQ. unfold Heap.TS_pointBuffer. apply wp_andThen.
  apply wp_inspect with c; [reflexivity |]. apply alloc_spec. exact HQ.
Qed.

Lemma TS_startPoint_spec (l : Heap.loc) (cs : list Coordinate)
  (h : Heap.Store P) (Q : result Heap.Value -> Heap.Store P -> Prop) :
  h !! l = Some (Heap.Geom (LineString cs)) ->
  match TS.startPoint cs with
  | Ok c => Q (Ok (Heap.Coord c)) h
  | Err e => Q (Err e) h
  end ->
  Heap.wp (Heap.TS_startPoint (Heap.Ref l)) h Q.
Proof.
  intros Hl HQ. unfold Heap.TS_startPoint. apply wp_andThen.
  apply wp_inspect with (LineString cs); [apply geometry_at; exact Hl |].
  apply wp_andThen. apply wp_lift.
  destruct (TS.startPoint cs); exact HQ.
Qed.

Lemma TS_endPoint_spec (l : Heap.loc) (cs : list Coordinate)
  (h : Heap.Store P) (Q : result Heap.Value -> Heap.Store P -> Prop) :
  h !! l = Some (Heap.Geom (LineString cs)) ->
  match TS.endPoint cs with
  | Ok c => Q (Ok (Heap.Coord c)) h
  | Err e => Q (Err e) h
  end ->
  Heap.wp (Heap.TS_endPoint (Heap.Ref l)) h Q.
Proof.
  intros Hl HQ. unfold Heap.TS_endPoint. apply wp_andThen.
  apply wp_inspect with (LineString cs); [apply geometry_at; exact Hl |].
  apply wp_andThen. apply wp_lift.
  destruct (TS.endPoint cs); exact HQ.
Qed.

Lemma TS_difference_spec (l : Heap.loc) (ls : list Heap.loc)
  (gs : list Geometry) (h : Heap.Store P)
  (Q : result Heap.Value -> Heap.Store P -> Prop) :
  h !! l = Some (Heap.Array (map Heap.Ref ls)) ->
  Forall2 (fun r g => h !! r = Some (Heap.Geom g)) ls gs ->
  (forall (l' : Heap.loc) (h' : Heap.Store P),
      h `prefix_of` h' -> h' !! l' = Some (Heap.Geom (TS.difference gs)) ->
      Q (Ok (Heap.Ref l')) h') ->
  Heap.wp (Heap.TS_difference (Heap.Ref l)) h Q.
Proof.
  intros Hl Hls HQ. unfold Heap.TS_difference. apply wp_andThen.
  apply wp_inspect with gs; [apply (geometries_at_refs h l ls); assumption |].
  apply alloc_spec. exact HQ.
Qed.

Lemma TS_collect_spec (l : Heap.loc) (ls : list Heap.loc)
  (gs : list Geometry) (h : Heap.Store P)
  (Q : result Heap.Value -> Heap.Store P -> Prop) :
  h !! l = Some (Heap.Array (map Heap.Ref ls)) ->
  Forall2 (fun r g => h !! r = Some (Heap.Geom g)) ls gs ->
  (forall (l' : Heap.loc) (h' : Heap.Store P),
      h `prefix_of` h' -> h' !! l' = Some (Heap.Geom (TS.collect gs)) ->
      Q (Ok (Heap.Ref l')) h') ->
  Heap.wp (Heap.TS_collect (Heap.Ref l)) h Q.
Proof.
  intros Hl Hls HQ. unfold Heap.TS_collect. apply wp_andThen.
  apply wp_inspect with gs; [apply (geometries_at_refs h l ls); assumption |].
  apply alloc_spec. exact HQ.
Qed.

Lemma commons_openArrow_spec (resolution angle : R) (c : Coordinate)
  (h : Heap.Store P) (Q : result Heap.Value -> Heap.Store P -> Prop) :
  (forall (l' : Heap.loc) (h' : Heap.Store P),
      h `prefix_of` h' ->
      h' !! l' = Some (Heap.Geom (openArrow resolution angle c)) ->
      Q (Ok (Heap.Ref l')) h') ->
  Heap.wp (Heap.commons_openArrow openArrow resolution angle (Heap.Coord c)) h Q.
Proof.
  intros HQ. unfold Heap.commons_openArrow. apply wp_andThen.
  apply wp_inspect with c; [reflexivity |]. apply alloc_spec. exact HQ.
Qed.

Lemma each_openArrow_spec (resolution angle : R) (cs : list Coordinate)
  (h : Heap.Store P) (Q : result (list Heap.Value) -> Heap.Store P -> Prop) :
  (forall (ls : list Heap.loc) (h' : Heap.Store P),
      h `prefix_of` h' ->
      Forall2 (fun r c => h' !! r = Some (Heap.Geom (openArrow resolution angle c)))
        ls cs ->
      Q (Ok (map Heap.Ref ls)) h') ->
  Heap.wp
    (Heap.each (fun coord => Heap.commons_openArrow openArrow resolution angle coord)
       (map Heap.Coord cs)) h Q.
Proof.
  revert h Q. induction cs as [| c cs IH]; intros h Q HQ; cbn [map Heap.each].
  - apply wp_ret. apply (HQ []); [reflexivity | constructor].
  - apply wp_andThen. apply commons_openArrow_spec. intros r h1 Hx1 Hr.
    apply wp_andThen. apply IH. intros ls h2 Hx2 Hls.
    apply wp_ret. apply (HQ (r :: ls)).
    + etransitivity; eassumption.
    + constructor; [| exact Hls]. exact (prefix_lookup_Some _ _ _ _ Hr Hx2).
Qed.

Lemma map_openArrow_spec (resolution angle : R) (l : Heap.loc)
  (cs : list Coordinate) (h : Heap.Store P)
  (Q : result Heap.Value -> Heap.Store P -> Prop) :
  h !! l = Some (Heap.Array (map Heap.Coord cs)) ->
  (forall (l' : Heap.loc) (ls : list Heap.loc) (h' : Heap.Store P),
      h `prefix_of` h' ->
      h' !! l' = Some (Heap.Array (map Heap.Ref ls)) ->
      Forall2 (fun r c => h' !! r = Some (Heap.Geom (openArrow resolution angle c)))
        ls cs ->
      Q (Ok (Heap.Ref l')) h') ->
  Heap.wp
    (Heap.map_ (fun coord => Heap.commons_openArrow openArrow resolution angle coord)
       (Heap.Ref l)) h Q.
Proof.
  intros Hl HQ. unfold Heap.map_.
  apply wp_andThen. apply elements_spec with (map Heap.Coord cs); [exact Hl |].
  apply wp_andThen. apply each_openArrow_spec. intros ls h1 Hx1 Hls.
  apply literal_spec. intros l' h2 Hx2 Hl'.
  apply (HQ l' ls); [etransitivity; eassumption | exact Hl' |].
  eapply Forall2_impl; [exact Hls |]. intros r c Hr.
  exact (prefix_lookup_Some _ _ _ _ Hr Hx2).
Qed.

Lemma styles_dashedStroke_spec (l : Heap.loc) (g : Geometry)
  (h : Heap.Store P) (Q : result Heap.Value -> Heap.Store P -> Prop) :
  h !! l = Some (Heap.Geom g) ->
  (forall (l' : Heap.loc) (h' : Heap.Store P),
      h `prefix_of` h' ->
      h' !! l' = Some (Heap.Prim (styles.dashedStroke ctx g)) ->
      Q (Ok (Heap.Ref l')) h') ->
  Heap.wp (Heap.styles_dashedStroke ctx (Heap.Ref l)) h Q.
Proof.
  intros Hl HQ. unfold Heap.styles_dashedStroke. apply wp_andThen.
  apply wp_inspect with g; [apply geometry_at; exact Hl |].
  apply alloc_spec. exact HQ.
Qed.

Lemma styles_solidStroke_spec (l : Heap.loc) (g : Geometry)
  (h : Heap.Store P) (Q : result Heap.Value -> Heap.Store P -> Prop) :
  h !! l = Some (Heap.Geom g) ->
  (forall (l' : Heap.loc) (h' : Heap.Store P),
      h `prefix_of` h' ->
      h' !! l' = Some (Heap.Prim (styles.solidStroke ctx g)) ->
      Q (Ok (Heap.Ref l')) h') ->
  Heap.wp (Heap.styles_solidStroke ctx (Heap.Ref l)) h Q.
Proof.
  intros Hl HQ. unfold Heap.styles_solidStroke. apply wp_andThen.
  apply wp_inspect with g; [apply geometry_at; exact Hl |].
  apply alloc_spec. exact HQ.
Qed.

Lemma styles_defaultStroke_spec (l : Heap.loc) (g : Geometry)
  (h : Heap.Store P) (Q : result Heap.Value -> Heap.Store P -> Prop) :
  h !! l = Some (Heap.Geom g) ->
  (forall (l' : Heap.loc) (h' : Heap.Store P),
      h `prefix_of` h' ->
      h' !! l' = Some (Heap.Prim (styles.defaultStroke ctx g)) ->
      Q (Ok (Heap.Ref l')) h') ->
  Heap.wp (Heap.styles_defaultStroke ctx (Heap.Ref l)) h Q.
Proof.
  intros Hl HQ. unfold Heap.styles_defaultStroke. apply wp_andThen.
  apply wp_inspect with g; [apply geometry_at; exact Hl |].
  apply alloc_spec. exact HQ.
Qed.

Lemma styles_text_spec (l : Heap.loc) (g : Geometry) (options : TextOptions)
  (h : Heap.Store P) (Q : result Heap.Value -> Heap.Store P -> Prop) :
  h !! l = Some (Heap.Geom g) ->
  (forall (l' : Heap.loc) (h' : Heap.Store P),
      h `prefix_of` h' ->
      h' !! l' = Some (Heap.Prim (styles.text ctx g options)) ->
      Q (Ok (Heap.Ref l')) h') ->
  Heap.wp (Heap.styles_text ctx (Heap.Ref l) options) h Q.
Proof.
  intros Hl HQ. unfold Heap.styles_text. apply wp_andThen.
  apply wp_inspect with g; [apply geometry_at; exact Hl |].
  apply alloc_spec. exact HQ.
Qed.

(** ** The generators, statement by statement *)

Lemma prefix_lookup_None (h h' : Heap.Store P) (l : Heap.loc) :
  h `prefix_of` h' -> h' !! l = None -> h !! l = None.
Proof.
  intros Hx Hl. apply lookup_ge_None. apply lookup_ge_None in Hl.
  apply prefix_length in Hx. lia.
Qed.

(** What is known of a store is known of the store it has grown to. *)
Ltac carry Hx :=
  match type of Hx with
  | ?h1 `prefix_of` ?h2 =>
      repeat match goal with
             | H : h1 !! _ = Some _ |- _ =>
                 eapply prefix_lookup_Some in H; [| exact Hx]
             | H : ?h0 `prefix_of` h1 |- _ =>
                 eapply (@transitivity _ _ _ h0 h1 h2) in H; [| exact Hx]
             end;
      clear Hx
  end.

Tactic Notation "allocated" ident(l) ident(Hl) :=
  let h' := fresh "h" in
  let Hx := fresh "Hx" in
  intros l h' Hx Hl; carry Hx; cbv beta iota.

Ltac step lemma :=
  apply wp_andThen; eapply lemma; [eassumption .. |]; cbv beta iota.

(** A call that stops with a condition has written nothing. *)
Lemma thrown (h0 h : Heap.Store P) (c : Condition) :
  h0 `prefix_of` h -> Heap.returns h0 (Err c) (Err c) h.
Proof.
  intros Hx. split; [exact Hx |]. split; [reflexivity |].
  intros v Hv. discriminate Hv.
Qed.

Lemma returned (h0 h h' : Heap.Store P) (l d s : Heap.loc) (p q : P) :
  h0 `prefix_of` h -> h `prefix_of` h' -> h !! l = None ->
  h' !! l = Some (Heap.Array [Heap.Ref d; Heap.Ref s]) ->
  h !! d = Some (Heap.Prim p) -> h !! s = Some (Heap.Prim q) ->
  Heap.returns h0 (Ok [p; q]) (Ok (Heap.Ref l)) h'.
Proof.
  intros Hx0 Hx Hfresh Hl Hd Hs.
  split; [change (h0 `prefix_of` h'); etransitivity; eassumption |]. split.
  - unfold Heap.outcome, Heap.primitives_at, Heap.array. rewrite Hl.
    cbn [Heap.all Heap.primitive].
    rewrite (prefix_lookup_Some _ _ _ _ Hd Hx), (prefix_lookup_Some _ _ _ _ Hs Hx).
    reflexivity.
  - intros v Hv. injection Hv as <-. exists l. split; [reflexivity |].
    exact (prefix_lookup_None h0 h l Hx0 Hfresh).
Qed.

Lemma filter_from_map (A B : Type) (g : nat -> bool) (f : A -> B)
  (l : list A) (i : nat) :
  filter_from (fun _ j => g j) i (map f l)
  = map f (filter_from (fun _ j => g j) i l).
Proof.
  revert i. induction l as [| a l IH]; intros i; [reflexivity |].
  cbn [map filter_from]. rewrite IH. destruct (g i); reflexivity.
Qed.

Lemma zipped_coordinates (h : Heap.Store P) (ls : list Heap.loc)
  (a b : list Coordinate) :
  Forall2 (fun r p => h !! r = Some (Heap.Array [fst p; snd p])) ls
    (combine (map Heap.Coord a) (map Heap.Coord b)) ->
  Forall2 (fun r cs => h !! r = Some (Heap.Array (map Heap.Coord cs))) ls
    (map (fun p => [fst p; snd p]) (Ramda.zip a b)).
Proof.
  unfold Ramda.zip. revert ls b.
  induction a as [| x a IH]; intros ls b Hls.
  - inversion Hls; subst. constructor.
  - destruct b as [| y b]; [inversion Hls; subst; constructor |].
    cbn [map combine] in *. inversion Hls as [| r p ls' k Hr Hrest]; subst.
    constructor; [exact Hr | apply IH; exact Hrest].
Qed.

Lemma filter_index_map (A B : Type) (g : nat -> bool) (f : A -> B)
  (l : list A) :
  filter_index (fun _ j => g j) (map f l)
  = map f (filter_index (fun _ j => g j) l).
Proof. apply filter_from_map. Qed.

Lemma G_M_BCD_run (h0 h : Heap.Store P) (l : Heap.loc) (cs : list Coordinate)
  (width resolution : R) :
  h0 `prefix_of` h -> h !! l = Some (Heap.Geom (LineString cs)) ->
  Heap.wp (Heap.G_M_BCD ctx (Heap.Ref l) width resolution) h
    (Heap.returns h0 (G_M_BCD ctx cs width resolution)).
Proof.
  intros Hgrow Hl.
  unfold Heap.G_M_BCD, G_M_BCD, TS.coordinates, TS.projectCoordinates.
  cbn [map app].
  step TS_coordinates_spec. allocated coords Hcoords.
  step TS_segment_of_spec.
  destruct (TS.segment_of cs) as [segment | c]; cbn [bind];
    [| apply thrown; assumption].
  step pairs_spec. allocated offsets Hoffsets.
  step TS_projectCoordinates_spec. allocated ps Hps.
  unfold TS.projectCoordinates in Hps. cbn [map] in Hps.
  step index_spec. step index_spec. cbn [nth].
  step pairs_spec. allocated offsets0 Hoffsets0.
  step TS_projectCoordinates_spec. allocated ps0 Hps0.
  step elements_spec.
  step pairs_spec. allocated offsets1 Hoffsets1.
  step TS_projectCoordinates_spec. allocated ps1 Hps1.
  step elements_spec.
  step literal_spec. allocated corners Hcorners.
  unfold TS.projectCoordinates in Hcorners. cbn [map app] in Hcorners.
  step index_spec. step index_spec. step index_spec. step index_spec.
  cbn [nth].
  step TS_segment_spec.
  destruct (TS.segment _ _) as [s0 | c]; cbn [bind];
    [| apply thrown; assumption].
  step TS_segmentize_spec.
  destruct (TS.segmentize s0 _) as [side0 | c]; cbn [bind];
    [| apply thrown; assumption].
  allocated l0 Hl0.
  step filter_spec. allocated evens Hevens.
  rewrite (filter_index_map _ _ (fun i => (i mod 2 =? 0)%nat)) in Hevens.
  step TS_segment_spec.
  destruct (TS.segment _ _) as [s1 | c]; cbn [bind];
    [| apply thrown; assumption].
  step TS_segmentize_spec.
  destruct (TS.segmentize s1 _) as [side1 | c]; cbn [bind];
    [| apply thrown; assumption].
  allocated l1 Hl1.
  step filter_spec. allocated odds Hodds.
  rewrite (filter_index_map _ _ (fun i => negb (i mod 2 =? 0)%nat)) in Hodds.
  apply wp_andThen. eapply R_zip_spec; [exact Hevens | exact Hodds |].
  intros zipped inner hz Hx Hzipped Hinner. apply zipped_coordinates in Hinner.
  carry Hx. cbv beta iota.
  apply wp_andThen. eapply R_flatten_spec; [exact Hzipped | exact Hinner |].
  clear Hinner. allocated x Hflat.
  rewrite <- flat_map_concat_map in Hflat.
  step TS_lineBuffer_spec. allocated buffer Hbuffer.
  step TS_boundary_spec. allocated outline Houtline.
  step TS_startPoint_spec.
  destruct (TS.startPoint cs) as [first | c]; cbn [bind];
    [| apply thrown; assumption].
  step TS_pointBuffer_spec. allocated cap0 Hcap0.
  step TS_endPoint_spec.
  destruct (TS.endPoint cs) as [final | c]; cbn [bind];
    [| apply thrown; assumption].
  step TS_pointBuffer_spec. allocated cap1 Hcap1.
  step literal_spec. allocated regions Hregions.
  apply wp_andThen.
  eapply (TS_difference_spec _ [outline; cap0; cap1]);
    [exact Hregions | repeat constructor; eassumption |].
  allocated gaps Hgaps.
  step styles_dashedStroke_spec. allocated dashed Hdashed.
  step TS_lineString_spec. allocated connector Hconnector.
  step styles_solidStroke_spec. allocated solid Hsolid.
  unfold Heap.literal. apply wp_alloc. intros primitives hr Hx Hfresh Hresult.
  eapply returned; eassumption.
Qed.

Lemma Forall2_three (A B : Type) (R : A -> B -> Prop) (ls : list A)
  (a b c : B) :
  Forall2 R ls [a; b; c] ->
  exists r1 r2 r3 : A, ls = [r1; r2; r3] /\ R r1 a /\ R r2 b /\ R r3 c.
Proof.
  intros H. inversion H as [| r1 ? l1 ? H1 H']; subst.
  inversion H' as [| r2 ? l2 ? H2 H'']; subst.
  inversion H'' as [| r3 ? l3 ? H3 H''']; subst.
  inversion H'''; subst. exists r1, r2, r3. auto.
Qed.

Lemma G_T_X_run (h0 h : Heap.Store P) (l : Heap.loc) (cs : list Coordinate)
  (width resolution : R) :
  h0 `prefix_of` h -> h !! l = Some (Heap.Geom (LineString cs)) ->
  Heap.wp (Heap.G_T_X ctx openArrow (Heap.Ref l) width resolution) h
    (Heap.returns h0 (G_T_X openArrow ctx cs width resolution)).
Proof.
  intros Hgrow Hl.
  unfold Heap.G_T_X, G_T_X, TS.coordinates, TS.projectCoordinates.
  step TS_coordinates_spec. allocated coords Hcoords.
  step TS_segment_of_spec.
  destruct (TS.segment_of cs) as [segment | c] eqn:Hsegment; cbn [bind];
    [| apply thrown; assumption].
  destruct cs as [| c0 [| c1 rest]]; try discriminate Hsegment.
  clear Hsegment. cbn [map app]. cbn [map] in Hcoords.
  step index_spec. cbn [nth].
  step pairs_spec. allocated offsets0 Hoffsets0.
  step TS_projectCoordinates_spec. allocated ps0 Hps0.
  step elements_spec.
  step index_spec. cbn [nth].
  step pairs_spec. allocated offsets1 Hoffsets1.
  step TS_projectCoordinates_spec. allocated ps1 Hps1.
  step elements_spec.
  step literal_spec. allocated marks Hmarks.
  unfold TS.projectCoordinates in Hmarks. cbn [map app] in Hmarks.
  do 6 step index_spec. cbn [nth].
  step index_spec. cbn [nth].
  step literal_spec. allocated pivots Hpivots.
  apply wp_andThen.
  match type of Hpivots with
  | _ = Some (Heap.Array [Heap.Coord ?a; Heap.Coord ?b; Heap.Coord ?c]) =>
      eapply (map_openArrow_spec _ _ _ [a; b; c]); [exact Hpivots |]
  end.
  intros arrows ls ha Hx Harrows Hls.
  apply Forall2_three in Hls.
  destruct Hls as (arrow0 & arrow1 & arrow2 & -> & Harrow0 & Harrow1 & Harrow2).
  carry Hx. cbv beta iota.
  step literal_spec. allocated ends0 Hends0.
  apply wp_andThen.
  match type of Hends0 with
  | _ = Some (Heap.Array [Heap.Coord ?a; Heap.Coord ?b]) =>
      eapply (TS_lineString_spec _ [a; b]); [exact Hends0 |]
  end.
  allocated side0 Hside0.
  step literal_spec. allocated ends1 Hends1.
  apply wp_andThen.
  match type of Hends1 with
  | _ = Some (Heap.Array [Heap.Coord ?a; Heap.Coord ?b]) =>
      eapply (TS_lineString_spec _ [a; b]); [exact Hends1 |]
  end.
  allocated side1 Hside1.
  step literal_spec. allocated ends2 Hends2.
  apply wp_andThen.
  match type of Hends2 with
  | _ = Some (Heap.Array [Heap.Coord ?a; Heap.Coord ?b]) =>
      eapply (TS_lineString_spec _ [a; b]); [exact Hends2 |]
  end.
  allocated bar Hbar.
  step elements_spec. cbn [map app].
  step literal_spec. allocated members Hmembers.
  apply wp_andThen.
  eapply (TS_collect_spec _ [l; side0; side1; bar; arrow0; arrow1; arrow2]);
    [exact Hmembers | repeat constructor; eassumption |].
  allocated geometry Hgeometry.
  step styles_defaultStroke_spec. allocated stroke Hstroke.
  step TS_point_spec. allocated anchor Hanchor.
  step styles_text_spec. allocated label Hlabel.
  unfold Heap.literal. apply wp_alloc. intros primitives hr Hx Hfresh Hresult.
  eapply returned; eassumption.
Qed.

(** ** Calls of the entry point *)

Lemma synthesize_run (h0 h : Heap.Store P) (id : string) (l : Heap.loc)
  (cs : list Coordinate) (width resolution : R) :
  h0 `prefix_of` h -> h !! l = Some (Heap.Geom (LineString cs)) ->
  Heap.wp
    (Heap.synthesize (Heap.loaded ctx openArrow) id (Heap.Ref l) width resolution)
    h
    (Heap.returns h0 (synthesize (loaded openArrow) ctx id cs width resolution)).
Proof.
  intros Hgrow Hl.
  unfold Heap.synthesize, Heap.loaded, synthesize, loaded, register, Generator.
  destruct (decide (id = "G*T*X-----"%string)) as [-> | Hx].
  - rewrite !lookup_insert_eq.
    destruct (Rle_dec width 0); [apply thrown; assumption |].
    destruct (Rle_dec resolution 0); [apply thrown; assumption |].
    apply G_T_X_run; assumption.
  - rewrite !(lookup_insert_ne _ "G*T*X-----"%string id) by congruence.
    destruct (decide (id = "G*M*BCD---"%string)) as [-> | Hm].
    + rewrite !lookup_insert_eq.
      destruct (Rle_dec width 0); [apply thrown; assumption |].
      destruct (Rle_dec resolution 0); [apply thrown; assumption |].
      apply G_M_BCD_run; assumption.
    + rewrite !(lookup_insert_ne _ "G*M*BCD---"%string id) by congruence.
      rewrite !lookup_empty. apply thrown. assumption.
Qed.

Lemma outcome_allocated (h : Heap.Store P) (l : Heap.loc)
  (o : result (list P)) :
  Heap.outcome h (Ok (Heap.Ref l)) = Some o -> h !! l <> None.
Proof.
  unfold Heap.outcome, Heap.primitives_at, Heap.array.
  destruct (h !! l); [discriminate | discriminate].
Qed.

(** C5: a call of the entry point on the objects of the program only
    allocates: whatever the store and the arguments, the store it leaves
    is the one it found, followed by new objects, so that neither the
    base geometry nor any other object that existed has been written.
    For a base geometry that is a LineString, two identical calls, one
    after the other, end with the same outcome: the outcome of either,
    read through the store after both, is the outcome of the registered
    generator on the coordinates of the geometry, which is as it was; two
    returned arrays are two objects, equal in what they hold. *)
Theorem calls_are_pure (id : string) (baseGeometry : Heap.Value)
  (width resolution : R) (h : Heap.Store P) :
  (exists new : list (Heap.Object P),
      snd (Heap.synthesize (Heap.loaded ctx openArrow) id baseGeometry
             width resolution h)
      = h ++ new)
  /\ (forall (l : Heap.loc) (cs : list Coordinate),
        baseGeometry = Heap.Ref l ->
        h !! l = Some (Heap.Geom (LineString cs)) ->
        exists (out1 out2 : result Heap.Value) (h1 h2 : Heap.Store P),
          Heap.synthesize (Heap.loaded ctx openArrow) id baseGeometry
            width resolution h
          = (out1, h1)
          /\ Heap.synthesize (Heap.loaded ctx openArrow) id baseGeometry
               width resolution h1
             = (out2, h2)
          /\ h2 !! l = Some (Heap.Geom (LineString cs))
          /\ Heap.outcome h1 out1
             = Some (synthesize (loaded openArrow) ctx id cs width resolution)
          /\ Heap.outcome h2 out1
             = Some (synthesize (loaded openArrow) ctx id cs width resolution)
          /\ Heap.outcome h2 out2
             = Some (synthesize (loaded openArrow) ctx id cs width resolution)
          /\ (forall v1 v2 : Heap.Value,
                out1 = Ok v1 -> out2 = Ok v2 -> v1 <> v2)).
Proof.
  split; [apply synthesize_allocates_only |].
  intros l cs -> Hl.
  pose proof (synthesize_run h h id l cs width resolution
                (reflexivity h) Hl) as Hfirst.
  unfold Heap.wp in Hfirst.
  destruct (Heap.synthesize (Heap.loaded ctx openArrow) id (Heap.Ref l)
              width resolution h) as [out1 h1] eqn:Hcall1.
  cbn [fst snd] in Hfirst. destruct Hfirst as (Hgrown1 & Hout1 & Hnew1).
  assert (h1 !! l = Some (Heap.Geom (LineString cs))) as Hl1
    by exact (prefix_lookup_Some _ _ _ _ Hl Hgrown1).
  pose proof (synthesize_run h1 h1 id l cs width resolution
                (reflexivity h1) Hl1) as Hsecond.
  unfold Heap.wp in Hsecond.
  destruct (Heap.synthesize (Heap.loaded ctx openArrow) id (Heap.Ref l)
              width resolution h1) as [out2 h2] eqn:Hcall2.
  cbn [fst snd] in Hsecond. destruct Hsecond as (Hgrown2 & Hout2 & Hnew2).
  exists out1, out2, h1, h2.
  split; [reflexivity |]. split; [exact Hcall2 |].
  split; [exact (prefix_lookup_Some _ _ _ _ Hl1 Hgrown2) |].
  split; [exact Hout1 |].
  split; [exact (outcome_grown h1 h2 out1 _ Hgrown2 Hout1) |].
  split; [exact Hout2 |].
  intros v1 v2 -> ->.
  destruct (Hnew1 v1 eq_refl) as (l1 & -> & _).
  destruct (Hnew2 v2 eq_refl) as (l2 & -> & Hfresh2).
  apply outcome_allocated in Hout1. congruence.
Qed.

End Calls.

Lemma calls_are_pure_witness :
  let h : Heap.Store Primitive := [Heap.Geom (LineString lineB)] in
  h !! 0%nat = Some (Heap.Geom (LineString lineB))
  /\ exists (out1 out2 : result Heap.Value) (h1 h2 : Heap.Store Primitive),
       Heap.synthesize (Heap.loaded drawable marker) "G*T*X-----" (Heap.Ref 0)
         4 1 h
       = (out1, h1)
       /\ Heap.synthesize (Heap.loaded drawable marker) "G*T*X-----"
            (Heap.Ref 0) 4 1 h1
          = (out2, h2)
       /\ h2 !! 0%nat = Some (Heap.Geom (LineString lineB))
       /\ Heap.outcome h2 out1
          = Some (synthesize (loaded marker) drawable "G*T*X-----" lineB 4 1)
       /\ Heap.outcome h2 out2
          = Some (synthesize (loaded marker) drawable "G*T*X-----" lineB 4 1).
Proof.
  intros h.
  assert (h !! 0%nat = Some (Heap.Geom (LineString lineB))) as Hl by reflexivity.
  split; [exact Hl |].
  destruct (proj2 (calls_are_pure Primitive drawable marker "G*T*X-----"
                     (Heap.Ref 0) 4 1 h) 0%nat lineB eq_refl Hl)
    as (out1 & out2 & h1 & h2 & H1 & H2 & Hkept & _ & Hout1 & Hout2 & _).
  exists out1, out2, h1, h2. auto.
Defined.

(** * Parameter validation *)

Lemma G_T_X_zero_width (openArrow : R -> R -> Coordinate -> Geometry)
  (P : Type) (ctx : styles.context P) (resolution : R) :
  exists stroke label : P,
    G_T_X openArrow ctx lineB 0 resolution = Ok [stroke; label].
Proof.
  unfold lineB. rewrite G_T_X_ok.
  - unfold task_primitives. eexists. eexists. reflexivity.
  - simpl. intros H. apply (f_equal x) in H. simpl in H. lra.
Qed.

Lemma ford_corner_zero_width (s : Segment) (resolution along : R) :
  ford_corner s 0 resolution 1 along = ford_corner s 0 resolution (-1) along.
Proof.
  unfold ford_corner, TS.projectCoordinate, TS.dir, TS.perp. simpl.
  f_equal; unfold Rdiv; ring.
Qed.

Lemma G_M_BCD_zero_width (P : Type) (ctx : styles.context P) (resolution : R) :
  G_M_BCD ctx lineA 0 resolution = Err DegenerateGeometry.
Proof.
  unfold G_M_BCD, lineA, TS.coordinates, TS.segment_of.
  rewrite segment_ok.
  - cbn [bind List.last]. cbn [TS.projectCoordinates map app].
    set (s := mkSegment (mkCoordinate 0 0) (mkCoordinate 100 0)).
    fold (ford_corner s 0 resolution 1 (-1)).
    fold (ford_corner s 0 resolution (-1) (-1)).
    rewrite (ford_corner_zero_width s resolution (-1)).
    rewrite segment_degenerate. reflexivity.
  - simpl. intros H. apply (f_equal x) in H. simpl in H. lra.
Qed.

(** C6: for every registered identifier, [synthesize] with a width or a
    resolution that is zero or negative fails with [InvalidParameter]. *)
Theorem synthesize_invalid (P : Type) (registry : gmap string (Generator P))
  (ctx : styles.context P) (id : string) (generator : Generator P)
  (baseGeometry : list Coordinate) (width resolution : R) :
  registry !! id = Some generator ->
  width <= 0 \/ resolution <= 0 ->
  synthesize registry ctx id baseGeometry width resolution = Err InvalidParameter.
Proof.
  intros Hid Hbad. unfold synthesize, Generator in *. rewrite Hid.
  destruct (Rle_dec width 0) as [Hw | Hw]; [reflexivity |].
  destruct (Rle_dec resolution 0) as [Hr | Hr]; [reflexivity |].
  destruct Hbad; contradiction.
Qed.

Lemma synthesize_invalid_witness :
  loaded marker !! "G*T*X-----"%string = Some (@G_T_X marker Primitive)
  /\ (0 <= 0 \/ 1 <= 0)
  /\ synthesize (loaded marker) drawable "G*T*X-----" lineB 0 1
     = Err InvalidParameter.
Proof.
  assert (loaded marker !! "G*T*X-----"%string = Some (@G_T_X marker Primitive))
    as Hid by (unfold loaded, register; apply lookup_insert_eq).
  assert (0 <= 0 \/ 1 <= 0) as Hbad by (left; lra).
  split; [exact Hid |]. split; [exact Hbad |].
  exact (synthesize_invalid Primitive (loaded marker) drawable "G*T*X-----"
           (@G_T_X marker Primitive) lineB 0 1 Hid Hbad).
Defined.

(** * Search queries *)

Lemma split_not_nil (sep : code_unit) (s : jsstring) :
  MiniSearch.split sep s <> [].
Proof.
  induction s as [| c s IH]; simpl; [discriminate |].
  destruct (N.eqb c sep); [discriminate |].
  destruct (MiniSearch.split sep s); discriminate.
Qed.

Lemma split_app (sep : code_unit) (s1 s2 : jsstring) :
  MiniSearch.split sep (s1 ++ sep :: s2)
  = MiniSearch.split sep s1 ++ MiniSearch.split sep s2.
Proof.
  induction s1 as [| c s1 IH]; simpl.
  - rewrite N.eqb_refl. reflexivity.
  - rewrite IH. destruct (N.eqb c sep); [reflexivity |].
    pose proof (split_not_nil sep s1) as Hne.
    destruct (MiniSearch.split sep s1) as [| t ts]; [contradiction | reflexivity].
Qed.

Lemma split_sep_free (sep : code_unit) (s : jsstring) :
  Forall (fun t => ~ In sep t) (MiniSearch.split sep s).
Proof.
  induction s as [| c s IH]; simpl.
  - constructor; [intros [] | constructor].
  - destruct (N.eqb_spec c sep) as [-> | Hne].
    + constructor; [intros [] | exact IH].
    + destruct (MiniSearch.split sep s) as [| t ts]; simpl.
      * constructor; [| constructor]. intros [H | []]. congruence.
      * inversion IH as [| ? ? Ht Hts]; subst. constructor; [| exact Hts].
        intros [H | H]; [congruence | contradiction].
Qed.

Lemma join_split (sep : code_unit) (s : jsstring) :
  MiniSearch.join sep (MiniSearch.split sep s) = s.
Proof.
  induction s as [| c s IH]; simpl; [reflexivity |].
  pose proof (split_not_nil sep s) as Hne.
  destruct (N.eqb_spec c sep) as [-> | Hc].
  - destruct (MiniSearch.split sep s) as [| t ts]; [contradiction |].
    simpl in *. rewrite IH. reflexivity.
  - destruct (MiniSearch.split sep s) as [| t ts]; [contradiction |].
    destruct ts as [| u ts]; simpl in *; rewrite <- IH; reflexivity.
Qed.

Lemma split_sep_free_id (sep : code_unit) (t : jsstring) :
  ~ In sep t -> MiniSearch.split sep t = [t].
Proof.
  induction t as [| c t IH]; intros Hfree; simpl; [reflexivity |].
  destruct (N.eqb_spec c sep) as [-> | Hc].
  - exfalso. apply Hfree. left. reflexivity.
  - rewrite IH; [reflexivity |]. intros H. apply Hfree. right. exact H.
Qed.

Lemma split_join (sep : code_unit) (l : list jsstring) :
  l <> [] -> Forall (fun t => ~ In sep t) l ->
  MiniSearch.split sep (MiniSearch.join sep l) = l.
Proof.
  induction l as [| t l IH]; intros Hne Hfree; [contradiction |].
  inversion Hfree as [| ? ? Ht Hl]; subst.
  destruct l as [| u l].
  - simpl. apply split_sep_free_id. exact Ht.
  - change (MiniSearch.join sep (t :: u :: l))
      with (t ++ sep :: MiniSearch.join sep (u :: l)).
    rewrite split_app, IH by (try discriminate; exact Hl).
    rewrite split_sep_free_id by exact Ht. reflexivity.
Qed.

Lemma startsWith_unit (token : jsstring) (c : code_unit) :
  MiniSearch.startsWith token [c]
  = match token with
    | d :: _ => N.eqb d c
    | [] => false
    end.
Proof. destruct token as [| d t]; simpl; [| rewrite andb_true_r]; reflexivity. Qed.

(** The groups the reducer adds to an accumulator. *)
Lemma classify_fold (ts : list jsstring) (acc : MiniSearch.Parts) :
  fold_left MiniSearch.classify ts acc
  = MiniSearch.mkParts
      (MiniSearch.scope acc
       ++ map MiniSearch.substring1 (List.filter (marked "@") ts))
      (MiniSearch.text acc ++ List.filter plain ts)
      (MiniSearch.tags acc
       ++ map MiniSearch.substring1 (List.filter (marked "#") ts))
      (MiniSearch.ids acc
       ++ map MiniSearch.substring1 (List.filter (marked "!") ts)).
Proof.
  revert acc. induction ts as [| t ts IH]; intros acc.
  - simpl. rewrite !app_nil_r. destruct acc; reflexivity.
  - cbn [fold_left]. rewrite IH. clear IH.
    unfold MiniSearch.classify, marked, plain. cbn [List.filter].
    rewrite !startsWith_unit.
    destruct t as [| c t]; cbn [MiniSearch.truthy].
    + reflexivity.
    + destruct (N.eqb_spec c (code "@")) as [-> | Hat].
      { replace (N.eqb (code "@") (code "#")) with false by reflexivity.
        replace (N.eqb (code "@") (code "!")) with false by reflexivity.
        cbn [andb negb].
        destruct (2 <? List.length (code "@" :: t))%nat; cbn [map];
          cbn [MiniSearch.scope MiniSearch.text MiniSearch.tags MiniSearch.ids];
          rewrite <- ?app_assoc; reflexivity. }
      destruct (N.eqb_spec c (code "#")) as [-> | Hhash].
      { replace (N.eqb (code "#") (code "!")) with false by reflexivity.
        cbn [andb negb].
        destruct (2 <? List.length (code "#" :: t))%nat; cbn [map];
          cbn [MiniSearch.scope MiniSearch.text MiniSearch.tags MiniSearch.ids];
          rewrite <- ?app_assoc; reflexivity. }
      destruct (N.eqb_spec c (code "!")) as [-> | Hbang].
      { cbn [andb negb].
        destruct (2 <? List.length (code "!" :: t))%nat; cbn [map];
          cbn [MiniSearch.scope MiniSearch.text MiniSearch.tags MiniSearch.ids];
          rewrite <- ?app_assoc; reflexivity. }
      cbn [andb negb map].
      cbn [MiniSearch.scope MiniSearch.text MiniSearch.tags MiniSearch.ids].
      rewrite <- ?app_assoc. reflexivity.
Qed.

Lemma parts_groups (s : option jsstring) :
  MiniSearch.parts s
  = MiniSearch.mkParts
      (map MiniSearch.substring1 (List.filter (marked "@") (MiniSearch.tokens s)))
      (List.filter plain (MiniSearch.tokens s))
      (map MiniSearch.substring1 (List.filter (marked "#") (MiniSearch.tokens s)))
      (map MiniSearch.substring1 (List.filter (marked "!") (MiniSearch.tokens s))).
Proof. unfold MiniSearch.parts. rewrite classify_fold. reflexivity. Qed.

Lemma add_group (p : MiniSearch.Parts) (field combine : string)
  (pre : option bool) (qs : list MiniSearch.SubQuery) (terms : list jsstring) :
  MiniSearch.part p field = Some terms ->
  MiniSearch.add p field combine pre qs = qs ++ group field combine pre terms.
Proof.
  intros Hp. unfold MiniSearch.add. rewrite Hp.
  destruct terms; simpl; [rewrite app_nil_r |]; reflexivity.
Qed.

Lemma parseQuery_unfold (s : option jsstring) :
  MiniSearch.parseQuery s
  = (MiniSearch.mkQuery "AND"
       (group "scope" "OR" None (scope_terms s)
        ++ group "text" "AND" (Some true) (text_terms s)
        ++ group "tags" "AND" (Some true) (tag_terms s)),
     match id_terms s with
     | [] => None
     | _ :: _ => Some (MiniSearch.filter_ids (MiniSearch.parts s))
     end).
Proof.
  unfold MiniSearch.parseQuery.
  rewrite (add_group _ "scope" "OR" None [] (MiniSearch.scope (MiniSearch.parts s)))
    by reflexivity.
  rewrite (add_group _ "text" "AND" (Some true) _ (MiniSearch.text (MiniSearch.parts s)))
    by reflexivity.
  rewrite (add_group _ "tags" "AND" (Some true) _ (MiniSearch.tags (MiniSearch.parts s)))
    by reflexivity.
  assert (MiniSearch.scope (MiniSearch.parts s) = scope_terms s) as ->
    by (rewrite parts_groups; reflexivity).
  assert (MiniSearch.text (MiniSearch.parts s) = text_terms s) as ->
    by (rewrite parts_groups; reflexivity).
  assert (MiniSearch.tags (MiniSearch.parts s) = tag_terms s) as ->
    by (rewrite parts_groups; reflexivity).
  assert (MiniSearch.ids (MiniSearch.parts s) = id_terms s) as ->
    by (rewrite parts_groups; reflexivity).
  rewrite <- app_assoc. cbn [app].
  destruct (id_terms s); reflexivity.
Qed.

(** The query [parseQuery] builds is [AND] over up to three sub-queries,
    in the order scope, text, tags, one for each group that has a term:
    the scope terms are the tokens that begin with [@] and have a length
    of more than two code units, without the [@], combined with [OR];
    the text terms are the non-empty tokens that begin with none of [@],
    [#], [!]; the tag terms are the tokens that begin with [#] and have a
    length of more than two code units, without the [#]; text and tags
    are combined with [AND] as prefixes.  Within a group the terms keep
    the order of the tokens. *)
Theorem parseQuery_query (s : option jsstring) :
  fst (MiniSearch.parseQuery s)
  = MiniSearch.mkQuery "AND"
      (group "scope" "OR" None
         (map MiniSearch.substring1
            (List.filter (marked "@") (MiniSearch.tokens s)))
       ++ group "text" "AND" (Some true)
            (List.filter plain (MiniSearch.tokens s))
       ++ group "tags" "AND" (Some true)
            (map MiniSearch.substring1
               (List.filter (marked "#") (MiniSearch.tokens s)))).
Proof. rewrite parseQuery_unfold. reflexivity. Qed.

Lemma all_blank_tokens (t : jsstring) :
  Forall (fun c => c = code " ") t ->
  Forall (fun token => token = []) (MiniSearch.split (code " ") t).
Proof.
  induction t as [| c t IH]; intros Hb; simpl.
  - constructor; [reflexivity | constructor].
  - inversion Hb as [| ? ? Hc Ht]; subst. rewrite N.eqb_refl.
    constructor; [reflexivity | apply IH; exact Ht].
Qed.

Lemma filter_none (A : Type) (f : A -> bool) (l : list A) :
  Forall (fun a => f a = false) l -> List.filter f l = [].
Proof.
  induction 1 as [| a l Ha _ IH]; simpl; [reflexivity |].
  rewrite Ha. exact IH.
Qed.

(** A missing query, the empty string and a string of blanks parse to the
    query without sub-queries and without a filter. *)
Theorem parseQuery_blank (s : option jsstring) :
  match s with
  | None => True
  | Some t => Forall (fun c => c = code " ") t
  end ->
  MiniSearch.parseQuery s = (MiniSearch.mkQuery "AND" [], None).
Proof.
  intros Hs.
  assert (Forall (fun token => token = []) (MiniSearch.tokens s)) as Ht.
  { unfold MiniSearch.tokens. destruct s as [t |].
    - apply all_blank_tokens. exact Hs.
    - constructor; [reflexivity | constructor]. }
  rewrite parseQuery_unfold. unfold scope_terms, text_terms, tag_terms, id_terms.
  rewrite !filter_none; [reflexivity | | | |];
    (eapply List.Forall_impl; [| exact Ht]); intros a ->; reflexivity.
Qed.

Lemma parseQuery_blank_witness :
  Forall (fun c => c = code " ") (js "   ")
  /\ MiniSearch.parseQuery (Some (js "   ")) = (MiniSearch.mkQuery "AND" [], None).
Proof.
  assert (Forall (fun c => c = code " ") (js "   ")) as H
    by (repeat constructor).
  split; [exact H |].
  exact (parseQuery_blank (Some (js "   ")) H).
Defined.

Lemma tokens_blank_free (s : option jsstring) :
  Forall (fun t => ~ has_char " " t) (MiniSearch.tokens s).
Proof. unfold MiniSearch.tokens. apply split_sep_free. Qed.

Lemma marked_term (c : ascii) (t : jsstring) :
  marked c t = true -> ~ has_char " " t ->
  (2 <= List.length (MiniSearch.substring1 t))%nat
  /\ ~ has_char " " (MiniSearch.substring1 t).
Proof.
  unfold marked, has_char. intros Hm Hfree.
  apply andb_prop in Hm. destruct Hm as [_ Hlen].
  apply Nat.ltb_lt in Hlen.
  destruct t as [| c' t]; simpl in *; [lia |].
  split; [lia |]. intros H. apply Hfree. right. exact H.
Qed.

Lemma plain_term (t : jsstring) : plain t = true -> (1 <= List.length t)%nat.
Proof.
  unfold plain. intros H. apply andb_prop in H. destruct H as [_ H].
  destruct t; simpl in *; [discriminate | lia].
Qed.

Lemma marked_terms (c : ascii) (s : option jsstring) (t : jsstring) :
  In t (map MiniSearch.substring1 (List.filter (marked c) (MiniSearch.tokens s))) ->
  (2 <= List.length t)%nat /\ ~ has_char " " t.
Proof.
  intros Hin. apply in_map_iff in Hin. destruct Hin as (u & <- & Hu).
  apply filter_In in Hu. destruct Hu as [Hu Hm].
  apply (marked_term c u Hm).
  pose proof (tokens_blank_free s) as Hfree.
  rewrite List.Forall_forall in Hfree. apply Hfree. exact Hu.
Qed.

Lemma in_group (field combine : string) (pre : option bool)
  (terms : list jsstring) (q : MiniSearch.SubQuery) :
  In q (group field combine pre terms) ->
  terms <> [] /\ q = MiniSearch.mkSubQuery [field] combine terms pre.
Proof.
  destruct terms as [| t terms]; simpl; [intros [] |].
  intros [<- | []]. split; [discriminate | reflexivity].
Qed.

(** Every sub-query of a parsed query has at least one term, and every
    term is non-empty and contains no blank; the terms of the scope and
    the tags sub-queries have a length of at least two code units. *)
Theorem parseQuery_terms (s : option jsstring) (q : MiniSearch.SubQuery) :
  In q (MiniSearch.query_queries (fst (MiniSearch.parseQuery s))) ->
  MiniSearch.queries q <> []
  /\ (forall t : jsstring, In t (MiniSearch.queries q) ->
        (1 <= List.length t)%nat /\ ~ has_char " " t)
  /\ (MiniSearch.fields q <> ["text"%string] ->
      forall t : jsstring, In t (MiniSearch.queries q) ->
        (2 <= List.length t)%nat).
Proof.
  rewrite parseQuery_unfold. cbn [fst MiniSearch.query_queries].
  unfold scope_terms, text_terms, tag_terms.
  intros Hin. rewrite !in_app_iff in Hin.
  destruct Hin as [Hin | [Hin | Hin]];
    apply in_group in Hin; destruct Hin as [Hne ->];
    cbn [MiniSearch.queries MiniSearch.fields];
    (split; [exact Hne |]).
  - split.
    + intros t Ht. apply marked_terms in Ht. destruct Ht; split; [lia | assumption].
    + intros _ t Ht. apply marked_terms in Ht. tauto.
  - split.
    + intros t Ht. apply filter_In in Ht. destruct Ht as [Ht Hp].
      split; [apply plain_term; exact Hp |].
      pose proof (tokens_blank_free s) as Hfree.
      rewrite List.Forall_forall in Hfree. apply Hfree. exact Ht.
    + intros Hf. contradiction Hf. reflexivity.
  - split.
    + intros t Ht. apply marked_terms in Ht. destruct Ht; split; [lia | assumption].
    + intros _ t Ht. apply marked_terms in Ht. tauto.
Qed.

Lemma parseQuery_terms_witness :
  In (MiniSearch.mkSubQuery ["scope"%string] "OR" [js "layer"] None)
     (MiniSearch.query_queries
        (fst (MiniSearch.parseQuery (Some (js "@layer bridge @x")))))
  /\ [js "layer"] <> [].
Proof.
  assert (In (MiniSearch.mkSubQuery ["scope"%string] "OR" [js "layer"] None)
            (MiniSearch.query_queries
               (fst (MiniSearch.parseQuery (Some (js "@layer bridge @x"))))))
    as H by (left; reflexivity).
  split; [exact H |].
  exact (proj1 (parseQuery_terms _ _ H)).
Defined.

Lemma startsWith_append (s p : jsstring) :
  MiniSearch.startsWith s p = true <-> exists rest : jsstring, s = p ++ rest.
Proof.
  revert s. induction p as [| c p IH]; intros s.
  - split; [intros _; exists s; reflexivity | reflexivity].
  - destruct s as [| d s]; simpl.
    + split; [discriminate | intros [rest H]; discriminate].
    + rewrite andb_true_iff, IH, N.eqb_eq. split.
      * intros [-> [rest ->]]. exists rest. reflexivity.
      * intros [rest H]. injection H as -> ->. split; [reflexivity |].
        exists rest. reflexivity.
Qed.

Lemma filter_filter_implied (A : Type) (f g : A -> bool) (l : list A) :
  (forall a, f a = true -> g a = true) ->
  List.filter f (List.filter g l) = List.filter f l.
Proof.
  intros Himp. induction l as [| a l IH]; [reflexivity |].
  cbn [List.filter]. destruct (g a) eqn:Hg.
  - cbn [List.filter]. rewrite IH. reflexivity.
  - rewrite IH. destruct (f a) eqn:Hf; [| reflexivity].
    apply Himp in Hf. congruence.
Qed.

Lemma marked_no_id (c : ascii) (t : jsstring) :
  In c ["@"%char; "#"%char] -> marked c t = true ->
  negb (MiniSearch.startsWith t [code "!"]) = true.
Proof.
  unfold marked. intros Hc Hm. apply andb_prop in Hm. destruct Hm as [Hm _].
  rewrite startsWith_unit in *. destruct t as [| d t]; [reflexivity |].
  apply N.eqb_eq in Hm. subst d.
  destruct Hc as [<- | [<- | []]]; reflexivity.
Qed.

Lemma plain_no_id (t : jsstring) :
  plain t = true -> negb (MiniSearch.startsWith t [code "!"]) = true.
Proof.
  unfold plain. intros H. apply andb_prop in H. destruct H as [H _].
  apply andb_prop in H. destruct H as [_ H]. exact H.
Qed.

(** [parseQuery] returns a filter exactly when some token begins with [!]
    and has a length of more than two code units.  The filter accepts a
    result if and only if the [id] of the result begins with one of these
    tokens, stripped of the [!].  The tokens that begin with [!] never
    enter the query: two strings whose other tokens are the same give the
    same query. *)
Theorem parseQuery_filter (s : option jsstring) :
  match snd (MiniSearch.parseQuery s) with
  | None => List.filter (marked "!") (MiniSearch.tokens s) = []
  | Some filter =>
      List.filter (marked "!") (MiniSearch.tokens s) <> []
      /\ forall result_id : jsstring,
           filter result_id = true
           <-> exists token rest : jsstring,
                 In token (MiniSearch.tokens s)
                 /\ marked "!" token = true
                 /\ token ++ rest = code "!" :: result_id
  end
  /\ forall s' : option jsstring,
       List.filter (fun t => negb (MiniSearch.startsWith t [code "!"]))
         (MiniSearch.tokens s)
       = List.filter (fun t => negb (MiniSearch.startsWith t [code "!"]))
           (MiniSearch.tokens s') ->
       fst (MiniSearch.parseQuery s) = fst (MiniSearch.parseQuery s').
Proof.
  split.
  - rewrite parseQuery_unfold. cbn [snd]. unfold id_terms.
    destruct (List.filter (marked "!") (MiniSearch.tokens s)) as [| t ts] eqn:Hf;
      cbn [map]; [reflexivity |].
    split; [discriminate |].
    intros result_id. unfold MiniSearch.filter_ids.
    rewrite parts_groups. cbn [MiniSearch.ids]. rewrite Hf.
    rewrite existsb_exists. split.
    + intros (id & Hin & Hpre).
      apply in_map_iff in Hin. destruct Hin as (token & <- & Htok).
      rewrite <- Hf in Htok. apply filter_In in Htok. destruct Htok as [Htok Hm].
      apply startsWith_append in Hpre. destruct Hpre as [rest ->].
      exists token, rest. split; [exact Htok |]. split; [exact Hm |].
      unfold marked in Hm. apply andb_prop in Hm. destruct Hm as [Hstart _].
      rewrite startsWith_unit in Hstart.
      destruct token as [| c token]; [discriminate |].
      apply N.eqb_eq in Hstart. subst c. reflexivity.
    + intros (token & rest & Htok & Hm & Heq).
      exists (MiniSearch.substring1 token). split.
      * apply in_map_iff. exists token. split; [reflexivity |].
        rewrite <- Hf. apply filter_In. split; assumption.
      * apply startsWith_append. exists rest.
        destruct token as [| c token]; [discriminate |].
        simpl in Heq. injection Heq as _ Heq. symmetry. exact Heq.
  - intros s' Hsame. rewrite !parseQuery_unfold. cbn [fst].
    unfold scope_terms, text_terms, tag_terms.
    assert (forall a, marked "@" a = true
              -> negb (MiniSearch.startsWith a [code "!"]) = true) as Hscope
      by (intros a; apply marked_no_id; simpl; tauto).
    assert (forall a, marked "#" a = true
              -> negb (MiniSearch.startsWith a [code "!"]) = true) as Htags
      by (intros a; apply marked_no_id; simpl; tauto).
    rewrite <- (filter_filter_implied _ _ _ (MiniSearch.tokens s) Hscope).
    rewrite <- (filter_filter_implied _ _ _ (MiniSearch.tokens s) Htags).
    rewrite <- (filter_filter_implied _ _ _ (MiniSearch.tokens s) plain_no_id).
    rewrite Hsame.
    rewrite (filter_filter_implied _ _ _ (MiniSearch.tokens s') Hscope).
    rewrite (filter_filter_implied _ _ _ (MiniSearch.tokens s') Htags).
    rewrite (filter_filter_implied _ _ _ (MiniSearch.tokens s') plain_no_id).
    reflexivity.
Qed.

Lemma filter_all (A : Type) (f : A -> bool) (l : list A) :
  Forall (fun a => f a = true) l -> List.filter f l = l.
Proof.
  induction 1 as [| a l Ha _ IH]; simpl; [reflexivity |].
  rewrite Ha, IH. reflexivity.
Qed.

Lemma plain_not_marked (c : ascii) (t : jsstring) :
  In c ["@"%char; "#"%char; "!"%char] -> plain t = true -> marked c t = false.
Proof.
  unfold plain, marked. intros Hc Hp.
  apply andb_prop in Hp. destruct Hp as [Hp _].
  apply andb_prop in Hp. destruct Hp as [Hp H3].
  apply andb_prop in Hp. destruct Hp as [H1 H2].
  apply negb_true_iff in H1, H2, H3.
  destruct Hc as [<- | [<- | [<- | []]]]; [rewrite H1 | rewrite H2 | rewrite H3];
    reflexivity.
Qed.

(** Words that are not empty, contain no blank and begin with none of
    [@], [#], [!], joined by single blanks, parse to the one text
    sub-query whose terms are these words, in their order, without a
    filter. *)
Theorem parseQuery_words (words : list jsstring) :
  words <> [] ->
  Forall (fun w => plain w = true /\ ~ has_char " " w) words ->
  MiniSearch.parseQuery (Some (MiniSearch.join (code " ") words))
  = (MiniSearch.mkQuery "AND"
       [MiniSearch.mkSubQuery ["text"%string] "AND" words (Some true)],
     None).
Proof.
  intros Hne Hw.
  assert (MiniSearch.tokens (Some (MiniSearch.join (code " ") words)) = words)
    as Ht.
  { unfold MiniSearch.tokens. apply split_join; [exact Hne |].
    eapply List.Forall_impl; [| exact Hw]. intros w [_ H]. exact H. }
  rewrite parseQuery_unfold.
  unfold scope_terms, text_terms, tag_terms, id_terms. rewrite Ht.
  rewrite (filter_all _ plain words)
    by (eapply List.Forall_impl; [| exact Hw]; intros w [H _]; exact H).
  rewrite !filter_none;
    try (eapply List.Forall_impl; [| exact Hw]; intros w [H _];
         apply plain_not_marked; [simpl; tauto | exact H]).
  destruct words; [contradiction | reflexivity].
Qed.

Lemma parseQuery_words_witness :
  [js "ford"; js "difficult"] <> []
  /\ MiniSearch.parseQuery (Some (js "ford difficult"))
     = (MiniSearch.mkQuery "AND"
          [MiniSearch.mkSubQuery ["text"%string] "AND"
             [js "ford"; js "difficult"] (Some true)],
        None).
Proof.
  assert ([js "ford"; js "difficult"] <> []) as Hne by discriminate.
  split; [exact Hne |].
  apply (parseQuery_words [js "ford"; js "difficult"] Hne).
  repeat constructor; unfold has_char; simpl; intros H;
    repeat (destruct H as [H | H]; [discriminate H |]); exact H.
Defined.

Lemma parts_joined (s1 s2 : jsstring) :
  MiniSearch.parts (Some (s1 ++ code " " :: s2))
  = append_parts (MiniSearch.parts (Some s1)) (MiniSearch.parts (Some s2)).
Proof.
  rewrite !parts_groups. unfold MiniSearch.tokens, append_parts.
  rewrite split_app. cbn [MiniSearch.scope MiniSearch.text MiniSearch.tags MiniSearch.ids].
  rewrite !List.filter_app, !List.map_app. reflexivity.
Qed.

(** The groups of two queries joined by a blank are the groups of the
    first followed by the groups of the second, group by group. *)
Theorem parts_append (s1 s2 : jsstring) :
  MiniSearch.parts (Some (s1 ++ code " " :: s2))
  = MiniSearch.mkParts
      (MiniSearch.scope (MiniSearch.parts (Some s1))
       ++ MiniSearch.scope (MiniSearch.parts (Some s2)))
      (MiniSearch.text (MiniSearch.parts (Some s1))
       ++ MiniSearch.text (MiniSearch.parts (Some s2)))
      (MiniSearch.tags (MiniSearch.parts (Some s1))
       ++ MiniSearch.tags (MiniSearch.parts (Some s2)))
      (MiniSearch.ids (MiniSearch.parts (Some s1))
       ++ MiniSearch.ids (MiniSearch.parts (Some s2))).
Proof. apply parts_joined. Qed.

(** What [parseQuery] drops: an empty token, and a token that begins with
    [@], [#] or [!] and has a length of at most two code units, change
    nothing when they are added to a query; so blanks at the end of a
    query and repeated blanks are of no account. *)
Theorem parseQuery_ignored (s token : jsstring) :
  ~ has_char " " token ->
  token = []
  \/ (exists c : ascii,
        In c ["@"%char; "#"%char; "!"%char]
        /\ MiniSearch.startsWith token [code c] = true
        /\ (List.length token <= 2)%nat) ->
  MiniSearch.parseQuery (Some (s ++ code " " :: token))
  = MiniSearch.parseQuery (Some s).
Proof.
  intros Hfree Hcase.
  assert (MiniSearch.parts (Some token) = MiniSearch.mkParts [] [] [] []) as Ht.
  { unfold MiniSearch.parts, MiniSearch.tokens.
    rewrite (split_sep_free_id (code " ") token Hfree). cbn [fold_left].
    destruct Hcase as [-> | (c & Hc & Hstart & Hlen)]; [reflexivity |].
    unfold MiniSearch.classify.
    assert ((2 <? List.length token)%nat = false) as -> by (apply Nat.ltb_ge; lia).
    rewrite !startsWith_unit in *.
    destruct token as [| d token]; [discriminate |].
    apply N.eqb_eq in Hstart. subst d.
    destruct Hc as [<- | [<- | [<- | []]]]; reflexivity. }
  assert (MiniSearch.parts (Some (s ++ code " " :: token))
          = MiniSearch.parts (Some s)) as Hp.
  { rewrite parts_joined, Ht. generalize (MiniSearch.parts (Some s)).
    intros [sc tx tg id]. unfold append_parts.
    cbn [MiniSearch.scope MiniSearch.text MiniSearch.tags MiniSearch.ids].
    rewrite !app_nil_r. reflexivity. }
  unfold MiniSearch.parseQuery. rewrite Hp. reflexivity.
Qed.

(** An instance: the token [@] followed by the one code unit 252 of the
    letter u with diaeresis, whose length is two. *)
Lemma parseQuery_ignored_witness :
  ~ has_char " " [code "@"; 252%N]
  /\ MiniSearch.parseQuery (Some (js "bridge" ++ code " " :: [code "@"; 252%N]))
     = MiniSearch.parseQuery (Some (js "bridge")).
Proof.
  assert (~ has_char " " [code "@"; 252%N]) as Hfree.
  { unfold has_char. simpl.
    intros H. repeat (destruct H as [H | H]; [discriminate H |]). exact H. }
  split; [exact Hfree |].
  apply (parseQuery_ignored (js "bridge") [code "@"; 252%N] Hfree).
  right. exists "@"%char. split; [left; reflexivity |].
  split; [reflexivity | simpl; lia].
Defined.

(** * Indexed fields *)

Lemma tag_of_flat (inner : list MiniSearch.Value) :
  Forall (fun u => is_array u = false) inner ->
  map MiniSearch.item_string (List.filter MiniSearch.truthy_value inner)
  = flat_map tag_of inner.
Proof.
  induction 1 as [| u inner Hu _ IH]; [reflexivity |].
  cbn [List.filter flat_map].
  destruct u as [| | s | l]; cbn [MiniSearch.truthy_value tag_of];
    try exact IH; [| discriminate Hu].
  destruct (MiniSearch.truthy s); cbn [map app]; [f_equal |]; exact IH.
Qed.

Lemma tag_strings_flat (items : list MiniSearch.Value) :
  shallow items ->
  map MiniSearch.item_string
    (List.filter MiniSearch.truthy_value (MiniSearch.flat items))
  = tag_strings items.
Proof.
  unfold shallow, MiniSearch.flat, tag_strings.
  induction 1 as [| v items Hv _ IH]; [reflexivity |].
  cbn [flat_map]. rewrite List.filter_app, List.map_app, IH. f_equal.
  destruct v as [| | s | inner].
  - reflexivity.
  - reflexivity.
  - cbn [List.filter MiniSearch.truthy_value tag_of].
    destruct (MiniSearch.truthy s); reflexivity.
  - apply tag_of_flat. exact Hv.
Qed.

(** For [tags] holding an array of tags and of arrays of tags,
    [extractField] returns the non-empty tags, in their order, joined by
    single blanks: empty, [null] and [undefined] entries leave no trace,
    so that splitting the text at blanks gives the tags back when there is
    one and no tag contains a blank. *)
Theorem extractField_tags (document : gmap string MiniSearch.Value)
  (items : list MiniSearch.Value) :
  document !! "tags"%string = Some (MiniSearch.VArray items) ->
  shallow items ->
  MiniSearch.extractField document "tags"
  = Ok (MiniSearch.VString (MiniSearch.join (code " ") (tag_strings items)))
  /\ (tag_strings items <> [] ->
      Forall (fun t => ~ has_char " " t) (tag_strings items) ->
      MiniSearch.split (code " ")
        (MiniSearch.join (code " ") (tag_strings items))
      = tag_strings items).
Proof.
  intros Htags Hshallow. split.
  - unfold MiniSearch.extractField. rewrite Htags.
    cbn [MiniSearch.truthy_value andb]. rewrite String.eqb_refl.
    rewrite tag_strings_flat by exact Hshallow. reflexivity.
  - intros Hne Hfree. apply split_join; assumption.
Qed.

Lemma extractField_tags_witness :
  let items :=
    [ MiniSearch.VString (js "OPEN"); MiniSearch.VNull;
      MiniSearch.VArray
        [MiniSearch.VString (js ""); MiniSearch.VString (js "SHARED")] ] in
  let document : gmap string MiniSearch.Value :=
    {[ "tags"%string := MiniSearch.VArray items ]} in
  document !! "tags"%string = Some (MiniSearch.VArray items)
  /\ shallow items
  /\ MiniSearch.extractField document "tags"
     = Ok (MiniSearch.VString (js "OPEN SHARED")).
Proof.
  intros items document.
  assert (document !! "tags"%string = Some (MiniSearch.VArray items)) as Ht
    by reflexivity.
  assert (shallow items) as Hs by (repeat constructor).
  split; [exact Ht |]. split; [exact Hs |].
  exact (proj1 (extractField_tags document items Ht Hs)).
Defined.

(** * Project list *)

Lemma includes_In (l : list string) (s : string) :
  includes l s = true <-> In s l.
Proof.
  unfold includes. rewrite existsb_exists. split.
  - intros (t & Ht & Heq). apply String.eqb_eq in Heq. subst. exact Ht.
  - intros Hs. exists s. split; [exact Hs | apply String.eqb_refl].
Qed.

Lemma invite_id (p : ProjectList.Project) :
  ProjectList.id (ProjectList.invite p) = ProjectList.id p.
Proof. reflexivity. Qed.

Lemma invited_ids (projects sharedProjects ephemeralProjects : list ProjectList.Project) :
  map ProjectList.id
    (ProjectList.invitedProjects projects sharedProjects ephemeralProjects)
  = List.filter
      (fun i => negb (includes (map ProjectList.id projects) i))
      (map ProjectList.id (sharedProjects ++ ephemeralProjects)).
Proof.
  unfold ProjectList.invitedProjects.
  induction (sharedProjects ++ ephemeralProjects) as [| p l IH]; [reflexivity |].
  cbn [List.filter map].
  destruct (negb (includes (map ProjectList.id projects) (ProjectList.id p)));
    cbn [map]; rewrite IH; reflexivity.
Qed.

(** [fetch] lists every project once: when the local projects have
    distinct ids and the invitations (shared and ephemeral together) have
    distinct ids, the entries it dispatches have distinct ids, the local
    projects coming first and unchanged. *)
Theorem fetch_distinct_ids (projects : list ProjectList.Project)
  (replication : option (list ProjectList.Project)) (projectId : option string)
  (ephemeralProjects : list ProjectList.Project) :
  List.NoDup (map ProjectList.id projects) ->
  List.NoDup (map ProjectList.id
           (match replication with
            | Some invited => invited
            | None => []
            end ++ ephemeralProjects)) ->
  exists (invited : list ProjectList.Project) (rest : list ProjectList.Action),
    ProjectList.fetch projects replication projectId ephemeralProjects
    = ProjectList.Entries (projects ++ invited) projectId :: rest
    /\ List.NoDup (map ProjectList.id (projects ++ invited))
    /\ Forall (fun e => ProjectList.tags e = Some ["INVITED"%string]) invited
    /\ (forall e : ProjectList.Project,
          In e invited
          <-> exists p : ProjectList.Project,
                In p (match replication with
                      | Some shared => shared
                      | None => []
                      end ++ ephemeralProjects)
                /\ ~ In (ProjectList.id p) (map ProjectList.id projects)
                /\ e = ProjectList.invite p).
Proof.
  intros Hlocal Hinv.
  eexists. eexists. split; [reflexivity |]. split.
  - rewrite List.map_app, invited_ids. apply List.NoDup_app.
    + exact Hlocal.
    + apply List.NoDup_filter. exact Hinv.
    + intros i Hi Hf. apply filter_In in Hf. destruct Hf as [_ Hf].
      apply negb_true_iff in Hf. apply includes_In in Hi. congruence.
  - split.
    + unfold ProjectList.invitedProjects. apply List.Forall_map.
      apply List.Forall_forall. intros p _. reflexivity.
    + intros e. unfold ProjectList.invitedProjects. rewrite in_map_iff. split.
      * intros (p & <- & Hp). apply filter_In in Hp. destruct Hp as [Hp Hf].
        exists p. split; [exact Hp |]. split; [| reflexivity].
        apply negb_true_iff in Hf. rewrite <- includes_In. congruence.
      * intros (p & Hp & Hnot & ->). exists p. split; [reflexivity |].
        apply filter_In. split; [exact Hp |].
        apply negb_true_iff. rewrite <- includes_In in Hnot.
        destruct (includes (map ProjectList.id projects) (ProjectList.id p));
          [contradiction Hnot; reflexivity | reflexivity].
Qed.

Lemma fetch_distinct_ids_witness :
  let local := ProjectList.mkProject "project:1" "Alpha" None "2024" (Some ["OPEN"%string]) in
  let remote := ProjectList.mkProject "project:2" "Bravo" None "2024" None in
  List.NoDup (map ProjectList.id [local])
  /\ List.NoDup (map ProjectList.id ([local; remote] ++ []))
  /\ exists (invited : list ProjectList.Project) (rest : list ProjectList.Action),
       ProjectList.fetch [local] (Some [local; remote]) None []
       = ProjectList.Entries ([local] ++ invited) None :: rest
       /\ List.NoDup (map ProjectList.id ([local] ++ invited)).
Proof.
  intros local remote.
  assert (List.NoDup (map ProjectList.id [local])) as H1.
  { apply List.NoDup_cons; [intros [] | apply List.NoDup_nil]. }
  assert (List.NoDup (map ProjectList.id ([local; remote] ++ []))) as H2.
  { apply List.NoDup_cons; [simpl; intros [H | []]; discriminate H |].
    apply List.NoDup_cons; [intros [] | apply List.NoDup_nil]. }
  split; [exact H1 |]. split; [exact H2 |].
  destruct (fetch_distinct_ids [local] (Some [local; remote]) None [] H1 H2)
    as (invited & rest & Hfetch & Hnodup & _).
  exists invited, rest. split; [exact Hfetch | exact Hnodup].
Defined.

(** [fetch] removes only the invitations that are local projects: an
    invitation that is not local and arrives both from the replication and
    as an ephemeral project is listed twice. *)
Theorem fetch_keeps_repeated_invitation (projects shared : list ProjectList.Project)
  (projectId : option string) (ephemeralProjects : list ProjectList.Project)
  (p : ProjectList.Project) :
  In p shared -> In p ephemeralProjects ->
  ~ In (ProjectList.id p) (map ProjectList.id projects) ->
  exists (entries : list ProjectList.Project) (rest : list ProjectList.Action),
    ProjectList.fetch projects (Some shared) projectId ephemeralProjects
    = ProjectList.Entries entries projectId :: rest
    /\ exists before between after : list ProjectList.Project,
         entries
         = before ++ ProjectList.invite p :: between
           ++ ProjectList.invite p :: after.
Proof.
  intros Hs He Hnot.
  eexists. eexists. split; [reflexivity |].
  apply in_split in Hs. destruct Hs as (s1 & s2 & ->).
  apply in_split in He. destruct He as (e1 & e2 & ->).
  unfold ProjectList.allProjects, ProjectList.invitedProjects. cbv zeta.
  set (keep := fun project : ProjectList.Project =>
                 negb (includes (map ProjectList.id projects) (ProjectList.id project))).
  assert (keep p = true) as Hk.
  { unfold keep. apply negb_true_iff. rewrite <- includes_In in Hnot.
    destruct (includes (map ProjectList.id projects) (ProjectList.id p));
      [contradiction Hnot; reflexivity | reflexivity]. }
  exists (projects ++ map ProjectList.invite (List.filter keep s1)),
    (map ProjectList.invite (List.filter keep s2)
     ++ map ProjectList.invite (List.filter keep e1)),
    (map ProjectList.invite (List.filter keep e2)).
  rewrite !List.filter_app. cbn [List.filter]. rewrite Hk.
  rewrite !List.map_app. cbn [map].
  rewrite <- !app_assoc. cbn [app]. rewrite <- ?app_assoc. reflexivity.
Qed.

Lemma fetch_keeps_repeated_invitation_witness :
  let remote := ProjectList.mkProject "project:2" "Bravo" None "2024" None in
  In remote [remote]
  /\ ~ In (ProjectList.id remote) (map ProjectList.id [])
  /\ exists (entries : list ProjectList.Project) (rest : list ProjectList.Action),
       ProjectList.fetch [] (Some [remote]) None [remote]
       = ProjectList.Entries entries None :: rest
       /\ exists before between after : list ProjectList.Project,
            entries
            = before ++ ProjectList.invite remote :: between
              ++ ProjectList.invite remote :: after.
Proof.
  intros remote.
  assert (In remote [remote]) as Hin by (left; reflexivity).
  assert (~ In (ProjectList.id remote) (map ProjectList.id [])) as Hnot
    by (intros []).
  split; [exact Hin |]. split; [exact Hnot |].
  destruct (fetch_keeps_repeated_invitation [] [remote] None [remote] remote
              Hin Hin Hnot) as (entries & rest & Hfetch & Htwice).
  exists entries, rest. split; [exact Hfetch | exact Htwice].
Defined.


(** The button bar of every item begins with [Open] and the disabled
    [Export] and ends with the one dangerous button, [Delete].  [Share] is
    never offered together with [Join] or [Members], nor for an open
    project, nor without a replication; where it is offered, [Delete] is
    enabled. *)
Theorem buttons_layout (project : ProjectList.Project)
  (replication offline linkLost : bool) :
  let bar := ProjectListItem.buttons project replication offline linkLost in
  (exists (openDisabled : bool) (middle : list ProjectListItem.Button),
      bar = ProjectListItem.mkButton "Open" (ProjectListItem.send "OPEN_PROJECT")
              openDisabled false
            :: ProjectListItem.mkButton "Export"
                 (ProjectListItem.send "EXPORT_PROJECT") true false
            :: middle
            ++ [ProjectListItem.mkButton "Delete" ProjectListItem.handleDelete
                  (ProjectListItem.tagged project "OPEN") true]
      /\ Forall (fun b => ProjectListItem.danger b = false) middle
      /\ (length middle <= 3)%nat)
  /\ (shown "Share" bar = true ->
      shown "Join" bar = false
      /\ shown "Members" bar = false
      /\ replication = true
      /\ ProjectListItem.tagged project "OPEN" = false)
  /\ (replication = false ->
      shown "Join" bar = false /\ shown "Share" bar = false
      /\ shown "Members" bar = false).
Proof.
  unfold ProjectListItem.buttons.
  generalize (ProjectListItem.tagged project "OPEN").
  generalize (ProjectListItem.tagged project "INVITED").
  generalize (ProjectListItem.tagged project "SHARED").
  intros isShared isInvited isOpen. cbv zeta.
  split.
  - exists (isInvited && negb isShared || linkLost),
      ((if replication && isInvited
        then [ProjectListItem.mkButton "Join" ProjectListItem.handleJoin offline false]
        else [])
       ++ (if replication && negb isInvited && negb isShared && negb isOpen
           then [ProjectListItem.mkButton "Share" ProjectListItem.handleShare
                   offline false]
           else [])
       ++ (if replication && isShared
           then [ProjectListItem.mkButton "Members"
                   ProjectListItem.setManagedProject false false]
           else [])
       ++ (if linkLost
           then [ProjectListItem.mkButton "Reset collaboration settings"
                   ProjectListItem.handleResetCollab false false]
           else [])).
    split; [cbn [app]; rewrite <- !app_assoc; reflexivity |].
    destruct replication, isShared, isInvited, isOpen, linkLost; cbn;
      (split; [repeat constructor | lia]).
  - destruct replication, isShared, isInvited, isOpen, linkLost; cbn;
      (split; [intros H; try discriminate H; repeat split; reflexivity |]);
      intros H; try discriminate H; repeat split; reflexivity.
Qed.

Lemma invite_tagged (p : ProjectList.Project) :
  ProjectListItem.tagged (ProjectList.invite p) "INVITED" = true
  /\ ProjectListItem.tagged (ProjectList.invite p) "SHARED" = false
  /\ ProjectListItem.tagged (ProjectList.invite p) "OPEN" = false.
Proof. repeat split; reflexivity. Qed.

(** An invitation listed by [fetch] can be joined or deleted, not opened:
    its [Open] button is disabled, [Share] and [Members] are not offered,
    [Join] is offered when there is a replication (disabled while
    offline), and [Delete] is enabled. *)
Theorem invited_buttons (projects sharedProjects ephemeralProjects : list ProjectList.Project)
  (e : ProjectList.Project) (replication offline linkLost : bool) :
  In e (ProjectList.invitedProjects projects sharedProjects ephemeralProjects) ->
  ProjectListItem.buttons e replication offline linkLost
  = [ ProjectListItem.mkButton "Open" (ProjectListItem.send "OPEN_PROJECT")
        true false;
      ProjectListItem.mkButton "Export" (ProjectListItem.send "EXPORT_PROJECT")
        true false ]
    ++ (if replication
        then [ProjectListItem.mkButton "Join" ProjectListItem.handleJoin offline false]
        else [])
    ++ (if linkLost
        then [ProjectListItem.mkButton "Reset collaboration settings"
                ProjectListItem.handleResetCollab false false]
        else [])
    ++ [ProjectListItem.mkButton "Delete" ProjectListItem.handleDelete false true].
Proof.
  unfold ProjectList.invitedProjects. intros He.
  apply in_map_iff in He. destruct He as (p & <- & _).
  unfold ProjectListItem.buttons.
  destruct (invite_tagged p) as (-> & -> & ->).
  destruct replication, linkLost; reflexivity.
Qed.

Lemma invited_buttons_witness :
  let remote := ProjectList.mkProject "project:2" "Bravo" None "2024"
                  (Some ["SHARED"%string]) in
  In (ProjectList.invite remote) (ProjectList.invitedProjects [] [remote] [])
  /\ shown "Join" (ProjectListItem.buttons (ProjectList.invite remote) true false false)
     = true.
Proof.
  intros remote.
  assert (In (ProjectList.invite remote) (ProjectList.invitedProjects [] [remote] []))
    as Hin by (left; reflexivity).
  split; [exact Hin |].
  rewrite (invited_buttons [] [remote] [] (ProjectList.invite remote) true false false Hin).
  reflexivity.
Defined.

(** * Toolbar *)

(** A click on the button of a panel checks it if it was not checked and
    unchecks it if it was, and leaves the buttons of the other panels
    unchecked: after a click at most one panel is checked. *)
Theorem toggleProperties_exclusive (type other properties : string) :
  In type panels -> In other panels -> other <> type ->
  Toolbar.checked type (Toolbar.toggleProperties type properties)
  = negb (Toolbar.checked type properties)
  /\ Toolbar.checked other (Toolbar.toggleProperties type properties) = false
  /\ Toolbar.checked type
       (Toolbar.toggleProperties type (Toolbar.toggleProperties type properties))
     = Toolbar.checked type properties.
Proof.
  intros Htype Hother Hne.
  assert (type <> EmptyString) as Hte.
  { destruct Htype as [<- | [<- | [<- | []]]]; discriminate. }
  assert (other <> EmptyString) as Hoe.
  { destruct Hother as [<- | [<- | [<- | []]]]; discriminate. }
  unfold Toolbar.checked, Toolbar.toggleProperties.
  destruct (String.eqb_spec properties type) as [-> | Hp].
  - rewrite (proj2 (String.eqb_neq EmptyString type)) by congruence.
    rewrite (proj2 (String.eqb_neq EmptyString other)) by congruence.
    rewrite String.eqb_refl. repeat split; reflexivity.
  - rewrite !String.eqb_refl.
    rewrite (proj2 (String.eqb_neq type other)) by congruence.
    rewrite (proj2 (String.eqb_neq EmptyString type)) by congruence.
    repeat split; reflexivity.
Qed.

Lemma toggleProperties_exclusive_witness :
  In "styles"%string panels /\ In "sharing"%string panels
  /\ "sharing"%string <> "styles"%string
  /\ Toolbar.checked "sharing" (Toolbar.toggleProperties "styles" "sharing") = false.
Proof.
  assert (In "styles"%string panels) as H1 by (right; left; reflexivity).
  assert (In "sharing"%string panels) as H2 by (right; right; left; reflexivity).
  assert ("sharing"%string <> "styles"%string) as H3 by discriminate.
  split; [exact H1 |]. split; [exact H2 |]. split; [exact H3 |].
  exact (proj1 (proj2 (toggleProperties_exclusive "styles" "sharing" "sharing" H1 H2 H3))).
Defined.

(** * Measuring *)

Section MeasureStyles.

Variable length angle area : Measure.Geom -> string.
Variable radiansAngle : Measure.Geom -> R.
Variable getLastSegmentCoordinates : Measure.Geom -> list Measure.Coord.
Variable getInteriorPoint : list (list Measure.Coord) -> Measure.Geom.
Variable times : R -> R -> R.
Variable Math_cos Math_sin : R -> R.
Variable Math_PI : R.

Lemma length_linestringSegments (coordinates : list Measure.Coord) :
  List.length (Measure.linestringSegments length angle coordinates)
  = (List.length coordinates - 1)%nat.
Proof.
  induction coordinates as [| a [| b rest] IH]; [reflexivity | reflexivity |].
  change (Measure.linestringSegments length angle (a :: b :: rest))
    with (Measure.linestringSegmentStyle length angle a b
          :: Measure.linestringSegments length angle (b :: rest)).
  cbn [List.length] in *. rewrite IH. lia.
Qed.

Lemma nth_linestringSegments (coordinates : list Measure.Coord) (i : nat)
  (a b : Measure.Coord) :
  nth_error coordinates i = Some a -> nth_error coordinates (S i) = Some b ->
  nth_error (Measure.linestringSegments length angle coordinates) i
  = Some (Measure.linestringSegmentStyle length angle a b).
Proof.
  revert i. induction coordinates as [| c [| d rest] IH]; intros i Ha Hb.
  - destruct i; discriminate.
  - destruct i as [| [| i]]; discriminate.
  - change (Measure.linestringSegments length angle (c :: d :: rest))
      with (Measure.linestringSegmentStyle length angle c d
            :: Measure.linestringSegments length angle (d :: rest)).
    destruct i as [| i].
    + cbn in Ha, Hb. injection Ha as <-. injection Hb as <-. reflexivity.
    + cbn [nth_error]. apply IH; assumption.
Qed.

(** The styles of a line string: after the three base styles, every
    segment has its own label, in the order of the segments and on the
    geometry of that segment, and then come the marker of the first and
    the marker of the last coordinate; a line of [n >= 1] coordinates has
    [n + 4] styles. *)
Theorem stylist_linestring (isSelected : bool)
  (coordinates : list Measure.Coord) :
  exists labels : list Measure.Style,
    Measure.stylist length angle area radiansAngle getLastSegmentCoordinates
      getInteriorPoint times Math_cos Math_sin Math_PI isSelected
      (Measure.LineString coordinates)
    = Ok (Some (Measure.baseStyle isSelected ++ labels))
    /\ List.length labels = (List.length coordinates - 1 + 2)%nat
    /\ (forall (i : nat) (a b : Measure.Coord),
          nth_error coordinates i = Some a ->
          nth_error coordinates (S i) = Some b ->
          exists t : Measure.TextStyle,
            nth_error labels i
            = Some (Measure.mkStyle (Some (Measure.LineString [a; b])) (Some t)
                      None None)
            /\ Measure.text t
               = String.append (length (Measure.LineString [a; b]))
                   (String.append Measure.nl
                      (String.append Measure.nl
                         (angle (Measure.LineString [a; b]))))
            /\ Measure.placement t = "line"%string)
    /\ (exists last : Measure.Style,
          skipn (List.length coordinates - 1) labels
          = [ Measure.mkStyle
                (Some (Measure.Point (Measure.getFirstCoordinate coordinates)))
                None None
                (Some (Measure.mkCircleStyle 6 (Measure.mkFill "green")));
              last ]
          /\ Measure.geometry last
             = Some (Measure.Point (Measure.getLastCoordinate coordinates))
          /\ Measure.image last
             = Some (Measure.mkCircleStyle 6 (Measure.mkFill "red"))).
Proof.
  eexists. split; [reflexivity |].
  split.
  { rewrite List.length_app, length_linestringSegments. reflexivity. }
  split.
  { intros i a b Ha Hb. eexists. split.
    - rewrite nth_error_app1.
      + apply nth_linestringSegments; eassumption.
      + rewrite length_linestringSegments.
        assert (S i < List.length coordinates)%nat
          by (apply nth_error_Some; congruence).
        lia.
    - split; reflexivity. }
  eexists. split.
  - rewrite <- (length_linestringSegments coordinates).
    rewrite skipn_app, skipn_all, Nat.sub_diag. reflexivity.
  - split; reflexivity.
Qed.

Lemma length_polygonSegments (coordinates : list Measure.Coord) :
  List.length (Measure.polygonSegments length coordinates)
  = (List.length coordinates - 1)%nat.
Proof.
  induction coordinates as [| a [| b rest] IH]; [reflexivity | reflexivity |].
  change (Measure.polygonSegments length (a :: b :: rest))
    with (Measure.polygonSegmentStyle length a b
          :: Measure.polygonSegments length (b :: rest)).
  cbn [List.length] in *. rewrite IH. lia.
Qed.

Lemma nth_polygonSegments (coordinates : list Measure.Coord) (i : nat)
  (a b : Measure.Coord) :
  nth_error coordinates i = Some a -> nth_error coordinates (S i) = Some b ->
  nth_error (Measure.polygonSegments length coordinates) i
  = Some (Measure.polygonSegmentStyle length a b).
Proof.
  revert i. induction coordinates as [| c [| d rest] IH]; intros i Ha Hb.
  - destruct i; discriminate.
  - destruct i as [| [| i]]; discriminate.
  - change (Measure.polygonSegments length (c :: d :: rest))
      with (Measure.polygonSegmentStyle length c d
            :: Measure.polygonSegments length (d :: rest)).
    destruct i as [| i].
    + cbn in Ha, Hb. injection Ha as <-. injection Hb as <-. reflexivity.
    + cbn [nth_error]. apply IH; assumption.
Qed.

(** The styles of a polygon: after the three base styles, every segment
    of the first ring has its own label, in order, followed by the one
    label at the interior point; the other rings get no segment labels.
    A polygon without a ring raises a [TypeError], and a point or a circle
    gets no style at all ([undefined]), not even the base styles. *)
Theorem stylist_polygon (isSelected : bool) (ring : list Measure.Coord)
  (holes : list (list Measure.Coord)) :
  (exists (labels : list Measure.Style) (interior : Measure.Style),
      Measure.stylist length angle area radiansAngle getLastSegmentCoordinates
        getInteriorPoint times Math_cos Math_sin Math_PI isSelected
        (Measure.Polygon (ring :: holes))
      = Ok (Some (Measure.baseStyle isSelected ++ labels ++ [interior]))
      /\ List.length labels = (List.length ring - 1)%nat
      /\ (forall (i : nat) (a b : Measure.Coord),
            nth_error ring i = Some a -> nth_error ring (S i) = Some b ->
            exists t : Measure.TextStyle,
              nth_error labels i
              = Some (Measure.mkStyle (Some (Measure.LineString [a; b]))
                        (Some t) None None)
              /\ Measure.text t
                 = String.append (length (Measure.LineString [a; b]))
                     (String.append Measure.nl Measure.nl))
      /\ Measure.geometry interior = Some (getInteriorPoint (ring :: holes)))
  /\ Measure.stylist length angle area radiansAngle getLastSegmentCoordinates
       getInteriorPoint times Math_cos Math_sin Math_PI isSelected
       (Measure.Polygon [])
     = Err TypeError
  /\ (forall c : Measure.Coord,
        Measure.stylist length angle area radiansAngle getLastSegmentCoordinates
          getInteriorPoint times Math_cos Math_sin Math_PI isSelected
          (Measure.Point c)
        = Ok None)
  /\ (forall (c : Measure.Coord) (r : R),
        Measure.stylist length angle area radiansAngle getLastSegmentCoordinates
          getInteriorPoint times Math_cos Math_sin Math_PI isSelected
          (Measure.Circle c r)
        = Ok None).
Proof.
  split.
  { eexists. eexists. split; [reflexivity |].
    split; [apply length_polygonSegments |].
    split; [| reflexivity].
    intros i a b Ha Hb. eexists. split.
    - apply nth_polygonSegments; eassumption.
    - reflexivity. }
  split; [reflexivity |].
  split; intros; reflexivity.
Qed.

End MeasureStyles.

(** ** Draw interactions *)

Lemma draws_app (l k : list Measure.Interaction) :
  draws (l ++ k) = draws l ++ draws k.
Proof. unfold draws. apply flat_map_app. Qed.

Lemma others_app (l k : list Measure.Interaction) :
  others (l ++ k) = others l ++ others k.
Proof. unfold others. apply List.filter_app. Qed.

Lemma In_draws (l : list Measure.Interaction) (d : nat) :
  In (Measure.Draw d) l <-> In d (draws l).
Proof.
  unfold draws. rewrite in_flat_map. split.
  - intros H. exists (Measure.Draw d). split; [exact H | left; reflexivity].
  - intros (i & Hi & Hd). destruct i; simpl in Hd; try contradiction.
    destruct Hd as [<- | []]. exact Hi.
Qed.

Lemma existsb_Draw (l : list Measure.Interaction) (d : nat) :
  existsb (Measure.Interaction_eqb (Measure.Draw d)) l = true
  <-> In (Measure.Draw d) l.
Proof.
  rewrite existsb_exists. split.
  - intros (i & Hi & He). destruct i; simpl in He; try discriminate.
    apply Nat.eqb_eq in He. subst. exact Hi.
  - intros H. exists (Measure.Draw d). split; [exact H | apply Nat.eqb_refl].
Qed.

Lemma remove_only_draw (l : list Measure.Interaction) (d : nat) :
  draws l = [d] ->
  draws (Measure.removeInteraction (Measure.Draw d) l) = []
  /\ others (Measure.removeInteraction (Measure.Draw d) l) = others l.
Proof.
  unfold draws, others.
  induction l as [| i l IH]; intros Hd; [discriminate |].
  destruct i as [| | n | name]; cbn in Hd |- *.
  - destruct (IH Hd) as [H1 H2]. rewrite H1, H2. split; reflexivity.
  - destruct (IH Hd) as [H1 H2]. rewrite H1, H2. split; reflexivity.
  - injection Hd as -> Hl. rewrite Nat.eqb_refl. split; [exact Hl | reflexivity].
  - destruct (IH Hd) as [H1 H2]. rewrite H1, H2. split; reflexivity.
Qed.

Lemma remove_absent (l : list Measure.Interaction) (d : nat) :
  ~ In (Measure.Draw d) l -> Measure.removeInteraction (Measure.Draw d) l = l.
Proof.
  induction l as [| i l IH]; intros Hd; [reflexivity |].
  cbn. destruct i as [| | n | name]; cbn;
    try (rewrite IH; [reflexivity | intros H; apply Hd; right; exact H]).
  destruct (Nat.eqb_spec d n) as [-> | Hne].
  - contradiction Hd. left. reflexivity.
  - rewrite IH; [reflexivity | intros H; apply Hd; right; exact H].
Qed.

Lemma one_draw_reachable (existing : list Measure.Interaction)
  (s : Measure.State) :
  draws existing = [] -> Measure.reachable existing s -> one_draw existing s.
Proof.
  intros Hex Hr. induction Hr as [| s Hr IH | s d Hr IH Hd].
  - unfold one_draw, Measure.initial. cbn.
    rewrite draws_app, others_app, Hex. split; reflexivity.
  - destruct IH as [Hdraws Hothers].
    unfold one_draw, Measure.addDrawInteraction.
    destruct (Measure.currentDrawInteraction s) as [d |] eqn:Hcur.
    + assert (In (Measure.Draw d) (Measure.interactions s)) as Hin
        by (apply In_draws; rewrite Hdraws; left; reflexivity).
      rewrite (proj2 (existsb_Draw _ _) Hin).
      cbn [Measure.interactions Measure.currentDrawInteraction Measure.created].
      destruct (remove_only_draw _ _ Hdraws) as [H1 H2].
      rewrite draws_app, others_app, H1, H2, Hothers.
      split; [reflexivity | apply app_nil_r].
    + cbn [Measure.interactions Measure.currentDrawInteraction Measure.created].
      rewrite draws_app, others_app, Hdraws, Hothers.
      split; [reflexivity | apply app_nil_r].
  - destruct IH as [Hdraws Hothers].
    unfold one_draw, Measure.drawend.
    cbn [Measure.interactions Measure.currentDrawInteraction Measure.created].
    apply In_draws in Hd.
    destruct (Measure.currentDrawInteraction s) as [d' |];
      rewrite Hdraws in Hd; [| contradiction].
    destruct Hd as [<- | []].
    destruct (remove_only_draw _ _ Hdraws) as [H1 H2].
    rewrite H1, H2, Hothers. split; reflexivity.
Qed.

(** Whatever the sequence of [MAP_MEASURE_LENGTH] commands and ended
    drawings, at most one draw interaction is on the map, and it is the
    one held in [currentDrawInteraction]; after a drawing has ended there
    is none.  The other interactions of the map, and [Modify] and [Select]
    after them, stay as they were. *)
Theorem one_draw_interaction (existing : list Measure.Interaction)
  (s : Measure.State) :
  draws existing = [] ->
  Measure.reachable existing s ->
  draws (Measure.interactions s)
  = match Measure.currentDrawInteraction s with
    | Some d => [d]
    | None => []
    end
  /\ (List.length (draws (Measure.interactions s)) <= 1)%nat
  /\ others (Measure.interactions s) = existing ++ [Measure.Modify; Measure.Select]
  /\ (forall d : nat, In (Measure.Draw d) (Measure.interactions s) ->
        draws (Measure.interactions (Measure.drawend d s)) = [])
  /\ draws (Measure.interactions (Measure.addDrawInteraction s))
     = [Measure.created s].
Proof.
  intros Hex Hr.
  pose proof (one_draw_reachable existing s Hex Hr) as [Hdraws Hothers].
  assert (others existing = existing) as Hoe.
  { clear - Hex. unfold others, draws in *.
    induction existing as [| i l IH]; [reflexivity |].
    destruct i; cbn in *; try discriminate; rewrite IH by exact Hex; reflexivity. }
  split; [exact Hdraws |].
  split.
  { rewrite Hdraws. destruct (Measure.currentDrawInteraction s); cbn; lia. }
  split; [rewrite Hothers, Hoe; reflexivity |].
  split.
  - intros d Hd.
    pose proof (one_draw_reachable existing _ Hex
                  (Measure.reach_drawend existing s d Hr Hd)) as [H _].
    exact H.
  - pose proof (one_draw_reachable existing _ Hex
                  (Measure.reach_measure existing s Hr)) as [H _].
    rewrite H. unfold Measure.addDrawInteraction. cbn.
    destruct (Measure.currentDrawInteraction s) as [d |]; [| reflexivity].
    destruct (existsb (Measure.Interaction_eqb (Measure.Draw d))
                (Measure.interactions s)); reflexivity.
Qed.

Lemma one_draw_interaction_witness :
  draws [Measure.Other "DragPan"] = []
  /\ Measure.reachable [Measure.Other "DragPan"]
       (Measure.addDrawInteraction
          (Measure.addDrawInteraction (Measure.initial [Measure.Other "DragPan"])))
  /\ draws (Measure.interactions
              (Measure.addDrawInteraction
                 (Measure.addDrawInteraction
                    (Measure.initial [Measure.Other "DragPan"]))))
     = [1%nat].
Proof.
  assert (draws [Measure.Other "DragPan"] = []) as Hex by reflexivity.
  assert (Measure.reachable [Measure.Other "DragPan"]
            (Measure.addDrawInteraction
               (Measure.addDrawInteraction (Measure.initial [Measure.Other "DragPan"]))))
    as Hr by (repeat apply Measure.reach_measure; apply Measure.reach_initial).
  split; [exact Hex |]. split; [exact Hr |].
  rewrite (proj1 (one_draw_interaction _ _ Hex Hr)). reflexivity.
Defined.

(** * The generators under translation and in closed form *)

Lemma angle_translate (t a b : Coordinate) :
  TS.angle (mkSegment (translate t a) (translate t b)) = TS.angle (mkSegment a b).
Proof. unfold TS.angle, translate. simpl. f_equal; ring. Qed.

Lemma midPoint_translate (t a b : Coordinate) :
  TS.midPoint (mkSegment (translate t a) (translate t b))
  = translate t (TS.midPoint (mkSegment a b)).
Proof. unfold TS.midPoint, translate. simpl. f_equal; field. Qed.

Lemma projectCoordinate_translate (t origin : Coordinate) (distance angle : R)
  (offset : R * R) :
  TS.projectCoordinate distance angle (translate t origin) offset
  = translate t (TS.projectCoordinate distance angle origin offset).
Proof.
  destruct offset as [along across].
  unfold TS.projectCoordinate, translate. simpl. f_equal; ring.
Qed.

Lemma pointAlong_translate (t p q : Coordinate) (f : R) :
  TS.pointAlong (mkSegment (translate t p) (translate t q)) f
  = translate t (TS.pointAlong (mkSegment p q) f).
Proof. unfold TS.pointAlong, translate. simpl. f_equal; ring. Qed.

Lemma ford_corner_translate (t a b : Coordinate) (width resolution across along : R) :
  ford_corner (mkSegment (translate t a) (translate t b)) width resolution
    across along
  = translate t (ford_corner (mkSegment a b) width resolution across along).
Proof.
  unfold ford_corner.
  rewrite angle_translate, midPoint_translate, !projectCoordinate_translate.
  reflexivity.
Qed.

Lemma ford_connector_translate (t a b : Coordinate) (width resolution : R) :
  ford_connector (mkSegment (translate t a) (translate t b)) width resolution
  = map (translate t) (ford_connector (mkSegment a b) width resolution).
Proof.
  unfold ford_connector.
  induction (seq 0 ((Z.to_nat (ford_n width resolution) + 1) / 2)) as [| k l IH];
    [reflexivity |].
  cbn [flat_map app map]. rewrite IH.
  rewrite !ford_corner_translate, !pointAlong_translate. reflexivity.
Qed.

Lemma last_translate (t b : Coordinate) (rest : list Coordinate) :
  List.last (map (translate t) rest) (translate t b)
  = translate t (List.last rest b).
Proof.
  revert b. induction rest as [| c rest IH]; intros b; [reflexivity |].
  cbn [map]. rewrite !last_cons_default. apply IH.
Qed.

Lemma translate_injective (t a b : Coordinate) :
  translate t a = translate t b -> a = b.
Proof.
  destruct a as [ax ay], b as [bx by_]. unfold translate. simpl.
  intros H. injection H as Hx Hy. f_equal; lra.
Qed.

(** FORD DIFFICULT moves with its base line: for a base line whose first
    and last coordinate differ and a subdivision count of at least one,
    translating every coordinate of the line by [t] leaves the structure
    of the result as it is and translates the endpoints of the dashed
    outline and every coordinate of the connector by [t]. *)
Theorem G_M_BCD_translate (P : Type) (ctx : styles.context P)
  (a b : Coordinate) (rest : list Coordinate) (width resolution : R)
  (t : Coordinate) :
  a <> List.last rest b ->
  (1 <= ford_n width resolution)%Z ->
  exists connector : list Coordinate,
    G_M_BCD ctx (a :: b :: rest) width resolution
    = Ok [ styles.dashedStroke ctx (Difference
             [ Boundary (LineBuffer (LineString (a :: b :: rest)) (width / 2));
               PointBuffer a (width / 2);
               PointBuffer (List.last rest b) (width / 2) ]);
           styles.solidStroke ctx (LineString connector) ]
    /\ G_M_BCD ctx (map (translate t) (a :: b :: rest)) width resolution
       = Ok [ styles.dashedStroke ctx (Difference
                [ Boundary (LineBuffer
                              (LineString (map (translate t) (a :: b :: rest)))
                              (width / 2));
                  PointBuffer (translate t a) (width / 2);
                  PointBuffer (translate t (List.last rest b)) (width / 2) ]);
              styles.solidStroke ctx (LineString (map (translate t) connector)) ].
Proof.
  intros Hab Hn.
  exists (ford_connector (mkSegment a (List.last rest b)) width resolution).
  split; [apply G_M_BCD_ok; assumption |].
  cbn [map]. rewrite G_M_BCD_ok.
  - rewrite last_translate, ford_connector_translate. reflexivity.
  - rewrite last_translate. intros H. apply Hab.
    apply (translate_injective t). exact H.
  - exact Hn.
Qed.

Lemma G_M_BCD_translate_witness :
  mkCoordinate 0 0 <> mkCoordinate 100 0
  /\ (1 <= ford_n 10 1)%Z
  /\ exists connector : list Coordinate,
       G_M_BCD drawable lineA 10 1
       = Ok [Stroke dashedA true; Stroke (LineString connector) false]
       /\ exists dashed : Geometry,
            G_M_BCD drawable (map (translate (mkCoordinate 7 (-3))) lineA) 10 1
            = Ok [ Stroke dashed true;
                   Stroke (LineString (map (translate (mkCoordinate 7 (-3)))
                                         connector)) false ].
Proof.
  assert (mkCoordinate 0 0 <> mkCoordinate 100 0) as H.
  { intros H. apply (f_equal x) in H. simpl in H. lra. }
  assert (1 <= ford_n 10 1)%Z as Hn by (rewrite ford_n_A; lia).
  split; [exact H |]. split; [exact Hn |].
  destruct (G_M_BCD_translate Primitive drawable (mkCoordinate 0 0)
              (mkCoordinate 100 0) [] 10 1 (mkCoordinate 7 (-3)) H Hn)
    as (connector & H1 & H2).
  exists connector. split; [exact H1 |]. eexists. exact H2.
Defined.




(** The side lines of TASKS / CLEAR: for a base line whose first and last
    coordinate differ, the two lines beside the base line are the segment
    from the first to the second coordinate moved by 0.75 times
    [width / 2] to either side, perpendicular to the segment from the
    first to the last coordinate, and the bar at the second coordinate is
    centred on it and reaches [width / 2] to either side. *)
Theorem task_side_lines (openArrow : R -> R -> Coordinate -> Geometry)
  (P : Type) (ctx : styles.context P) (a b : Coordinate)
  (rest : list Coordinate) (width resolution : R) :
  a <> List.last rest b ->
  let angle := TS.angle (mkSegment a (List.last rest b)) in
  exists (p00 p01 p10 p11 p20 p21 : Coordinate) (arrows : list Geometry)
         (label : P),
    G_T_X openArrow ctx (a :: b :: rest) width resolution
    = Ok [ styles.defaultStroke ctx (Collect
             (LineString (a :: b :: rest)
              :: LineString [p00; p10]
              :: LineString [p01; p11]
              :: LineString [p20; p21]
              :: arrows));
           label ]
    /\ List.length arrows = 3%nat
    /\ (x p10 - x p00 = x b - x a /\ y p10 - y p00 = y b - y a)
    /\ (x p11 - x p01 = x b - x a /\ y p11 - y p01 = y b - y a)
    /\ (x p00 + x p01 = 2 * x a /\ y p00 + y p01 = 2 * y a)
    /\ (x p20 + x p21 = 2 * x b /\ y p20 + y p21 = 2 * y b)
    /\ (x p00 - x a) * cos angle + (y p00 - y a) * sin angle = 0
    /\ (x p20 - x b) * cos angle + (y p20 - y b) * sin angle = 0
    /\ dist2 p00 a = (0.75 * (width / 2)) * (0.75 * (width / 2))
    /\ dist2 p20 b = (width / 2) * (width / 2).
Proof.
  intros Hab angle.
  pose proof (sin2_cos2 angle) as Hu. unfold Rsqr in Hu.
  do 8 eexists.
  split; [apply (G_T_X_ok openArrow P ctx a b rest width resolution Hab) |].
  fold angle.
  unfold TS.projectCoordinate, TS.dir, TS.perp, dist2. cbn [x y].
  generalize dependent (width / 2). intros d.
  split; [reflexivity |].
  split; [split; lra |]. split; [split; lra |].
  split; [split; lra |]. split; [split; lra |].
  split; [nra |]. split; [nra |].
  split; nra.
Qed.

Lemma task_side_lines_witness :
  mkCoordinate 0 0 <> mkCoordinate 10 0
  /\ exists (p20 p21 : Coordinate),
       x p20 + x p21 = 2 * 10 /\ dist2 p20 (mkCoordinate 10 0) = 4 / 2 * (4 / 2).
Proof.
  assert (mkCoordinate 0 0 <> mkCoordinate 10 0) as H.
  { intros H. apply (f_equal x) in H. simpl in H. lra. }
  split; [exact H |].
  destruct (task_side_lines marker Primitive drawable (mkCoordinate 0 0)
              (mkCoordinate 10 0) [] 4 1 H)
    as (p00 & p01 & p10 & p11 & p20 & p21 & arrows & label & _ & _ & _ & _ & _
        & [Hx _] & _ & _ & _ & Hd).
  exists p20, p21. split; [exact Hx | exact Hd].
Defined.
